(** * vefaas-deploy: the deployment pipeline and its control-plane client

    A shallow embedding of the request signer ([VolcengineSigner]), the
    control-plane client ([FaaSClient]) and the pipeline orchestrator
    ([DeployApp]), of the version utilities, the docker and skopeo helpers,
    the search for the project configuration, the version options of the
    command line, the report on the running images, the interactive menu,
    the project wizard and the log panel, followed by the properties
    established about them.

    Conventions of the embedding.
    - A JavaScript string is a [string]: a sequence of one-byte characters
      (UTF-8 text).  The built-in string functions the code calls are written
      out over such strings.
    - A JavaScript number is a [Z]: every number the modelled code handles is
      an integer (milliseconds, HTTP status codes, page numbers).
    - An object used as a record ([Record<string, string>]) is the list of its
      own properties in [Object.keys] order.
    - An optional property is an [option].
    - What the code gets from outside (the clock, the subprocesses, the HTTPS
      replies, the hash functions) is read from an environment; the calls the
      code makes and the React state setters it invokes are recorded, in
      order, as a list of events. *)

From Stdlib Require Import Strings.String Strings.Ascii Strings.Byte List ZArith Bool Lia
  DecimalString Sorting.Sorted Sorting.Permutation.
From Stdlib Require DecimalPos DecimalZ.
Import ListNotations.
Local Open Scope string_scope.
Local Open Scope Z_scope.

Set Implicit Arguments.

(* ===================================================================== *)
(** * JavaScript built-ins used by the code *)
(* ===================================================================== *)

(** [Array.prototype.join]. *)
Fixpoint join (sep : string) (l : list string) : string :=
  match l with
  | [] => ""
  | [x] => x
  | x :: rest => x ++ sep ++ join sep rest
  end.

(** Truthiness of a string: only the empty string is falsy. *)
Definition truthyString (s : string) : bool :=
  match s with EmptyString => false | _ => true end.

(** Truthiness of an optional string ([undefined] is falsy). *)
Definition truthyOpt (o : option string) : bool :=
  match o with Some s => truthyString s | None => false end.

(** [a || b] on strings. *)
Definition orElse (a : option string) (b : string) : string :=
  match a with
  | Some s => if truthyString s then s else b
  | None => b
  end.

(** [`${n}`] for an integer number. *)
Definition numberToString (n : Z) : string :=
  NilZero.string_of_int (Z.to_int n).

(** Property lookup [o[k]] on an object given by its property list. *)
Fixpoint getProp {A : Type} (o : list (string * A)) (k : string) : option A :=
  match o with
  | [] => None
  | (k', v) :: rest => if String.eqb k' k then Some v else getProp rest k
  end.

(** [Object.keys]. *)
Definition objectKeys {A : Type} (o : list (string * A)) : list string :=
  map fst o.

(** The default [Array.prototype.sort()]: ascending by character codes.
    Insertion keeps equal elements in their original order. *)
Fixpoint insertSorted (x : string) (l : list string) : list string :=
  match l with
  | [] => [x]
  | y :: rest => if String.leb x y then x :: l else y :: insertSorted x rest
  end.

Definition sortStrings (l : list string) : list string :=
  fold_right insertSorted [] l.

(** Drop every character satisfying [p]: [s.replace(/[...]/g, '')]. *)
Fixpoint removeChars (p : ascii -> bool) (s : string) : string :=
  match s with
  | EmptyString => EmptyString
  | String c rest => if p c then removeChars p rest else String c (removeChars p rest)
  end.

Definition isDigit (c : ascii) : bool :=
  let n := nat_of_ascii c in (Nat.leb 48 n && Nat.leb n 57)%bool.

(** [s.replace(/\.\d{3}/, '')]: drop the first dot that is followed by three
    digits, together with those digits. *)
Fixpoint removeFirstMillis (s : string) : string :=
  match s with
  | EmptyString => EmptyString
  | String c rest =>
      match rest with
      | String d1 (String d2 (String d3 tail)) =>
          if (Ascii.eqb c "." && isDigit d1 && isDigit d2 && isDigit d3)%bool
          then tail
          else String c (removeFirstMillis rest)
      | _ => String c (removeFirstMillis rest)
      end
  end.

(** White space removed by [String.prototype.trim], among one-byte
    characters: tab, line feed, vertical tab, form feed, carriage return and
    space. *)
Definition isSpace (c : ascii) : bool :=
  let n := nat_of_ascii c in
  (Nat.eqb n 32 || (Nat.leb 9 n && Nat.leb n 13))%bool.

Fixpoint trimStart (s : string) : string :=
  match s with
  | EmptyString => EmptyString
  | String c rest => if isSpace c then trimStart rest else s
  end.

Fixpoint trimEnd (s : string) : string :=
  match s with
  | EmptyString => EmptyString
  | String c rest =>
      match trimEnd rest with
      | EmptyString => if isSpace c then EmptyString else String c EmptyString
      | t => String c t
      end
  end.

Definition trim (s : string) : string := trimEnd (trimStart s).

Definition hexDigit (upper : bool) (n : nat) : ascii :=
  if Nat.ltb n 10 then ascii_of_nat (48 + n)
  else ascii_of_nat ((if upper then 55 else 87) + n).

Definition hexByte (upper : bool) (n : nat) : string :=
  String (hexDigit upper (Nat.div n 16)) (String (hexDigit upper (Nat.modulo n 16)) EmptyString).

(** Characters [encodeURIComponent] leaves as they are. *)
Definition isUnreserved (c : ascii) : bool :=
  let n := nat_of_ascii c in
  ((Nat.leb 65 n && Nat.leb n 90) || (Nat.leb 97 n && Nat.leb n 122)
   || (Nat.leb 48 n && Nat.leb n 57)
   || Nat.eqb n 45 || Nat.eqb n 95 || Nat.eqb n 46 || Nat.eqb n 33
   || Nat.eqb n 126 || Nat.eqb n 42 || Nat.eqb n 39 || Nat.eqb n 40
   || Nat.eqb n 41)%bool.

(** [encodeURIComponent]: every other byte of the UTF-8 text becomes [%XX]. *)
Fixpoint encodeURIComponent (s : string) : string :=
  match s with
  | EmptyString => EmptyString
  | String c rest =>
      if isUnreserved c then String c (encodeURIComponent rest)
      else "%" ++ hexByte true (nat_of_ascii c) ++ encodeURIComponent rest
  end.

(** [Buffer.toString('hex')] / [digest('hex')]: lower-case hexadecimal. *)
Fixpoint hex (b : list byte) : string :=
  match b with
  | [] => EmptyString
  | x :: rest => hexByte false (N.to_nat (Byte.to_N x)) ++ hex rest
  end.

(* ===================================================================== *)
(** * The signer (volcengine-signer.ts) *)
(* ===================================================================== *)

Module Signer.

(** The key of [crypto.createHmac]: [Buffer | string]. *)
Inductive HmacKey : Type :=
| KeyString (s : string)
| KeyBuffer (b : list byte).

(** The two digests of Node's [crypto] module; [update(data, 'utf8')] feeds
    them the text of [data]. *)
Record Crypto : Type := {
  sha256Digest : string -> list byte;
  hmacSha256Digest : HmacKey -> string -> list byte
}.

Record SignerConfig : Type := {
  accessKeyId : string;
  secretAccessKey : string;
  region : string;
  service : string
}.

Record RequestOptions : Type := {
  method : string;
  host : string;
  path : string;
  query : option (list (string * string));
  headers : option (list (string * string));
  body : option string
}.

Section Signer.

Variable crypto : Crypto.

Definition sha256 (data : string) : string :=
  hex (sha256Digest crypto data).

Definition hmacSha256 (key : HmacKey) (data : string) : list byte :=
  hmacSha256Digest crypto key data.

Definition hmacSha256Hex (key : HmacKey) (data : string) : string :=
  hex (hmacSha256Digest crypto key data).

Definition getCanonicalQueryString (query : option (list (string * string))) : string :=
  match query with
  | None => ""
  | Some q =>
      match objectKeys q with
      | [] => ""
      | keys =>
          join "&"
            (map (fun key =>
                    encodeURIComponent key ++ "=" ++
                    encodeURIComponent
                      (match getProp q key with Some v => v | None => "undefined" end))
                 (sortStrings keys))
      end
  end.

(** [now.toISOString().slice(0, 10).replace(/-/g, '')]. *)
Definition dateStampOf (iso : string) : string :=
  removeChars (Ascii.eqb "-") (substring 0 10 iso).

(** [now.toISOString().replace(/[-:]/g, '').replace(/\.\d{3}/, '')]. *)
Definition xDateOf (iso : string) : string :=
  removeFirstMillis
    (removeChars (fun c => (Ascii.eqb c "-" || Ascii.eqb c ":")%bool) iso).

(** [sign], with [iso] the value of [now.toISOString()]. *)
Definition sign (config : SignerConfig) (iso : string) (options : RequestOptions)
  : list (string * string) :=
  let dateStamp := dateStampOf iso in
  let xDate := xDateOf iso in
  let bodyHash := sha256 (orElse (body options) "") in
  let headersToSign :=
    [ ("host", host options);
      ("x-date", xDate);
      ("x-content-sha256", bodyHash);
      ("content-type", "application/json") ] in
  let sortedKeys := sortStrings (objectKeys headersToSign) in
  let nl := String (ascii_of_nat 10) EmptyString in
  let canonicalHeaders :=
    join nl
      (map (fun key =>
              key ++ ":" ++
              trim (match getProp headersToSign key with Some v => v | None => "" end))
           sortedKeys) ++ nl in
  let signedHeaders := join ";" sortedKeys in
  let canonicalQueryString := getCanonicalQueryString (query options) in
  let canonicalRequest :=
    join nl
      [ method options; path options; canonicalQueryString;
        canonicalHeaders; signedHeaders; bodyHash ] in
  let algorithm := "HMAC-SHA256" in
  let credentialScope :=
    dateStamp ++ "/" ++ region config ++ "/" ++ service config ++ "/request" in
  let stringToSign :=
    join nl [ algorithm; xDate; credentialScope; sha256 canonicalRequest ] in
  let kDate := hmacSha256 (KeyString (secretAccessKey config)) dateStamp in
  let kRegion := hmacSha256 (KeyBuffer kDate) (region config) in
  let kService := hmacSha256 (KeyBuffer kRegion) (service config) in
  let kSigning := hmacSha256 (KeyBuffer kService) "request" in
  let signature := hmacSha256Hex (KeyBuffer kSigning) stringToSign in
  let authorization :=
    algorithm ++ " Credential=" ++ accessKeyId config ++ "/" ++ credentialScope ++
    ", SignedHeaders=" ++ signedHeaders ++ ", Signature=" ++ signature in
  [ ("Host", host options);
    ("X-Date", xDate);
    ("X-Content-Sha256", bodyHash);
    ("Content-Type", "application/json");
    ("Authorization", authorization) ].

End Signer.

(** A stand-in for the two digests, to run the model on concrete inputs:
    the "digest" is the first four bytes of the text, the "MAC" the first
    two bytes of the key followed by the first two of the text. *)
Definition plainCrypto : Crypto := {|
  sha256Digest := fun data => firstn 4 (list_byte_of_string data);
  hmacSha256Digest := fun key data =>
    match key with
    | KeyString s => (firstn 2 (list_byte_of_string s) ++ firstn 2 (list_byte_of_string data))%list
    | KeyBuffer b => (firstn 2 b ++ firstn 2 (list_byte_of_string data))%list
    end
|}.

(** ** The signing algorithm as the specification words it *)







End Signer.

(* ===================================================================== *)
(** * JSON values *)
(* ===================================================================== *)

(** What [JSON.parse] / [response.json()] can produce. *)
#[warnings="-register-all"]
Inductive Json : Type :=
| JNull
| JBool (b : bool)
| JNum (n : Z)
| JStr (s : string)
| JArr (l : list Json)
| JObj (o : list (string * Json)).

(** Truthiness of a value ([undefined] is handled by the callers). *)
Definition truthy (j : Json) : bool :=
  match j with
  | JNull => false
  | JBool b => b
  | JNum n => negb (n =? 0)
  | JStr s => truthyString s
  | JArr _ => true
  | JObj _ => true
  end.

Definition escapeChar (c : ascii) : string :=
  let n := nat_of_ascii c in
  if Nat.eqb n 34 then "\" ++ String c EmptyString
  else if Nat.eqb n 92 then "\\"
  else if Nat.eqb n 8 then "\b"
  else if Nat.eqb n 9 then "\t"
  else if Nat.eqb n 10 then "\n"
  else if Nat.eqb n 12 then "\f"
  else if Nat.eqb n 13 then "\r"
  else if Nat.ltb n 32 then "\u00" ++ hexByte false n
  else String c EmptyString.

Fixpoint escapeString (s : string) : string :=
  match s with
  | EmptyString => EmptyString
  | String c rest => escapeChar c ++ escapeString rest
  end.

Definition quoteString (s : string) : string :=
  String (ascii_of_nat 34) (escapeString s) ++ String (ascii_of_nat 34) EmptyString.

(** [JSON.stringify] (no indentation). *)
Fixpoint stringify (j : Json) : string :=
  match j with
  | JNull => "null"
  | JBool true => "true"
  | JBool false => "false"
  | JNum n => numberToString n
  | JStr s => quoteString s
  | JArr l => "[" ++ join "," (map stringify l) ++ "]"
  | JObj o =>
      "{" ++ join "," (map (fun kv => quoteString (fst kv) ++ ":" ++ stringify (snd kv)) o) ++ "}"
  end.

(** Reading a property of a parsed value: [null.k] raises a [TypeError],
    a property that is not there reads as [undefined]. *)
Inductive PropRead : Type :=
| ReadTypeError
| ReadValue (v : option Json).

Definition readProp (j : Json) (k : string) : PropRead :=
  match j with
  | JNull => ReadTypeError
  | JObj o => ReadValue (getProp o k)
  | _ => ReadValue None
  end.

(** A property the declared type gives as [string] (or [string | undefined]):
    the declared types ([ImageSyncStatus], [ReleaseInfo]) are taken at their
    word, a value of another JSON type is read as [undefined]. *)
Definition stringField (j : Json) (k : string) : option string :=
  match j with
  | JObj o => match getProp o k with Some (JStr s) => Some s | _ => None end
  | _ => None
  end.

(** [`${x}`] for a possibly undefined string. *)
Definition showOpt (o : option string) : string :=
  match o with Some s => s | None => "undefined" end.

(** [a === 'lit'] for a possibly undefined string. *)
Definition isString (o : option string) (lit : string) : bool :=
  match o with Some s => String.eqb s lit | None => false end.

(* ===================================================================== *)
(** * Configuration and options (config.ts, types.ts) *)
(* ===================================================================== *)

Module Config.

Record Registry : Type := { url : string; namespace : string }.

(** One entry of [services].  [functionId] may be missing from the file or
    empty: both are falsy. *)
Record Service : Type := {
  functionId : option string;
  dockerfile : string;
  context : string;
  imageName : string;
  platform : option string
}.

Record ProjectConfig : Type := {
  name : string;
  registry : Registry;
  services : list (string * Service)
}.

Definition getImageTag (r : Registry) (imageName version : string) : string :=
  url r ++ "/" ++ namespace r ++ "/" ++ imageName ++ ":" ++ version.

End Config.

(** The credentials [getVolcengineCredentials] returns, which is also
    [FaaSClientConfig]. *)
Record FaaSClientConfig : Type := {
  accessKeyId : string;
  secretAccessKey : string;
  region : string
}.

(** [DeployOptions]; an omitted flag is [undefined], which every test of the
    flag treats as [false]. *)
Record DeployOptions : Type := {
  services : option (list string);
  versions : list (string * string);
  skipBuild : bool;
  skipPush : bool;
  dryRun : bool
}.

Inductive StepStatus : Type := pending | running | success | error | skipped.

Record Step : Type := {
  id : string;
  name : string;
  status : StepStatus;
  message : option string;
  duration : option Z
}.

(** The [Partial<Step>] objects the orchestrator passes to [updateStep]: a
    property that is present overrides the step's ([{ ...s, ...updates }]);
    [message] may be present with the value [undefined]. *)
Record StepUpdate : Type := {
  u_status : option StepStatus;
  u_message : option (option string);
  u_duration : option Z
}.

Inductive DeployPhase : Type :=
| phase_init | phase_build | phase_push | phase_sync | phase_update
| phase_release | phase_done | phase_error.

(* ===================================================================== *)
(** * Events, environment and the monad of the asynchronous code *)
(* ===================================================================== *)

(** State setters invoked and outside calls made, in program order. *)
Inductive Event : Type :=
| SetPhase (p : DeployPhase)
| SetError (m : string)
| SetCurrentService (s : string)
| SetProjectConfig (c : Config.ProjectConfig)
| SetSteps (l : list Step)
| AddLog (l : string)
| UpdateStep (stepId : string) (updates : StepUpdate)
| Spawn (file : string) (args : list string) (cwd : option string)
| Fetch (url : string) (hdrs : list (string * string)) (payload : string)
| Sleep (ms : Z).

(** A thrown [Error]; its only property the code reads is [message]. *)
Record JsError : Type := { errMessage : string }.

(** How a subprocess ends: the chunks its two pipes delivered, in order of
    arrival, and the rejection of the [execa] promise if it exited non-zero
    or could not be started. *)
Record ExecaError : Type := { execaMessage : string; stderr : string }.

Record ProcOutcome : Type := {
  chunks : list string;
  failure : option ExecaError
}.

Inductive JsonBody : Type :=
| BodyInvalid (e : JsError)
| BodyJson (data : Json).

Record HttpResponse : Type := {
  httpStatus : Z;
  jsonBody : JsonBody
}.

(** [Response.ok]: the status is in the range 200-299. *)
Definition ok (r : HttpResponse) : bool :=
  (200 <=? httpStatus r) && (httpStatus r <=? 299).

Inductive FetchOutcome : Type :=
| FetchRejected (e : JsError)
| FetchResponse (r : HttpResponse).

(** The outside world.  The answers to the n-th clock reading, the n-th
    HTTPS request and the n-th subprocess are given per call. *)
Record Env : Type := {
  dateNow : nat -> Z;
  newDateISO : nat -> string;
  fetchReply : nat -> FetchOutcome;
  execaReply : nat -> ProcOutcome;
  pathJoin : string -> string -> string;
  getProjectRoot : option string;
  processCwd : string;
  getVolcengineCredentials : FaaSClientConfig;
  crypto : Signer.Crypto
}.

(** How many of each kind of call have been made. *)
Record World : Type := {
  nowReads : nat;
  dateReads : nat;
  fetches : nat;
  spawns : nat
}.

Definition world0 : World :=
  {| nowReads := 0; dateReads := 0; fetches := 0; spawns := 0 |}.

(** The result of awaiting a promise: fulfilled, rejected, or still pending
    when the model's iteration budget is used up. *)
Inductive Res (A : Type) : Type :=
| Returned (a : A)
| Thrown (e : JsError)
| Unsettled.
Arguments Returned {A} a.
Arguments Thrown {A} e.
Arguments Unsettled {A}.

Definition M (A : Type) : Type := World -> list Event * World * Res A.

Definition ret {A : Type} (a : A) : M A := fun w => ([], w, Returned a).

Definition bind {A B : Type} (c : M A) (k : A -> M B) : M B :=
  fun w =>
    match c w with
    | (ev, w1, Returned a) =>
        match k a w1 with (ev2, w2, r) => ((ev ++ ev2)%list, w2, r) end
    | (ev, w1, Thrown e) => (ev, w1, Thrown e)
    | (ev, w1, Unsettled) => (ev, w1, Unsettled)
    end.

Definition throw {A : Type} (msg : string) : M A :=
  fun w => ([], w, Thrown {| errMessage := msg |}).

Definition unsettled {A : Type} : M A := fun w => ([], w, Unsettled).

Definition emit (ev : list Event) : M unit := fun w => (ev, w, Returned tt).

(** [try { c } catch (err) { h err }]. *)
Definition tryCatch {A : Type} (c : M A) (h : JsError -> M A) : M A :=
  fun w =>
    match c w with
    | (ev, w1, Thrown e) =>
        match h e w1 with (ev2, w2, r) => ((ev ++ ev2)%list, w2, r) end
    | other => other
    end.

Declare Scope js_scope.
Delimit Scope js_scope with js.
Notation "x <- c1 ;; c2" := (bind c1 (fun x => c2))
  (at level 100, c1 at next level, right associativity) : js_scope.
Notation "c1 ;; c2" := (bind c1 (fun _ => c2))
  (at level 100, right associativity) : js_scope.
Local Open Scope js_scope.

(** [String.prototype.split] on one separator character. *)
Fixpoint splitOn (sep : ascii) (s : string) : list string :=
  match s with
  | EmptyString => [EmptyString]
  | String c rest =>
      if Ascii.eqb c sep then EmptyString :: splitOn sep rest
      else match splitOn sep rest with
           | [] => [String c EmptyString]
           | h :: t => String c h :: t
           end
  end.

(** [data.toString().split('\n').filter(Boolean)]. *)
Definition chunkLines (chunk : string) : list string :=
  filter truthyString (splitOn (ascii_of_nat 10) chunk).

(* ===================================================================== *)
(** * The control-plane client (faas-client.ts) *)
(* ===================================================================== *)

Definition FAAS_HOST : string := "open.volcengineapi.com".
Definition FAAS_SERVICE : string := "vefaas".
Definition FAAS_VERSION : string := "2024-06-06".

Record FaaSClient : Type := {
  signer : Signer.SignerConfig;
  clientRegion : string
}.

(** The constructor of [FaaSClient]. *)
Definition newFaaSClient (config : FaaSClientConfig) : FaaSClient :=
  {| clientRegion := region config;
     signer := {| Signer.accessKeyId := accessKeyId config;
                  Signer.secretAccessKey := secretAccessKey config;
                  Signer.region := region config;
                  Signer.service := FAAS_SERVICE |} |}.

(** Options of the two polls. *)
Record WaitOptions : Type := {
  timeout : option Z;
  interval : option Z;
  onProgress : option (Json -> list Event)
}.

Definition noWaitOptions : WaitOptions :=
  {| timeout := None; interval := None; onProgress := None |}.

(** A destructuring default [{ x = d }]. *)
Definition withDefault (o : option Z) (d : Z) : Z :=
  match o with Some v => v | None => d end.

(** [onProgress?.(status)]. *)
Definition callProgress (cb : option (Json -> list Event)) (status : Json) : M unit :=
  match cb with
  | Some f => emit (f status)
  | None => ret tt
  end.

Section Client.

Variable env : Env.

(** [Date.now()]. *)
Definition now : M Z :=
  fun w =>
    ([], {| nowReads := S (nowReads w); dateReads := dateReads w;
            fetches := fetches w; spawns := spawns w |},
     Returned (dateNow env (nowReads w))).

(** [new Date().toISOString()]. *)
Definition newDate : M string :=
  fun w =>
    ([], {| nowReads := nowReads w; dateReads := S (dateReads w);
            fetches := fetches w; spawns := spawns w |},
     Returned (newDateISO env (dateReads w))).

(** [await fetch(url, { method: 'POST', headers, body })]. *)
Definition fetch (url : string) (hdrs : list (string * string)) (payload : string)
  : M HttpResponse :=
  fun w =>
    let w' := {| nowReads := nowReads w; dateReads := dateReads w;
                 fetches := S (fetches w); spawns := spawns w |} in
    match fetchReply env (fetches w) with
    | FetchRejected e => ([Fetch url hdrs payload], w', Thrown e)
    | FetchResponse r => ([Fetch url hdrs payload], w', Returned r)
    end.

(** [await response.json()]. *)
Definition responseJson (r : HttpResponse) : M Json :=
  match jsonBody r with
  | BodyInvalid e => fun w => ([], w, Thrown e)
  | BodyJson data => ret data
  end.

(** [await new Promise(resolve => setTimeout(resolve, ms))]. *)
Definition sleep (ms : Z) : M unit := emit [Sleep ms].

(** [FaaSClient.request].  The debug log, which is written only when
    the DEBUG environment variable is set, is left out. *)
Definition request (client : FaaSClient) (action : string) (params : Json) : M Json :=
  let query := [ ("Action", action); ("Version", FAAS_VERSION) ] in
  let body := stringify params in
  let path := "/" in
  iso <- newDate ;;
  let headers :=
    Signer.sign (crypto env) (signer client) iso
      {| Signer.method := "POST"; Signer.host := FAAS_HOST; Signer.path := path;
         Signer.query := Some query; Signer.headers := None;
         Signer.body := Some body |} in
  let queryString :=
    join "&"
      (map (fun kv => encodeURIComponent (fst kv) ++ "=" ++ encodeURIComponent (snd kv))
           query) in
  let url := "https://" ++ FAAS_HOST ++ path ++ "?" ++ queryString in
  response <- fetch url headers body ;;
  data <- responseJson response ;;
  let apiError : M Json :=
    throw ("FaaS API Error [" ++ action ++ "]: " ++ numberToString (httpStatus response)
           ++ " - " ++ stringify data) in
  if negb (ok response) then apiError
  else
    match readProp data "Result" with
    | ReadTypeError => throw "Cannot read properties of null (reading 'Result')"
    | ReadValue None => apiError
    | ReadValue (Some result) => if truthy result then ret result else apiError
    end.

Definition listFunctions (client : FaaSClient)
    (pageNumber pageSize : option Z) (name : option string) : M Json :=
  let orNum (o : option Z) (d : Z) :=
    match o with Some v => if v =? 0 then d else v | None => d end in
  request client "ListFunctions"
    (JObj ([ ("PageNumber", JNum (orNum pageNumber 1));
             ("PageSize", JNum (orNum pageSize 50)) ]
           ++ (if truthyOpt name then [ ("Name", JStr (showOpt name)) ] else []))%list).

Definition getFunction (client : FaaSClient) (functionId : string) : M Json :=
  request client "GetFunction" (JObj [ ("Id", JStr functionId) ]).

Definition updateFunction (client : FaaSClient) (functionId imageUri : string) : M unit :=
  _ <- request client "UpdateFunction"
         (JObj [ ("Id", JStr functionId);
                 ("Source", JStr imageUri);
                 ("SourceType", JStr "image") ]) ;;
  ret tt.

Definition release (client : FaaSClient) (functionId : string)
    (description : option string) : M unit :=
  desc <- (if truthyOpt description then ret (showOpt description)
           else iso <- newDate ;; ret ("Deploy via vefaas-deploy CLI at " ++ iso)) ;;
  _ <- request client "Release"
         (JObj [ ("FunctionId", JStr functionId);
                 ("RevisionNumber", JNum 0);
                 ("TargetTrafficWeight", JNum 100);
                 ("RollingStep", JNum 100);
                 ("Description", JStr desc) ]) ;;
  ret tt.

Definition getReleaseStatus (client : FaaSClient) (functionId : string) : M Json :=
  request client "GetReleaseStatus" (JObj [ ("FunctionId", JStr functionId) ]).

Definition getImageSyncStatus (client : FaaSClient) (functionId imageUri : string)
  : M Json :=
  request client "GetImageSyncStatus"
    (JObj [ ("FunctionId", JStr functionId); ("Source", JStr imageUri) ]).

(** The [while] loop of [waitForImageSync], followed by the [throw] after
    it; [fuel] bounds the number of iterations the model follows. *)
Fixpoint imageSyncLoop (fuel : nat) (client : FaaSClient) (functionId imageUri : string)
    (timeout interval : Z) (onProgress : option (Json -> list Event)) (startTime : Z)
  : M unit :=
  match fuel with
  | O => unsettled
  | S fuel' =>
      t <- now ;;
      if t - startTime <? timeout then
        status <- getImageSyncStatus client functionId imageUri ;;
        callProgress onProgress status ;;
        if isString (stringField status "Status") "Succeeded" then ret tt
        else if isString (stringField status "Status") "Failed"
                || isString (stringField status "Status") "Canceled" then
          throw ("Image sync failed: " ++
                 orElse (stringField status "Description")
                        (showOpt (stringField status "Status")))
        else
          sleep interval ;;
          imageSyncLoop fuel' client functionId imageUri timeout interval
                        onProgress startTime
      else throw "Image sync timeout"
  end.

Definition waitForImageSync (fuel : nat) (client : FaaSClient)
    (functionId imageUri : string) (options : WaitOptions) : M unit :=
  let timeout := withDefault (timeout options) 300000 in
  let interval := withDefault (interval options) 5000 in
  startTime <- now ;;
  imageSyncLoop fuel client functionId imageUri timeout interval
                (onProgress options) startTime.

(** The [while] loop of [waitForRelease] and the [throw] after it. *)
Fixpoint releaseLoop (fuel : nat) (client : FaaSClient) (functionId : string)
    (timeout interval : Z) (onProgress : option (Json -> list Event)) (startTime : Z)
  : M unit :=
  match fuel with
  | O => unsettled
  | S fuel' =>
      t <- now ;;
      if t - startTime <? timeout then
        status <- getReleaseStatus client functionId ;;
        callProgress onProgress status ;;
        if isString (stringField status "Status") "done" then ret tt
        else if isString (stringField status "Status") "failed" then
          throw ("Release failed: " ++
                 orElse (stringField status "StatusMessage")
                        (orElse (stringField status "ErrorCode") "Unknown error"))
        else
          sleep interval ;;
          releaseLoop fuel' client functionId timeout interval onProgress startTime
      else throw "Release timeout"
  end.

Definition waitForRelease (fuel : nat) (client : FaaSClient)
    (functionId : string) (options : WaitOptions) : M unit :=
  let timeout := withDefault (timeout options) 300000 in
  let interval := withDefault (interval options) 3000 in
  startTime <- now ;;
  releaseLoop fuel client functionId timeout interval (onProgress options) startTime.

End Client.

(* ===================================================================== *)
(** * Running docker (docker.ts) *)
(* ===================================================================== *)

Section Docker.

Variable env : Env.

(** Start a subprocess with [execa]; the outcome is read from the
    environment. *)
Definition execa (file : string) (args : list string) (cwd : option string)
  : M ProcOutcome :=
  fun w =>
    ([Spawn file args cwd],
     {| nowReads := nowReads w; dateReads := dateReads w;
        fetches := fetches w; spawns := S (spawns w) |},
     Returned (execaReply env (spawns w))).

(** The two ['data'] handlers: every non-empty line of every chunk goes to
    [onOutput]. *)
Definition forwardOutput (onOutput : option (string -> list Event)) (p : ProcOutcome)
  : M unit :=
  emit (flat_map
          (fun chunk =>
             flat_map (fun line => match onOutput with
                                   | Some f => f line
                                   | None => []
                                   end)
                      (chunkLines chunk))
          (chunks p)).

(** [await subprocess]. *)
Definition awaitExit (p : ProcOutcome) : M unit :=
  match failure p with
  | Some e => throw (execaMessage e)
  | None => ret tt
  end.

Definition buildDockerImage (projectRoot dockerfile context imageTag : string)
    (platform : option string) (onOutput : option (string -> list Event)) : M string :=
  let dockerfilePath := pathJoin env projectRoot dockerfile in
  let contextPath := pathJoin env projectRoot context in
  let args :=
    [ "build"; "--platform"; orElse platform "linux/amd64";
      "-f"; dockerfilePath; "-t"; imageTag; contextPath ] in
  subprocess <- execa "docker" args (Some projectRoot) ;;
  forwardOutput onOutput subprocess ;;
  awaitExit subprocess ;;
  ret imageTag.

Definition pushDockerImage (imageTag : string)
    (onOutput : option (string -> list Event)) : M unit :=
  subprocess <- execa "docker" [ "push"; imageTag ] None ;;
  forwardOutput onOutput subprocess ;;
  awaitExit subprocess.

Definition checkDocker : M bool :=
  tryCatch
    (subprocess <- execa "docker" [ "version" ] None ;;
     awaitExit subprocess ;;
     ret true)
    (fun _ => ret false).

Definition buildServiceImage (projectRoot : string) (config : Config.ProjectConfig)
    (serviceName version : string) (onOutput : option (string -> list Event))
  : M string :=
  match getProp (Config.services config) serviceName with
  | None =>
      throw ("Service " ++ String (ascii_of_nat 34) serviceName
             ++ String (ascii_of_nat 34) " not found in config")
  | Some service =>
      let imageTag :=
        Config.url (Config.registry config) ++ "/" ++
        Config.namespace (Config.registry config) ++ "/" ++
        Config.imageName service ++ ":" ++ version in
      _ <- buildDockerImage projectRoot (Config.dockerfile service)
             (Config.context service) imageTag (Config.platform service) onOutput ;;
      ret imageTag
  end.

End Docker.

(* ===================================================================== *)
(** * The orchestrator (DeployApp.tsx) *)
(* ===================================================================== *)

Definition mkStep (i n : string) (st : StepStatus) : Step :=
  {| id := i; name := n; status := st; message := None; duration := None |}.

(** [options.services?.length ? options.services : Object.keys(config.services)]. *)
Definition servicesToDeploy (options : DeployOptions) (config : Config.ProjectConfig)
  : list string :=
  match services options with
  | Some (x :: rest) => x :: rest
  | _ => objectKeys (Config.services config)
  end.

(** The loop that fills [initialSteps]: six [push]ed steps per service. *)
Definition initialSteps (options : DeployOptions) (config : Config.ProjectConfig)
  : list Step :=
  fold_left
    (fun acc serviceName =>
       let prefix := serviceName in
       (acc ++
        [ mkStep (prefix ++ "-build") ("Build " ++ serviceName)
                 (if skipBuild options then skipped else pending);
          mkStep (prefix ++ "-push") ("Push " ++ serviceName)
                 (if skipPush options then skipped else pending);
          mkStep (prefix ++ "-update") ("Update " ++ serviceName) pending;
          mkStep (prefix ++ "-sync") ("Sync " ++ serviceName) pending;
          mkStep (prefix ++ "-release") ("Release " ++ serviceName) pending;
          mkStep (prefix ++ "-wait-release") ("Wait Release " ++ serviceName) pending ])%list)
    (servicesToDeploy options config) [].

(** The first effect: load the configuration and plan the steps. *)
Definition planEffect (options : DeployOptions) (loaded : option Config.ProjectConfig)
  : list Event :=
  match loaded with
  | None =>
      [ SetError "No deploy.config.json found. Run `liminian-deploy init` to create one.";
        SetPhase phase_error ]
  | Some config =>
      [ SetProjectConfig config; SetSteps (initialSteps options config) ]
  end.

(** The component's state. *)
Record AppState : Type := {
  phase : DeployPhase;
  logs : list string;
  appError : option string;
  steps : list Step;
  currentService : option string;
  projectConfig : option Config.ProjectConfig
}.

Definition initialState : AppState :=
  {| phase := phase_init; logs := []; appError := None; steps := [];
     currentService := None; projectConfig := None |}.

(** [{ ...s, ...updates }]. *)
Definition applyUpdates (s : Step) (updates : StepUpdate) : Step :=
  {| id := id s;
     name := name s;
     status := match u_status updates with Some x => x | None => status s end;
     message := match u_message updates with Some m => m | None => message s end;
     duration := match u_duration updates with Some d => Some d | None => duration s end |}.

(** The state transformer of [updateStep]:
    [prev.map(s => s.id === id ? { ...s, ...updates } : s)]. *)
Definition updateSteps (stepId : string) (updates : StepUpdate) (prev : list Step)
  : list Step :=
  map (fun s => if String.eqb (id s) stepId then applyUpdates s updates else s) prev.

(** The effect of one event on the component's state; the outside calls
    leave it unchanged. *)
Definition reduce (st : AppState) (e : Event) : AppState :=
  match e with
  | SetPhase p =>
      {| phase := p; logs := logs st; appError := appError st; steps := steps st;
         currentService := currentService st; projectConfig := projectConfig st |}
  | SetError m =>
      {| phase := phase st; logs := logs st; appError := Some m; steps := steps st;
         currentService := currentService st; projectConfig := projectConfig st |}
  | SetCurrentService s =>
      {| phase := phase st; logs := logs st; appError := appError st; steps := steps st;
         currentService := Some s; projectConfig := projectConfig st |}
  | SetProjectConfig c =>
      {| phase := phase st; logs := logs st; appError := appError st; steps := steps st;
         currentService := currentService st; projectConfig := Some c |}
  | SetSteps l =>
      {| phase := phase st; logs := logs st; appError := appError st; steps := l;
         currentService := currentService st; projectConfig := projectConfig st |}
  | AddLog l =>
      {| phase := phase st; logs := (logs st ++ [l])%list; appError := appError st;
         steps := steps st; currentService := currentService st;
         projectConfig := projectConfig st |}
  | UpdateStep i u =>
      {| phase := phase st; logs := logs st; appError := appError st;
         steps := updateSteps i u (steps st);
         currentService := currentService st; projectConfig := projectConfig st |}
  | Spawn _ _ _ | Fetch _ _ _ | Sleep _ => st
  end.

Definition runEvents (st : AppState) (evs : list Event) : AppState :=
  fold_left reduce evs st.

Definition statusOnly (st : StepStatus) : StepUpdate :=
  {| u_status := Some st; u_message := None; u_duration := None |}.

Section DeployApp.

Variable env : Env.
Variable fuel : nat.
Variable options : DeployOptions.

Definition addLog (log : string) : list Event := [ AddLog log ].

Definition updateStep (stepId : string) (updates : StepUpdate) : M unit :=
  emit [ UpdateStep stepId updates ].

Definition setPhase (p : DeployPhase) : M unit := emit [ SetPhase p ].

(** The four FaaS phases of one service (the [then] branch). *)
Definition faasPhases (faasClient : FaaSClient) (functionId prefix imageTag : string)
  : M unit :=
  setPhase phase_update ;;
  updateStartTime <- now env ;;
  updateStep (prefix ++ "-update") (statusOnly running) ;;
  emit (addLog ("🔄 Updating function: " ++ functionId)) ;;
  emit (addLog ("   Image: " ++ imageTag)) ;;
  updateFunction env faasClient functionId imageTag ;;
  t <- now env ;;
  updateStep (prefix ++ "-update")
    {| u_status := Some success; u_message := None;
       u_duration := Some (t - updateStartTime) |} ;;
  setPhase phase_sync ;;
  syncStartTime <- now env ;;
  updateStep (prefix ++ "-sync") (statusOnly running) ;;
  emit (addLog "⏳ Waiting for image sync...") ;;
  waitForImageSync env fuel faasClient functionId imageTag
    {| timeout := None; interval := None;
       onProgress := Some (fun status =>
         [ UpdateStep (prefix ++ "-sync")
             {| u_status := None; u_message := Some (stringField status "Status");
                u_duration := None |} ]) |} ;;
  t <- now env ;;
  updateStep (prefix ++ "-sync")
    {| u_status := Some success; u_message := None;
       u_duration := Some (t - syncStartTime) |} ;;
  setPhase phase_release ;;
  releaseStartTime <- now env ;;
  updateStep (prefix ++ "-release") (statusOnly running) ;;
  emit (addLog "🚀 Releasing function...") ;;
  release env faasClient functionId None ;;
  t <- now env ;;
  updateStep (prefix ++ "-release")
    {| u_status := Some success; u_message := None;
       u_duration := Some (t - releaseStartTime) |} ;;
  waitReleaseStartTime <- now env ;;
  updateStep (prefix ++ "-wait-release") (statusOnly running) ;;
  emit (addLog "⏳ Waiting for release to complete...") ;;
  waitForRelease env fuel faasClient functionId
    {| timeout := None; interval := None;
       onProgress := Some (fun status =>
         [ UpdateStep (prefix ++ "-wait-release")
             {| u_status := None; u_message := Some (stringField status "Status");
                u_duration := None |} ]) |} ;;
  t <- now env ;;
  updateStep (prefix ++ "-wait-release")
    {| u_status := Some success; u_message := None;
       u_duration := Some (t - waitReleaseStartTime) |}.

(** The [else] branch: the four FaaS steps are skipped. *)
Definition skipFaasPhases (faasClient : option FaaSClient) (prefix : string) : M unit :=
  let reason :=
    match faasClient with None => "No credentials" | Some _ => "No function ID" end in
  let skip := {| u_status := Some skipped; u_message := Some (Some reason);
                 u_duration := None |} in
  updateStep (prefix ++ "-update") skip ;;
  updateStep (prefix ++ "-sync") skip ;;
  updateStep (prefix ++ "-release") skip ;;
  updateStep (prefix ++ "-wait-release") skip.

Definition buildPhase (projectConfig : Config.ProjectConfig)
    (projectRoot serviceName version imageTag prefix : string) : M unit :=
  if negb (skipBuild options) then
    setPhase phase_build ;;
    startTime <- now env ;;
    updateStep (prefix ++ "-build") (statusOnly running) ;;
    emit (addLog ("🔨 Building " ++ serviceName ++ ": " ++ imageTag)) ;;
    buildServiceImage env projectRoot projectConfig serviceName version (Some addLog) ;;
    t <- now env ;;
    updateStep (prefix ++ "-build")
      {| u_status := Some success; u_message := Some (Some imageTag);
         u_duration := Some (t - startTime) |}
  else ret tt.

Definition pushPhase (serviceName imageTag prefix : string) : M unit :=
  if negb (skipPush options) then
    setPhase phase_push ;;
    startTime <- now env ;;
    updateStep (prefix ++ "-push") (statusOnly running) ;;
    emit (addLog ("📤 Pushing " ++ serviceName ++ ": " ++ imageTag)) ;;
    pushDockerImage env imageTag (Some addLog) ;;
    t <- now env ;;
    updateStep (prefix ++ "-push")
      {| u_status := Some success; u_message := None;
         u_duration := Some (t - startTime) |}
  else ret tt.

(** One iteration of the [for] loop over [servicesToDeploy]. *)
Definition deployService (projectConfig : Config.ProjectConfig) (projectRoot : string)
    (faasClient : option FaaSClient) (serviceName : string) : M unit :=
  emit [ SetCurrentService serviceName ] ;;
  match getProp (Config.services projectConfig) serviceName with
  | None =>
      emit (addLog ("⚠️ Service " ++ String (ascii_of_nat 34) serviceName
                    ++ String (ascii_of_nat 34) " not found, skipping"))
  | Some service =>
      let version := orElse (getProp (versions options) serviceName) "latest" in
      let imageTag :=
        Config.getImageTag (Config.registry projectConfig)
                           (Config.imageName service) version in
      let prefix := serviceName in
      buildPhase projectConfig projectRoot serviceName version imageTag prefix ;;
      pushPhase serviceName imageTag prefix ;;
      match faasClient with
      | Some client =>
          if truthyOpt (Config.functionId service)
          then faasPhases client (showOpt (Config.functionId service)) prefix imageTag
          else skipFaasPhases faasClient prefix
      | None => skipFaasPhases faasClient prefix
      end
  end.

Fixpoint deployServices (projectConfig : Config.ProjectConfig) (projectRoot : string)
    (faasClient : option FaaSClient) (names : list string) : M unit :=
  match names with
  | [] => ret tt
  | serviceName :: rest =>
      deployService projectConfig projectRoot faasClient serviceName ;;
      deployServices projectConfig projectRoot faasClient rest
  end.

(** [getProjectRoot() || process.cwd()]. *)
Definition resolveProjectRoot : string :=
  match getProjectRoot env with
  | Some r => if truthyString r then r else processCwd env
  | None => processCwd env
  end.

(** The client [deploy] creates: none in a dry run, none without both
    halves of the credentials. *)
Definition makeFaasClient : option FaaSClient :=
  let credentials := getVolcengineCredentials env in
  if negb (dryRun options) && truthyString (accessKeyId credentials)
     && truthyString (secretAccessKey credentials)
  then Some (newFaaSClient credentials)
  else None.

(** The body of [deploy], inside its [try]. *)
Definition deployBody (projectConfig : Config.ProjectConfig) : M unit :=
  dockerAvailable <- checkDocker env ;;
  (if negb dockerAvailable
   then throw "Docker is not available. Please install and start Docker."
   else ret tt) ;;
  let projectRoot := resolveProjectRoot in
  let faasClient := makeFaasClient in
  deployServices projectConfig projectRoot faasClient
                 (servicesToDeploy options projectConfig) ;;
  setPhase phase_done ;;
  emit (addLog "🎉 Deployment completed successfully!").

Definition deploy (projectConfig : Config.ProjectConfig) : M unit :=
  tryCatch (deployBody projectConfig)
    (fun err =>
       setPhase phase_error ;;
       let message := errMessage err in
       emit [ SetError message ] ;;
       emit (addLog ("❌ Error: " ++ message))).

(** The second effect: it runs [deploy] once the configuration is loaded
    and the steps are planned. *)
Definition deployEffect (projectConfig : option Config.ProjectConfig)
    (steps : list Step) : M unit :=
  match projectConfig with
  | None => ret tt
  | Some config =>
      match steps with
      | [] => ret tt
      | _ => deploy config
      end
  end.

(** The component from mounting to the end of [deploy]: the events of the
    two effects and the state they lead to. *)
Definition appEvents (loaded : option Config.ProjectConfig) : list Event :=
  let planned := planEffect options loaded in
  let st := runEvents initialState planned in
  (planned ++ fst (fst (deployEffect (projectConfig st) (steps st) world0)))%list.

Definition runApp (loaded : option Config.ProjectConfig) : AppState :=
  runEvents initialState (appEvents loaded).

End DeployApp.

(* ===================================================================== *)
(** * Sample configurations and environments *)
(* ===================================================================== *)

Definition sampleService (image : string) (fn : option string) : Config.Service :=
  {| Config.functionId := fn; Config.dockerfile := "Dockerfile";
     Config.context := "."; Config.imageName := image; Config.platform := None |}.

(** Two services, [api] and [worker], both bound to a remote function. *)
Definition sampleConfig : Config.ProjectConfig :=
  {| Config.name := "demo";
     Config.registry := {| Config.url := "cr.example.com"; Config.namespace := "team" |};
     Config.services :=
       [ ("api", sampleService "demo-api" (Some "fn-api"));
         ("worker", sampleService "demo-worker" (Some "fn-worker")) ] |}.

(** [sampleConfig] with the [api] service not bound to a function. *)
Definition unboundConfig : Config.ProjectConfig :=
  {| Config.name := "demo";
     Config.registry := Config.registry sampleConfig;
     Config.services :=
       [ ("api", sampleService "demo-api" None);
         ("worker", sampleService "demo-worker" (Some "fn-worker")) ] |}.

(** Two services whose names make two step identifiers coincide: the
    wait-release step of [a] and the release step of [a-wait] are both
    [a-wait-release]. *)
Definition collidingConfig : Config.ProjectConfig :=
  {| Config.name := "demo";
     Config.registry := Config.registry sampleConfig;
     Config.services :=
       [ ("a", sampleService "demo-a" (Some "fn-a"));
         ("a-wait", sampleService "demo-a-wait" None) ] |}.

Definition sampleOptions : DeployOptions :=
  {| services := None;
     versions := [ ("api", "v1.0.1"); ("worker", "v0.3.0") ];
     skipBuild := false; skipPush := false; dryRun := false |}.

(** A selection that names the service [api] twice ([--services api,api]),
    for a build without push (the [build] command). *)
Definition repeatedOptions : DeployOptions :=
  {| services := Some [ "api"; "api" ];
     versions := versions sampleOptions;
     skipBuild := false; skipPush := true; dryRun := true |}.

Definition sampleCredentials : FaaSClientConfig :=
  {| accessKeyId := "AKID"; secretAccessKey := "SECRET"; region := "cn-beijing" |}.

Definition sampleClient : FaaSClient := newFaaSClient sampleCredentials.

(** A reply with status 200 whose [Result] carries the given [Status]. *)
Definition statusReply (st : string) : FetchOutcome :=
  FetchResponse
    {| httpStatus := 200;
       jsonBody :=
         BodyJson (JObj [ ("ResponseMetadata", JObj [ ("RequestId", JStr "r1") ]);
                          ("Result", JObj [ ("Status", JStr st) ]) ]) |}.

Definition exitedCleanly : ProcOutcome :=
  {| chunks := [ "step 1" ++ String (ascii_of_nat 10) "step 2" ]; failure := None |}.

(** The rejection of a [docker push] that exits with status 1. *)
Definition pushDenied : ExecaError :=
  {| execaMessage :=
       "Command failed with exit code 1: docker push cr.example.com/team/demo-api:v1.0.1";
     stderr := "denied: requested access to the resource is denied" |}.

(** An environment in which everything succeeds: each subprocess exits with
    status 0, each request is answered 200, the image sync is [Succeeded]
    and the release [done] at the first poll; the clock advances by one
    second per reading. *)
Definition happyEnv : Env :=
  {| dateNow := fun n => 1000 * Z.of_nat n;
     newDateISO := fun _ => "2024-06-06T12:34:56.789Z";
     fetchReply := fun n =>
       match Nat.modulo n 4 with
       | 1%nat => statusReply "Succeeded"
       | 3%nat => statusReply "done"
       | _ => statusReply "accepted"
       end;
     execaReply := fun _ => exitedCleanly;
     pathJoin := fun a b => a ++ "/" ++ b;
     getProjectRoot := Some "/work";
     processCwd := "/tmp";
     getVolcengineCredentials := sampleCredentials;
     crypto := Signer.plainCrypto |}.

(** [happyEnv] with the replies to the subprocesses and to the requests
    replaced. *)
Definition withReplies (procs : nat -> ProcOutcome) (replies : nat -> FetchOutcome)
    (clock : nat -> Z) : Env :=
  {| dateNow := clock;
     newDateISO := newDateISO happyEnv;
     fetchReply := replies;
     execaReply := procs;
     pathJoin := pathJoin happyEnv;
     getProjectRoot := getProjectRoot happyEnv;
     processCwd := processCwd happyEnv;
     getVolcengineCredentials := getVolcengineCredentials happyEnv;
     crypto := crypto happyEnv |}.

(** An environment for the polls: the k-th request is answered 200 with the
    k-th status of [statuses] ([last] once they are used up), the clock
    reads [clock]. *)
Definition pollEnv (statuses : list string) (last : string) (clock : nat -> Z) : Env :=
  withReplies (fun _ => exitedCleanly)
              (fun k => statusReply (nth k statuses last)) clock.

(** [happyEnv] in which the third subprocess, the push of the first
    service, exits non-zero after writing to its standard error. *)
Definition pushFailsEnv : Env :=
  withReplies
    (fun n => match n with
              | 2%nat => {| chunks := [ stderr pushDenied ]; failure := Some pushDenied |}
              | _ => exitedCleanly
              end)
    (fetchReply happyEnv) (dateNow happyEnv).

(* ===================================================================== *)
(** * Notions used to state the properties *)
(* ===================================================================== *)

(** ** Orders *)

(** The order of the default sort: [a] is not after [b]. *)
Definition stringLe (a b : string) : Prop := String.leb a b = true.

(** pending comes first, running second, and the three final statuses
    last. *)
Definition rank (st : StepStatus) : nat :=
  match st with
  | pending => 0
  | running => 1
  | success | error | skipped => 2
  end.

Definition statusEqb (a b : StepStatus) : bool :=
  match a, b with
  | pending, pending | running, running | success, success
  | error, error | skipped, skipped => true
  | _, _ => false
  end.

(** A step may keep its status or move to a status of higher rank: never
    from running back to pending, never away from success, error or
    skipped. *)
Definition forward (old new : StepStatus) : bool :=
  statusEqb old new || Nat.ltb (rank old) (rank new).

(** ** The plan *)

(** The six steps planned for one service, in their fixed order. *)
Definition serviceSteps (options : DeployOptions) (serviceName : string) : list Step :=
  [ mkStep (serviceName ++ "-build") ("Build " ++ serviceName)
           (if skipBuild options then skipped else pending);
    mkStep (serviceName ++ "-push") ("Push " ++ serviceName)
           (if skipPush options then skipped else pending);
    mkStep (serviceName ++ "-update") ("Update " ++ serviceName) pending;
    mkStep (serviceName ++ "-sync") ("Sync " ++ serviceName) pending;
    mkStep (serviceName ++ "-release") ("Release " ++ serviceName) pending;
    mkStep (serviceName ++ "-wait-release") ("Wait Release " ++ serviceName) pending ].

(** The identifiers of the four FaaS steps of a service. *)
Definition faasStepIds (serviceName : string) : list string :=
  [ serviceName ++ "-update"; serviceName ++ "-sync";
    serviceName ++ "-release"; serviceName ++ "-wait-release" ].

(** The state of the component once the first effect has planned the
    steps. *)
Definition plannedState (options : DeployOptions) (config : Config.ProjectConfig)
  : AppState :=
  runEvents initialState (planEffect options (Some config)).

(** The identifier and the status of every step. *)
Definition statuses (st : AppState) : list (string * StepStatus) :=
  map (fun s => (id s, status s)) (steps st).

(** ** Worlds and runs *)

(** The world after one more [Date.now()]. *)
Definition afterNow (w : World) : World :=
  {| nowReads := S (nowReads w); dateReads := dateReads w;
     fetches := fetches w; spawns := spawns w |}.

(** The world after one more request: the signer has read the date once and
    one HTTPS request has been made. *)
Definition afterRequest (w : World) : World :=
  {| nowReads := nowReads w; dateReads := S (dateReads w);
     fetches := S (fetches w); spawns := spawns w |}.

(** The worlds after one more subprocess. *)
Definition afterSpawn (w : World) : World :=
  {| nowReads := nowReads w; dateReads := dateReads w;
     fetches := fetches w; spawns := S (spawns w) |}.

(** The world after a phase that ran its subprocess to the end: two clock
    readings and one subprocess. *)
Definition afterPhase (w : World) : World :=
  afterNow (afterSpawn (afterNow w)).

(** The events of a computation put after earlier ones. *)
Definition after {A : Type} (evs : list Event) (x : list Event * World * Res A)
  : list Event * World * Res A :=
  match x with (evs2, w, r) => ((evs ++ evs2)%list, w, r) end.

(** ** The requests of the client *)

(** The HTTPS request that [request] makes for an action: a POST to the
    fixed host with the action and the API version in the query string, the
    parameters as the JSON body and the five headers of the signer. *)
Definition requestFetch (env : Env) (client : FaaSClient) (action : string)
    (params : Json) (w : World) : Event :=
  Fetch
    ("https://" ++ FAAS_HOST ++ "/?Action=" ++ encodeURIComponent action
     ++ "&Version=" ++ encodeURIComponent FAAS_VERSION)
    (Signer.sign (crypto env) (signer client) (newDateISO env (dateReads w))
       {| Signer.method := "POST"; Signer.host := FAAS_HOST; Signer.path := "/";
          Signer.query := Some [ ("Action", action); ("Version", FAAS_VERSION) ];
          Signer.headers := None; Signer.body := Some (stringify params) |})
    (stringify params).

(** The error [request] throws for a reply it takes as failed. *)
Definition apiError (action : string) (r : HttpResponse) (data : Json) : JsError :=
  {| errMessage := "FaaS API Error [" ++ action ++ "]: " ++ numberToString (httpStatus r)
                   ++ " - " ++ stringify data |}.

(** The environment answers a request with a 2xx response whose envelope
    carries the truthy [Result] [v]. *)
Definition repliesWith (out : FetchOutcome) (v : Json) : Prop :=
  exists r o,
    out = FetchResponse r /\ ok r = true /\ jsonBody r = BodyJson (JObj o)
    /\ getProp o "Result" = Some v /\ truthy v = true.

(** An image-sync status that is neither [Succeeded], [Failed] nor
    [Canceled]; a release status that is neither [done] nor [failed]. *)
Definition imageSyncPending (status : Json) : Prop :=
  isString (stringField status "Status") "Succeeded" = false
  /\ isString (stringField status "Status") "Failed" = false
  /\ isString (stringField status "Status") "Canceled" = false.

Definition releasePending (status : Json) : Prop :=
  isString (stringField status "Status") "done" = false
  /\ isString (stringField status "Status") "failed" = false.

(** The events of one call of the progress callback. *)
Definition progress (options : WaitOptions) (status : Json) : list Event :=
  match onProgress options with
  | Some f => f status
  | None => []
  end.

Definition imageSyncParams (functionId imageUri : string) : Json :=
  JObj [ ("FunctionId", JStr functionId); ("Source", JStr imageUri) ].

Definition releaseStatusParams (functionId : string) : Json :=
  JObj [ ("FunctionId", JStr functionId) ].

(** ** The events of the phases *)

(** The log lines [forwardOutput] passes to [addLog] for a subprocess. *)
Definition outputLogs (p : ProcOutcome) : list Event :=
  map AddLog (flat_map chunkLines (chunks p)).

(** The image tag the orchestrator uses for a service. *)
Definition imageTagOf (options : DeployOptions) (config : Config.ProjectConfig)
    (serviceName : string) (service : Config.Service) : string :=
  Config.getImageTag (Config.registry config) (Config.imageName service)
    (orElse (getProp (versions options) serviceName) "latest").

(** The [docker build] and [docker push] commands for a service. *)
Definition buildCommand (env : Env) (options : DeployOptions)
    (config : Config.ProjectConfig) (projectRoot serviceName : string)
    (service : Config.Service) : Event :=
  Spawn "docker"
    [ "build"; "--platform"; orElse (Config.platform service) "linux/amd64";
      "-f"; pathJoin env projectRoot (Config.dockerfile service);
      "-t"; imageTagOf options config serviceName service;
      pathJoin env projectRoot (Config.context service) ]
    (Some projectRoot).

Definition pushCommand (options : DeployOptions) (config : Config.ProjectConfig)
    (serviceName : string) (service : Config.Service) : Event :=
  Spawn "docker" [ "push"; imageTagOf options config serviceName service ] None.


(** The events of the build phase of a service up to the end of the
    subprocess, the update that ends the phase, and the same for the push
    phase.  [w] is the world in which the phase starts. *)
Definition buildStarted (env : Env) (options : DeployOptions)
    (config : Config.ProjectConfig) (projectRoot serviceName : string)
    (service : Config.Service) (w : World) : list Event :=
  ([ SetPhase phase_build;
     UpdateStep (serviceName ++ "-build") (statusOnly running);
     AddLog ("🔨 Building " ++ serviceName ++ ": "
             ++ imageTagOf options config serviceName service);
     buildCommand env options config projectRoot serviceName service ]
   ++ outputLogs (execaReply env (spawns w)))%list.

Definition buildSucceeded (env : Env) (options : DeployOptions)
    (config : Config.ProjectConfig) (serviceName : string)
    (service : Config.Service) (w : World) : Event :=
  UpdateStep (serviceName ++ "-build")
    {| u_status := Some success;
       u_message := Some (Some (imageTagOf options config serviceName service));
       u_duration := Some (dateNow env (S (nowReads w)) - dateNow env (nowReads w)) |}.

Definition pushStarted (env : Env) (options : DeployOptions)
    (config : Config.ProjectConfig) (serviceName : string)
    (service : Config.Service) (w : World) : list Event :=
  ([ SetPhase phase_push;
     UpdateStep (serviceName ++ "-push") (statusOnly running);
     AddLog ("📤 Pushing " ++ serviceName ++ ": "
             ++ imageTagOf options config serviceName service);
     pushCommand options config serviceName service ]
   ++ outputLogs (execaReply env (spawns w)))%list.

Definition pushSucceeded (env : Env) (serviceName : string) (w : World) : Event :=
  UpdateStep (serviceName ++ "-push")
    {| u_status := Some success; u_message := None;
       u_duration := Some (dateNow env (S (nowReads w)) - dateNow env (nowReads w)) |}.


(** The update that marks a FaaS step as skipped. *)
Definition skipUpdate (reason : string) : StepUpdate :=
  {| u_status := Some skipped; u_message := Some (Some reason); u_duration := None |}.

(** The reason given for skipping the FaaS steps. *)
Definition skipReason (faasClient : option FaaSClient) : string :=
  match faasClient with None => "No credentials" | Some _ => "No function ID" end.

(** The four updates of the [else] branch. *)
Definition skipEvents (faasClient : option FaaSClient) (serviceName : string)
  : list Event :=
  map (fun i => UpdateStep i (skipUpdate (skipReason faasClient)))
      (faasStepIds serviceName).


(** ** The steps under the events *)

(** What [updateSteps] does to one step. *)
Definition updateOne (stepId : string) (updates : StepUpdate) (s : Step) : Step :=
  if String.eqb (id s) stepId then applyUpdates s updates else s.

(** The effect of one event on the list of steps. *)
Definition applyToSteps (l : list Step) (e : Event) : list Step :=
  match e with
  | UpdateStep i u => updateSteps i u l
  | SetSteps l' => l'
  | _ => l
  end.

(** The list of steps after a sequence of events. *)
Definition stepsAfter (evs : list Event) (l : list Step) : list Step :=
  fold_left applyToSteps evs l.

(** What a sequence of events without [SetSteps] does to one step. *)
Fixpoint stepAfter (evs : list Event) (s : Step) : Step :=
  match evs with
  | [] => s
  | e :: rest =>
      stepAfter rest (match e with UpdateStep i u => updateOne i u s | _ => s end)
  end.

Definition isSetSteps (e : Event) : bool :=
  match e with SetSteps _ => true | _ => false end.

(** ** Status writes *)

(** The status writes among a sequence of events: the identifier and the
    new status of every [updateStep] that sets a status. *)
Definition writeOf (e : Event) : list (string * StepStatus) :=
  match e with
  | UpdateStep i u =>
      match u_status u with
      | Some x => [ (i, x) ]
      | None => []
      end
  | _ => []
  end.

Definition writes (evs : list Event) : list (string * StepStatus) :=
  flat_map writeOf evs.

(** The status of the step [i] after a sequence of status writes. *)
Fixpoint statusAfter (ws : list (string * StepStatus)) (i : string) (st : StepStatus)
  : StepStatus :=
  match ws with
  | [] => st
  | (j, x) :: rest => statusAfter rest i (if String.eqb i j then x else st)
  end.

(** Every write to the step [i], starting from the status [st], moves it
    forward. *)
Fixpoint chain (i : string) (st : StepStatus) (ws : list (string * StepStatus)) : Prop :=
  match ws with
  | [] => True
  | (j, x) :: rest =>
      if String.eqb i j then forward st x = true /\ chain i x rest
      else chain i st rest
  end.

(** The status writes of a phase that runs to its end, and those of the
    whole iteration for a service when nothing fails. *)
Definition phaseWrites (stepId : string) : list (string * StepStatus) :=
  [ (stepId, running); (stepId, success) ].

Definition serviceWrites (options : DeployOptions) (config : Config.ProjectConfig)
    (faasClient : option FaaSClient) (serviceName : string)
  : list (string * StepStatus) :=
  match getProp (Config.services config) serviceName with
  | None => []
  | Some service =>
      ((if skipBuild options then [] else phaseWrites (serviceName ++ "-build"))
       ++ (if skipPush options then [] else phaseWrites (serviceName ++ "-push"))
       ++ (match faasClient with
           | Some _ =>
               if truthyOpt (Config.functionId service)
               then flat_map phaseWrites (faasStepIds serviceName)
               else map (fun i => (i, skipped)) (faasStepIds serviceName)
           | None => map (fun i => (i, skipped)) (faasStepIds serviceName)
           end))%list
  end.

(** A computation of which every run makes the status writes of a prefix of
    [full], the whole of [full] when it returns, and never replaces the list
    of steps. *)
Definition emits {A : Type} (c : M A) (full : list (string * StepStatus)) : Prop :=
  forall w,
    existsb isSetSteps (fst (fst (c w))) = false
    /\ exists rest,
         full = (writes (fst (fst (c w))) ++ rest)%list
         /\ (forall a, snd (c w) = Returned a -> rest = []).

(** A progress callback that sets no status. *)
Definition quietCallback (cb : option (Json -> list Event)) : Prop :=
  forall f status, cb = Some f ->
    writes (f status) = [] /\ existsb isSetSteps (f status) = false.

(* ===================================================================== *)
(** * Version numbers (utils/version.ts) *)
(* ===================================================================== *)

(** The regular expressions of the version utilities are written out as
    matchers.  A digit is never a dot, a hyphen or the end of the text, so a
    greedy [\d+] that is followed by one of these has one way to match and
    the matchers need no backtracking. *)

(** The longest run of decimal digits a text starts with, and what follows
    it. *)
Fixpoint spanDigits (s : string) : string * string :=
  match s with
  | EmptyString => (EmptyString, EmptyString)
  | String c rest =>
      if isDigit c then
        let (d, r) := spanDigits rest in (String c d, r)
      else (EmptyString, s)
  end.

(** An optional leading [v]: the pattern [v?]. *)
Definition dropV (v : string) : string :=
  match v with
  | String c rest => if Ascii.eqb c "v" then rest else v
  | EmptyString => v
  end.

(** [v.match(/^v?(\d+)\.(\d+)\.(\d+)/)]: the three captures and the text after
    the match. *)
Definition matchVersion (v : string) : option (string * string * string * string) :=
  match spanDigits (dropV v) with
  | (EmptyString, _) => None
  | (majorStr, String c1 r1) =>
      if Ascii.eqb c1 "." then
        match spanDigits r1 with
        | (EmptyString, _) => None
        | (minorStr, String c2 r2) =>
            if Ascii.eqb c2 "." then
              match spanDigits r2 with
              | (EmptyString, _) => None
              | (patchStr, rest) => Some (majorStr, minorStr, patchStr, rest)
              end
            else None
        | (_, EmptyString) => None
        end
      else None
  | (_, EmptyString) => None
  end.

(** [\w] and the class [[\w.]]. *)
Definition isWordChar (c : ascii) : bool :=
  let n := nat_of_ascii c in
  ((Nat.leb 65 n && Nat.leb n 90) || (Nat.leb 97 n && Nat.leb n 122)
   || (Nat.leb 48 n && Nat.leb n 57) || Nat.eqb n 95)%bool.

Fixpoint allChars (p : ascii -> bool) (s : string) : bool :=
  match s with
  | EmptyString => true
  | String c rest => p c && allChars p rest
  end.

(** The tail [(-[\w.]+)?$] of the pattern of [isValidVersion]. *)
Definition isVersionSuffix (rest : string) : bool :=
  match rest with
  | EmptyString => true
  | String c w =>
      Ascii.eqb c "-" && truthyString w
      && allChars (fun x => isWordChar x || Ascii.eqb x ".") w
  end.

Definition isValidVersion (version : string) : bool :=
  match matchVersion version with
  | Some (_, _, _, rest) => isVersionSuffix rest
  | None => false
  end.

(** [Number(s)] and [parseInt(s)] for a run of decimal digits [s].  The value
    is the one JavaScript computes as long as it is at most 2^53, the range
    in which a number holds every integer exactly; see [safeVersion]. *)
Definition Number (s : string) : Z :=
  match NilZero.uint_of_string s with
  | Some d => Z.of_uint d
  | None => 0
  end.

Inductive BumpType : Type := bump_major | bump_minor | bump_patch.

Definition incrementVersion (version : string) (type : BumpType) : Res string :=
  match matchVersion version with
  | None => Thrown {| errMessage := "Invalid version format: " ++ version |}
  | Some (majorStr, minorStr, patchStr, _) =>
      let major := Number majorStr in
      let minor := Number minorStr in
      let patch := Number patchStr in
      let '(major, minor, patch) :=
        match type with
        | bump_major => (major + 1, 0, 0)
        | bump_minor => (major, minor + 1, 0)
        | bump_patch => (major, minor, patch + 1)
        end in
      Returned ("v" ++ numberToString major ++ "." ++ numberToString minor
                ++ "." ++ numberToString patch)
  end.

(** The local [parseVersion] of [compareVersions]. *)
Definition parseVersion (v : string) : Z * Z * Z :=
  match matchVersion v with
  | None => (0, 0, 0)
  | Some (majorStr, minorStr, patchStr, _) =>
      (Number majorStr, Number minorStr, Number patchStr)
  end.

Definition compareVersions (a b : string) : Z :=
  let '(aMajor, aMinor, aPatch) := parseVersion a in
  let '(bMajor, bMinor, bPatch) := parseVersion b in
  if negb (aMajor =? bMajor) then aMajor - bMajor
  else if negb (aMinor =? bMinor) then aMinor - bMinor
  else aPatch - bPatch.

(** Any character but a colon: the class [[^:]]. *)
Definition notColon (c : ascii) : bool := negb (Ascii.eqb c ":").

(** [imageUri.match(/:([^:]+)$/)]: the text after the last colon, when there
    is a colon and that text is not empty. *)
Fixpoint afterLastColon (s : string) : option string :=
  match s with
  | EmptyString => None
  | String c rest =>
      match afterLastColon rest with
      | Some tag => Some tag
      | None =>
          if Ascii.eqb c ":" && truthyString rest
             && allChars notColon rest
          then Some rest else None
      end
  end.

Definition parseVersionFromImageUri (imageUri : string) : option string :=
  match afterLastColon imageUri with
  | None => None
  | Some tag => if isValidVersion tag then Some tag else None
  end.

(** [version.startsWith('v')]. *)
Definition startsWithV (version : string) : bool :=
  match version with
  | String c _ => Ascii.eqb c "v"
  | EmptyString => false
  end.

Definition normalizeVersion (version : string) : string :=
  if startsWithV version then version else "v" ++ version.

(** [currentVersion] is [string | null]. *)
Definition getNextVersion (currentVersion : option string) (type : BumpType)
  : Res string :=
  match currentVersion with
  | None => Returned "v0.0.1"
  | Some v =>
      if negb (truthyString v) || negb (isValidVersion v) then Returned "v0.0.1"
      else incrementVersion v type
  end.

(** The largest integer below which every integer is a number of its own:
    [Number.MAX_SAFE_INTEGER]. *)
Definition MAX_SAFE_INTEGER : Z := 9007199254740991.

(** The three components of a version are safe integers. *)
Definition safeVersion (v : string) : Prop :=
  let '(major, minor, patch) := parseVersion v in
  major <= MAX_SAFE_INTEGER /\ minor <= MAX_SAFE_INTEGER /\ patch <= MAX_SAFE_INTEGER.


(** ** The newest tag of a registry (docker.ts) *)

(** [Array.prototype.sort(compare)]: [compare x y <= 0] leaves [x] before
    [y].  The sort is stable, so its result is the one of an insertion sort
    that keeps equal elements in their original order. *)
Fixpoint insertBy (compare : string -> string -> Z) (x : string) (l : list string)
  : list string :=
  match l with
  | [] => [x]
  | y :: rest => if compare x y <=? 0 then x :: l else y :: insertBy compare x rest
  end.

Definition sortBy (compare : string -> string -> Z) (l : list string) : list string :=
  fold_right (insertBy compare) [] l.

(** [versionRegex.test(tag)] for [/^v?(\d+)\.(\d+)\.(\d+)$/]. *)
Definition isReleaseTag (tag : string) : bool :=
  match matchVersion tag with
  | Some (_, _, _, EmptyString) => true
  | _ => false
  end.

(** The comparison function [findLatestVersion] sorts with.  It is only
    called on tags that passed the filter, whose match is never [null]. *)
Definition newestFirst (a b : string) : Z :=
  match matchVersion a, matchVersion b with
  | Some (a1, a2, a3, _), Some (b1, b2, b3, _) =>
      let '(aMajor, aMinor, aPatch) := (Number a1, Number a2, Number a3) in
      let '(bMajor, bMinor, bPatch) := (Number b1, Number b2, Number b3) in
      if negb (aMajor =? bMajor) then bMajor - aMajor
      else if negb (aMinor =? bMinor) then bMinor - aMinor
      else bPatch - aPatch
  | _, _ => 0
  end.

Definition findLatestVersion (tags : list string) : option string :=
  let versionTags := sortBy newestFirst (filter isReleaseTag tags) in
  match versionTags with
  | tag :: _ => if truthyString tag then Some tag else None
  | [] => None
  end.

(** ** Notions used to state the properties of the version utilities *)

(** A non-empty run of decimal digits: what [\d+] matches. *)
Definition digitRun (d : string) : Prop :=
  allChars isDigit d = true /\ d <> EmptyString.

(** A text that does not go on with a digit. *)
Definition noDigitAhead (rest : string) : Prop :=
  match rest with String c _ => isDigit c = false | EmptyString => True end.

(** ** Rounds of a poll *)

(** The world after one round of a poll that goes on: the clock has been
    read and one request made. *)
Definition afterPoll (w : World) : World := afterRequest (afterNow w).

Fixpoint afterPolls (n : nat) (w : World) : World :=
  match n with
  | O => w
  | S k => afterPolls k (afterPoll w)
  end.

(** The events of the rounds of a poll that see the given statuses and go
    on: in each round the request, the progress callback and the sleep. *)
Fixpoint pollRounds (env : Env) (client : FaaSClient) (action : string) (params : Json)
    (options : WaitOptions) (pause : Z) (w : World) (statuses : list Json)
  : list Event :=
  match statuses with
  | [] => []
  | s :: rest =>
      (requestFetch env client action params (afterNow w)
       :: progress options s
       ++ Sleep pause
       :: pollRounds env client action params options pause (afterPoll w) rest)%list
  end.

(** The statuses a poll sees, one per request, counted from the requests
    already made: each is the truthy [Result] of a 2xx reply and satisfies
    [pending]. *)
Definition seesPending (env : Env) (pending : Json -> Prop) (w : World)
    (statuses : list Json) : Prop :=
  forall k s, nth_error statuses k = Some s ->
    repliesWith (fetchReply env (k + fetches w)) s /\ pending s.

(** The timeout has not run out at the clock readings that open the first
    [n] rounds after the one that took [start]. *)
Definition withinTimeout (env : Env) (start limit : Z) (w : World) (n : nat) : Prop :=
  forall k, (k < n)%nat -> dateNow env (k + nowReads w) - start < limit.


(* ===================================================================== *)
(** * Probes and the tags of a remote repository (docker.ts) *)
(* ===================================================================== *)

(** [imageRef.match(/^([^/]+)\/([^/]+)\/([^:]+)$/)].  A run of characters
    other than [/] that has to be followed by a [/] has one way to match. *)
Fixpoint spanNotSlash (s : string) : string * string :=
  match s with
  | EmptyString => (EmptyString, EmptyString)
  | String c rest =>
      if Ascii.eqb c "/" then (EmptyString, s)
      else let (p, r) := spanNotSlash rest in (String c p, r)
  end.

Definition matchImageRef (imageRef : string) : option (string * string * string) :=
  match spanNotSlash imageRef with
  | (EmptyString, _) => None
  | (_, EmptyString) => None
  | (registry, String _ r1) =>
      match spanNotSlash r1 with
      | (EmptyString, _) => None
      | (_, EmptyString) => None
      | (namespace, String _ imageName) =>
          if truthyString imageName && allChars notColon imageName
          then Some (registry, namespace, imageName)
          else None
      end
  end.

Module Tags.

(** What [getRemoteTags] resolves to.  [tags] is [result.Tags || []], a
    value of the parsed output of skopeo. *)
Record Result : Type := {
  tags : Json;
  error : option string
}.

End Tags.

Section RemoteTags.

Variable env : Env.

(** [JSON.parse(stdout)] for the standard output a subprocess left. *)
Variable parseStdout : ProcOutcome -> JsonBody.

Definition imageExists (imageTag : string) : M bool :=
  tryCatch
    (subprocess <- execa env "docker" [ "inspect"; imageTag ] None ;;
     awaitExit subprocess ;;
     ret true)
    (fun _ => ret false).

Definition checkSkopeo : M bool :=
  tryCatch
    (subprocess <- execa env "skopeo" [ "--version" ] None ;;
     awaitExit subprocess ;;
     ret true)
    (fun _ => ret false).

(** The [catch] block of [getRemoteTags]: the standard error of a rejected
    [execa], or else the message of the error. *)
Definition skopeoFailed (errorOutput cmd : string) : Tags.Result :=
  {| Tags.tags := JArr [];
     Tags.error := Some ("skopeo 失败: " ++ errorOutput
                         ++ String (ascii_of_nat 10) "命令: " ++ cmd) |}.

Definition getRemoteTags (imageRef : string) : M Tags.Result :=
  match matchImageRef imageRef with
  | None =>
      ret {| Tags.tags := JArr [];
             Tags.error := Some ("无效的镜像地址: " ++ imageRef) |}
  | Some (registry, namespace, imageName) =>
      hasSkopeo <- checkSkopeo ;;
      if negb hasSkopeo then
        ret {| Tags.tags := JArr [];
               Tags.error :=
                 Some ("需要安装 skopeo 才能查询远端 tags"
                       ++ String (ascii_of_nat 10)
                            "   安装方式: brew install skopeo (macOS) 或 apt install skopeo (Linux)") |}
      else
        let skopeoArgs :=
          [ "list-tags"; "docker://" ++ registry ++ "/" ++ namespace ++ "/" ++ imageName ] in
        let cmd := "skopeo " ++ join " " skopeoArgs in
        subprocess <- execa env "skopeo" skopeoArgs None ;;
        match failure subprocess with
        | Some err =>
            ret (skopeoFailed (if truthyString (stderr err) then stderr err
                               else execaMessage err) cmd)
        | None =>
            match parseStdout subprocess with
            | BodyInvalid err => ret (skopeoFailed (errMessage err) cmd)
            | BodyJson result =>
                match readProp result "Tags" with
                | ReadTypeError =>
                    ret (skopeoFailed "Cannot read properties of null (reading 'Tags')" cmd)
                | ReadValue (Some t) =>
                    ret {| Tags.tags := if truthy t then t else JArr [];
                           Tags.error := None |}
                | ReadValue None => ret {| Tags.tags := JArr []; Tags.error := None |}
                end
            end
        end
  end.

End RemoteTags.

(** ** Notions used to state the properties of the probes *)

(** Any character but a slash: the class [[^/]]. *)
Definition notSlash (c : ascii) : bool := negb (Ascii.eqb c "/").

(** A non-empty text of characters that all satisfy [p]: what [[...]+]
    matches. *)
Definition runOf (p : ascii -> bool) (s : string) : Prop :=
  s <> EmptyString /\ allChars p s = true.

(** ** Runs of the orchestrator *)

(** The message [deploy] throws when the docker probe fails. *)
Definition dockerUnavailable : string :=
  "Docker is not available. Please install and start Docker.".

(** The events of the [catch] block of [deploy] for an error message. *)
Definition caught (message : string) : list Event :=
  [ SetPhase phase_error; SetError message; AddLog ("❌ Error: " ++ message) ].


(** An outside call: a subprocess, a request or a sleep. *)
Definition isOutsideCall (e : Event) : bool :=
  match e with
  | Spawn _ _ _ | Fetch _ _ _ | Sleep _ => true
  | _ => false
  end.

(** The events [deploy] emits inside its [try]: outside calls, log lines,
    changes of phase and of current service, and step updates that set no
    status or one of [running], [success], [skipped]. *)
Definition bodyEvent (e : Event) : bool :=
  match e with
  | SetError _ | SetSteps _ | SetProjectConfig _ => false
  | UpdateStep _ u =>
      match u_status u with
      | Some pending | Some error => false
      | _ => true
      end
  | _ => true
  end.

(** A computation all of whose events, in every run, are of this kind. *)
Definition inBody {A : Type} (c : M A) : Prop :=
  forall w, forallb bodyEvent (fst (fst (c w))) = true.

(** A step that is neither waiting nor under way. *)
Definition settled (st : StepStatus) : bool :=
  match st with
  | success | skipped => true
  | _ => false
  end.

(** A status update that sets no status or one of [running], [success],
    [skipped]; any other event. *)
Definition setsNoError (e : Event) : Prop :=
  match e with
  | UpdateStep _ u =>
      u_status u = None \/ u_status u = Some running
      \/ u_status u = Some success \/ u_status u = Some skipped
  | _ => True
  end.

(** Status writes after which a step that was written to, or whose status
    satisfied [good] before, has a status that satisfies [good]. *)
Definition leadsTo (good : StepStatus -> bool) (ws : list (string * StepStatus)) : Prop :=
  forall i st, good st = true \/ In i (map fst ws) -> good (statusAfter ws i st) = true.

Definition succeeded (st : StepStatus) : bool :=
  match st with
  | success => true
  | _ => false
  end.

(** ** Favourable environments *)



(* ===================================================================== *)
(** * The version options of the command line (index.tsx) *)
(* ===================================================================== *)

(** The [versions] object of the commands is an ordinary object, created by
    [{}]: reading a property it does not have itself finds the property of
    [Object.prototype] of that name, if there is one, and assigning a string
    to [__proto__] changes nothing. *)
Definition objectPrototypeKeys : list string :=
  [ "constructor"; "__defineGetter__"; "__defineSetter__"; "hasOwnProperty";
    "__lookupGetter__"; "__lookupSetter__"; "isPrototypeOf"; "propertyIsEnumerable";
    "toString"; "valueOf"; "__proto__"; "toLocaleString" ].

Definition inherited (k : string) : bool := existsb (String.eqb k) objectPrototypeKeys.

(** [!!o[k]] for an object of strings created by [{}]: what is inherited is
    a function or an object, and so truthy. *)
Definition truthyAt (o : list (string * string)) (k : string) : bool :=
  match getProp o k with
  | Some v => truthyString v
  | None => inherited k
  end.

(** An array index: the decimal writing, without a leading zero, of an
    integer from 0 to 2^32 - 2. *)
Definition isArrayIndex (k : string) : bool :=
  match k with
  | EmptyString => false
  | String c rest =>
      allChars isDigit k
      && (negb (Ascii.eqb c "0") || negb (truthyString rest))
      && (Number k <=? 4294967294)
  end.

(** Defining an own property.  The keys of an object are its array indices
    in ascending order, then its other keys in the order of their creation:
    a property that is there is replaced where it stands, a new array index
    goes to its place among the indices, any other new key comes last. *)
Fixpoint setProp {A : Type} (o : list (string * A)) (k : string) (v : A)
  : list (string * A) :=
  match o with
  | [] => [ (k, v) ]
  | (k', v') :: rest =>
      if String.eqb k' k then (k, v) :: rest
      else if isArrayIndex k && (negb (isArrayIndex k') || (Number k <? Number k'))
      then (k, v) :: (k', v') :: rest
      else (k', v') :: setProp rest k v
  end.

(** [o[k] = v] for an object created by [{}].  Assigning to [__proto__]
    defines no property: a string is ignored, an object becomes the
    prototype. *)
Definition assign {A : Type} (o : list (string * A)) (k : string) (v : A)
  : list (string * A) :=
  if String.eqb k "__proto__" then o else setProp o k v.

Module Cli.

(** The options of the [deploy], [build] and [push] commands that concern
    versions and services, as commander passes them. *)
Record Options : Type := {
  services : option string;
  version : option string;
  versions : option string
}.

End Cli.

(** The body of the [forEach] over [opts.versions.split(',')]:
    [const [service, version] = pair.split(':')]. *)
Definition addPair (versions : list (string * string)) (pair : string)
  : list (string * string) :=
  match splitOn ":" pair with
  | service :: version :: _ =>
      if truthyString service && truthyString version
      then assign versions (trim service) (trim version)
      else versions
  | _ => versions
  end.

(** [if (opts.versions) { ... }]. *)
Definition addPairs (opts : Cli.Options) (versions : list (string * string))
  : list (string * string) :=
  if truthyOpt (Cli.versions opts)
  then fold_left addPair (splitOn "," (showOpt (Cli.versions opts))) versions
  else versions.

(** [if (opts.version) { if (config) { ... } }]: the version of [--version]
    goes to the services of the configuration that have none yet. *)
Definition addDefault (opts : Cli.Options) (config : option Config.ProjectConfig)
    (versions : list (string * string)) : list (string * string) :=
  if truthyOpt (Cli.version opts) then
    match config with
    | Some c =>
        fold_left
          (fun vs service =>
             if negb (truthyAt vs service) then assign vs service (showOpt (Cli.version opts))
             else vs)
          (objectKeys (Config.services c)) versions
    | None => versions
    end
  else versions.

(** The versions the three commands end up with; [auto] holds what
    [--auto] put into the object first (nothing for [build] and [push]). *)
Definition collectVersions (opts : Cli.Options) (config : option Config.ProjectConfig)
    (auto : list (string * string)) : list (string * string) :=
  addDefault opts config (addPairs opts auto).

(** [opts.services ? opts.services.split(',').map(s => s.trim()) : undefined]. *)
Definition selectedServices (opts : Cli.Options) : option (list string) :=
  if truthyOpt (Cli.services opts)
  then Some (map trim (splitOn "," (showOpt (Cli.services opts))))
  else None.

(** The options the [deploy] command renders [DeployApp] with; [None] when
    it prints that a version is required and exits. *)
Definition deployCommandOptions (opts : Cli.Options) (config : option Config.ProjectConfig)
    (auto : list (string * string)) (skipBuild skipPush dryRun : bool)
  : option DeployOptions :=
  let versions := collectVersions opts config auto in
  if (Nat.eqb (length (objectKeys versions)) 0 && negb skipBuild)%bool then None
  else Some {| services := selectedServices opts; versions := versions;
               skipBuild := skipBuild; skipPush := skipPush; dryRun := dryRun |}.

(** The options the [build] command renders [DeployApp] with ([skipBuild]
    is not set); [None] when it prints that a version is required and
    exits. *)
Definition buildCommandOptions (opts : Cli.Options) (config : option Config.ProjectConfig)
  : option DeployOptions :=
  let versions := collectVersions opts config [] in
  if Nat.eqb (length (objectKeys versions)) 0 then None
  else Some {| services := selectedServices opts; versions := versions;
               skipBuild := false; skipPush := true; dryRun := true |}.

(** The options the [push] command renders [DeployApp] with ([skipPush] is
    not set). *)
Definition pushCommandOptions (opts : Cli.Options) (config : option Config.ProjectConfig)
  : DeployOptions :=
  {| services := selectedServices opts; versions := collectVersions opts config [];
     skipBuild := true; skipPush := false; dryRun := true |}.

(** An event that is no request and no sleep, and if a subprocess, then
    [docker] with one of the given subcommands. *)
Definition localOnly (subcommands : list string) (e : Event) : bool :=
  match e with
  | Fetch _ _ _ | Sleep _ => false
  | Spawn file args _ =>
      String.eqb file "docker"
      && match args with
         | subcommand :: _ => existsb (String.eqb subcommand) subcommands
         | [] => false
         end
  | _ => true
  end.

(** A computation all of whose events, in every run, satisfy [p]. *)
Definition always (p : Event -> bool) {A : Type} (c : M A) : Prop :=
  forall w, forallb p (fst (fst (c w))) = true.




(* ===================================================================== *)
(** * The interactive menu (MainMenu.tsx) *)
(* ===================================================================== *)

Module Menu.

Inductive MenuScreen : Type :=
| scr_main | scr_deploy_version | scr_deploy_service | scr_deploying
| scr_building | scr_config | scr_init | scr_guide.

(** The state of [MainMenu] that decides what is deployed.  The message,
    the spinner of the guide and [versionInfo] are display only and are
    left out; what [versionInfo] leads to is the event [Suggested]. *)
Record State : Type := {
  screen : MenuScreen;
  selectedServices : list string;
  version : string;
  deployOptions : option DeployOptions
}.

Definition initial : State :=
  {| screen := scr_main; selectedServices := []; version := "";
     deployOptions := None |}.

(** What can happen to the menu: a choice in the main list, a choice in the
    list of services, typing in and submitting the version field, the escape
    key, the completion of a wizard, and the callback of the tag query,
    which carries the suggested version. *)
Inductive Input : Type :=
| MainSelect (value : string)
| ServiceSelect (value : string)
| VersionChange (text : string)
| VersionSubmit
| Escape
| Completed
| Suggested (suggested : string).

Section Menu.

(** [findProjectConfigPath()] and [loadProjectConfig()], read at every
    render; here the files do not change while the menu is open. *)
Variable configPath : option string.
Variable config : option Config.ProjectConfig.

(** [config ? Object.keys(config.services) : []]. *)
Definition services : list string :=
  match config with
  | Some c => objectKeys (Config.services c)
  | None => []
  end.

Definition setScreen (s : MenuScreen) (st : State) : State :=
  {| screen := s; selectedServices := selectedServices st; version := version st;
     deployOptions := deployOptions st |}.

(** The choice [gen_guide] writes the guide file and the choice [exit]
    leaves the application, as the escape key does on the main screen: none
    of them changes this state, and inputs that could no longer come after
    leaving are not excluded. *)
Definition handleMainMenuSelect (value : string) (st : State) : State :=
  if String.eqb value "deploy" then
    if negb (truthyOpt configPath) then setScreen scr_init st
    else if Nat.leb (length services) 1 then
      {| screen := scr_deploy_version; selectedServices := services;
         version := version st; deployOptions := deployOptions st |}
    else setScreen scr_deploy_service st
  else if String.eqb value "build" then setScreen scr_deploy_version st
  else if String.eqb value "init" then setScreen scr_init st
  else if String.eqb value "config" then setScreen scr_config st
  else if String.eqb value "guide" then setScreen scr_guide st
  else st.

(** [selectedServices.length > 0 ? selectedServices : services]. *)
Definition targetServices (st : State) : list string :=
  match selectedServices st with
  | [] => services
  | _ :: _ => selectedServices st
  end.

Definition handleVersionSubmit (st : State) : State :=
  if negb (truthyString (trim (version st))) then st
  else
    let targetServices := targetServices st in
    let versions := fold_left (fun vs s => assign vs s (version st)) targetServices [] in
    {| screen := scr_deploying;
       selectedServices := selectedServices st;
       version := version st;
       deployOptions :=
         Some (Build_DeployOptions
                 (if Nat.eqb (length targetServices) (length services) then None
                  else Some targetServices)
                 versions false false false) |}.

Definition handleServiceSelect (value : string) (st : State) : State :=
  {| screen := scr_deploy_version;
     selectedServices := if String.eqb value "all" then services else [ value ];
     version := version st;
     deployOptions := deployOptions st |}.

(** The [useInput] handler, for the escape key. *)
Definition handleEscape (st : State) : State :=
  match screen st with
  | scr_main => st
  | _ => {| screen := scr_main; selectedServices := []; version := "";
            deployOptions := deployOptions st |}
  end.

(** [setVersion(prev => prev || suggested)]. *)
Definition fillSuggested (suggested : string) (st : State) : State :=
  {| screen := screen st; selectedServices := selectedServices st;
     version := if truthyString (version st) then version st else suggested;
     deployOptions := deployOptions st |}.

Definition isScreen (a b : MenuScreen) : bool :=
  match a, b with
  | scr_main, scr_main | scr_deploy_version, scr_deploy_version
  | scr_deploy_service, scr_deploy_service | scr_deploying, scr_deploying
  | scr_building, scr_building | scr_config, scr_config | scr_init, scr_init
  | scr_guide, scr_guide => true
  | _, _ => false
  end.

(** One input.  A list or a field takes input only on the screen that
    renders it, and the list of services offers [all] and the services; the
    escape key and the callback of the tag query come at any time. *)
Definition step (st : State) (i : Input) : State :=
  match i with
  | MainSelect value =>
      if isScreen (screen st) scr_main then handleMainMenuSelect value st else st
  | ServiceSelect value =>
      if isScreen (screen st) scr_deploy_service
         && existsb (String.eqb value) ("all" :: services)
      then handleServiceSelect value st else st
  | VersionChange text =>
      if isScreen (screen st) scr_deploy_version
      then {| screen := screen st; selectedServices := selectedServices st;
              version := text; deployOptions := deployOptions st |}
      else st
  | VersionSubmit =>
      if isScreen (screen st) scr_deploy_version then handleVersionSubmit st else st
  | Escape => handleEscape st
  | Completed =>
      if isScreen (screen st) scr_config || isScreen (screen st) scr_init
      then setScreen scr_main st else st
  | Suggested suggested => fillSuggested suggested st
  end.

Definition run (inputs : list Input) : State := fold_left step inputs initial.

End Menu.

(** What the menu has selected is nothing, every service, or one service. *)
Definition selectionOk (keys : list string) (st : State) : Prop :=
  selectedServices st = []
  \/ selectedServices st = keys
  \/ exists s, In s keys /\ selectedServices st = [ s ].

End Menu.

(* ===================================================================== *)
(** * The log panel (LogOutput.tsx) *)
(* ===================================================================== *)



(* ===================================================================== *)
(** * Finding the project configuration (config.ts) *)
(* ===================================================================== *)

Definition PROJECT_CONFIG_FILE : string := "deploy.config.json".

Section ProjectConfigPath.

(** [path.dirname], [path.join] of two segments and [fs.existsSync]; the
    files do not change during a search. *)
Variable dirname : string -> string.
Variable pathJoin : string -> string -> string.
Variable existsSync : string -> bool.

(** The [while] loop of [findProjectConfigPath] from the directory
    [currentDir]; [fuel] bounds the number of iterations the model follows,
    and the result is [None] when that is not enough. *)
Fixpoint findProjectConfigPath (fuel : nat) (currentDir : string) : option (option string) :=
  match fuel with
  | O => None
  | S fuel' =>
      if negb (String.eqb currentDir (dirname currentDir)) then
        let configPath := pathJoin currentDir PROJECT_CONFIG_FILE in
        if existsSync configPath then Some (Some configPath)
        else findProjectConfigPath fuel' (dirname currentDir)
      else Some None
  end.

(** The [n]-th ancestor of a directory. *)
Definition ancestor (n : nat) (dir : string) : string := Nat.iter n dirname dir.

End ProjectConfigPath.

(* ===================================================================== *)
(** * The images the functions run (index.tsx) *)
(* ===================================================================== *)

Module Images.

(** An entry of what [fetchFunctionImages] returns. *)
Record Info : Type := {
  functionId : string;
  imageUri : option string;
  version : option string
}.

End Images.

Section FunctionImages.

Variable env : Env.

(** The body of the [try] for a service with a function id.  A [Source]
    that is truthy and not a string has no [match] method, so
    [parseVersionFromImageUri] raises a [TypeError] on it. *)
Definition readFunctionImage (faasClient : FaaSClient) (functionId : string)
  : M Images.Info :=
  functionInfo <- getFunction env faasClient functionId ;;
  match readProp functionInfo "Source" with
  | ReadTypeError => throw "Cannot read properties of null (reading 'Source')"
  | ReadValue None =>
      ret {| Images.functionId := functionId; Images.imageUri := None;
             Images.version := None |}
  | ReadValue (Some source) =>
      if truthy source then
        match source with
        | JStr imageUri =>
            ret {| Images.functionId := functionId; Images.imageUri := Some imageUri;
                   Images.version := parseVersionFromImageUri imageUri |}
        | _ => throw "uri.match is not a function"
        end
      else
        ret {| Images.functionId := functionId; Images.imageUri := None;
               Images.version := None |}
  end.

(** One iteration of the loop over [Object.entries(config.services)]; what
    is written to the console is left out. *)
Definition fetchFunctionImage (faasClient : FaaSClient)
    (results : list (string * Images.Info)) (entry : string * Config.Service)
  : M (list (string * Images.Info)) :=
  let serviceName := fst entry in
  let service := snd entry in
  if negb (truthyOpt (Config.functionId service)) then
    ret (assign results serviceName
           {| Images.functionId := "(未配置)"; Images.imageUri := None;
              Images.version := None |})
  else
    tryCatch
      (info <- readFunctionImage faasClient (showOpt (Config.functionId service)) ;;
       ret (assign results serviceName info))
      (fun _ =>
         ret (assign results serviceName
                {| Images.functionId := showOpt (Config.functionId service);
                   Images.imageUri := None; Images.version := None |})).

Fixpoint fetchFunctionImagesLoop (faasClient : FaaSClient)
    (entries : list (string * Config.Service)) (results : list (string * Images.Info))
  : M (list (string * Images.Info)) :=
  match entries with
  | [] => ret results
  | entry :: rest =>
      results' <- fetchFunctionImage faasClient results entry ;;
      fetchFunctionImagesLoop faasClient rest results'
  end.

Definition fetchFunctionImages (config : option Config.ProjectConfig)
  : M (list (string * Images.Info)) :=
  match config with
  | None => throw "找不到配置文件"
  | Some c =>
      let credentials := getVolcengineCredentials env in
      if negb (truthyString (accessKeyId credentials))
         || negb (truthyString (secretAccessKey credentials))
      then throw "未配置火山引擎凭证，请先运行 `vefaas-deploy config`"
      else
        let faasClient := newFaaSClient credentials in
        fetchFunctionImagesLoop faasClient (Config.services c) []
  end.

End FunctionImages.

(** The services of a configuration that are bound to a function. *)
Definition bound (entry : string * Config.Service) : bool :=
  truthyOpt (Config.functionId (snd entry)).

(** What is reported for a service: its function id, or the marker of an
    unbound service with no image and no version. *)
Definition reported (results : list (string * Images.Info))
    (entry : string * Config.Service) : Prop :=
  exists info,
    getProp results (fst entry) = Some info
    /\ (if bound entry
        then Images.functionId info = showOpt (Config.functionId (snd entry))
        else info = {| Images.functionId := "(未配置)"; Images.imageUri := None;
                       Images.version := None |})
    /\ (Images.imageUri info = None -> Images.version info = None).

(* ===================================================================== *)
(** * The project wizard (ProjectConfigWizard.tsx) *)
(* ===================================================================== *)

Module Wizard.

Inductive WizardStep : Type :=
| check_creds | project_name | registry_url | registry_namespace | service_menu
| service_name | service_dockerfile | service_context | service_image_name
| loading_functions | select_function | manual_function_id | confirm | done.

(** The service being edited ([currentService]): all five properties are
    strings. *)
Record Draft : Type := {
  functionId : string;
  dockerfile : string;
  context : string;
  imageName : string;
  platform : string
}.

(** The value [currentService] starts with and is reset to. *)
Definition emptyDraft : Draft :=
  {| functionId := ""; dockerfile := ""; context := "."; imageName := "";
     platform := "linux/amd64" |}.

(** The state of the wizard.  The message shown is display only and is left
    out; of the functions listed only the ids are kept, which are the values
    of the selection list; [saved] holds the configurations written by
    [saveProjectConfig], in order, and [closed] is set by [exit()]. *)
Record State : Type := {
  step : WizardStep;
  inputValue : string;
  config : Config.ProjectConfig;
  currentServiceName : string;
  currentService : Draft;
  functions : list string;
  loadingError : option string;
  saved : list Config.ProjectConfig;
  closed : bool
}.

(** What can happen to the wizard: typing in and submitting the text field,
    a choice in the list of services or in the list of functions, the escape
    key, and the end of the request for the list of functions, with the ids
    listed or with the message of the error. *)
Inductive Input : Type :=
| Change (text : string)
| Submit
| MenuSelect (value : string)
| FunctionSelect (value : string)
| Escape
| FunctionsLoaded (result : list string + string).

(** The configuration the wizard starts from when there is no file. *)
Definition blankConfig : Config.ProjectConfig :=
  {| Config.name := "";
     Config.registry := {| Config.url := ""; Config.namespace := "" |};
     Config.services := [] |}.

(** The state once the first effect has run: it leaves the step
    [check_creds] at once. *)
Definition initial (existing : option Config.ProjectConfig) : State :=
  let config := match existing with Some c => c | None => blankConfig end in
  {| step := project_name;
     inputValue := orElse (Some (Config.name config)) "my-project";
     config := config;
     currentServiceName := "";
     currentService := emptyDraft;
     functions := [];
     loadingError := None;
     saved := [];
     closed := false |}.

Definition setStep (s : WizardStep) (st : State) : State :=
  {| step := s; inputValue := inputValue st; config := config st;
     currentServiceName := currentServiceName st; currentService := currentService st;
     functions := functions st; loadingError := loadingError st; saved := saved st;
     closed := closed st |}.

Definition setInputValue (text : string) (st : State) : State :=
  {| step := step st; inputValue := text; config := config st;
     currentServiceName := currentServiceName st; currentService := currentService st;
     functions := functions st; loadingError := loadingError st; saved := saved st;
     closed := closed st |}.

Definition setConfig (c : Config.ProjectConfig) (st : State) : State :=
  {| step := step st; inputValue := inputValue st; config := c;
     currentServiceName := currentServiceName st; currentService := currentService st;
     functions := functions st; loadingError := loadingError st; saved := saved st;
     closed := closed st |}.

Definition setCurrentServiceName (n : string) (st : State) : State :=
  {| step := step st; inputValue := inputValue st; config := config st;
     currentServiceName := n; currentService := currentService st;
     functions := functions st; loadingError := loadingError st; saved := saved st;
     closed := closed st |}.

Definition setCurrentService (d : Draft) (st : State) : State :=
  {| step := step st; inputValue := inputValue st; config := config st;
     currentServiceName := currentServiceName st; currentService := d;
     functions := functions st; loadingError := loadingError st; saved := saved st;
     closed := closed st |}.

Definition exit (st : State) : State :=
  {| step := step st; inputValue := inputValue st; config := config st;
     currentServiceName := currentServiceName st; currentService := currentService st;
     functions := functions st; loadingError := loadingError st; saved := saved st;
     closed := true |}.

(** [{ ...currentService, functionId }] as an entry of [services]. *)
Definition newService (d : Draft) (functionId : string) : Config.Service :=
  {| Config.functionId := Some functionId;
     Config.dockerfile := dockerfile d;
     Config.context := context d;
     Config.imageName := imageName d;
     Config.platform := Some (platform d) |}.

(** [saveService]: the service is put into the configuration under
    [currentServiceName] (a computed key of an object literal always defines
    an own property), and the draft is reset. *)
Definition saveService (functionId : string) (st : State) : State :=
  let c := config st in
  setStep service_menu
    (setCurrentService emptyDraft
       (setCurrentServiceName ""
          (setConfig
             {| Config.name := Config.name c;
                Config.registry := Config.registry c;
                Config.services :=
                  setProp (Config.services c) (currentServiceName st)
                          (newService (currentService st) functionId) |}
             st))).

(** [config.services[k]?.p] for the string properties, [undefined] when
    the service is not there. *)
Definition serviceField (st : State) (k : string) (p : Config.Service -> option string)
  : option string :=
  match getProp (Config.services (config st)) k with
  | Some service => p service
  | None => None
  end.

Section Wizard.

(** [hasValidGlobalConfig()]; the credentials do not change while the
    wizard is open. *)
Variable hasValidGlobalConfig : bool.

Definition handleInputSubmit (st : State) : State :=
  let c := config st in
  match step st with
  | project_name =>
      setInputValue (orElse (Some (Config.url (Config.registry c))) "xxx.cr.volces.com")
        (setStep registry_url
           (setConfig {| Config.name := inputValue st;
                         Config.registry := Config.registry c;
                         Config.services := Config.services c |} st))
  | registry_url =>
      setInputValue (orElse (Some (Config.namespace (Config.registry c))) "my-namespace")
        (setStep registry_namespace
           (setConfig {| Config.name := Config.name c;
                         Config.registry :=
                           {| Config.url := inputValue st;
                              Config.namespace := Config.namespace (Config.registry c) |};
                         Config.services := Config.services c |} st))
  | registry_namespace =>
      setStep service_menu
        (setConfig {| Config.name := Config.name c;
                      Config.registry :=
                        {| Config.url := Config.url (Config.registry c);
                           Config.namespace := inputValue st |};
                      Config.services := Config.services c |} st)
  | service_name =>
      setInputValue
        (orElse (serviceField st (inputValue st) (fun s => Some (Config.dockerfile s)))
                "Dockerfile")
        (setStep service_dockerfile (setCurrentServiceName (inputValue st) st))
  | service_dockerfile =>
      let d := currentService st in
      setInputValue
        (orElse (serviceField st (currentServiceName st)
                   (fun s => Some (Config.context s))) ".")
        (setStep service_context
           (setCurrentService
              {| functionId := functionId d; dockerfile := inputValue st;
                 context := context d; imageName := imageName d;
                 platform := platform d |} st))
  | service_context =>
      let d := currentService st in
      let defaultImageName :=
        if String.eqb (currentServiceName st) "api" then Config.name c
        else Config.name c ++ "-" ++ currentServiceName st in
      setInputValue
        (orElse (serviceField st (currentServiceName st)
                   (fun s => Some (Config.imageName s)))
                (orElse (Some defaultImageName) (currentServiceName st)))
        (setStep service_image_name
           (setCurrentService
              {| functionId := functionId d; dockerfile := dockerfile d;
                 context := inputValue st; imageName := imageName d;
                 platform := platform d |} st))
  | service_image_name =>
      let d := currentService st in
      let st' :=
        setCurrentService
          {| functionId := functionId d; dockerfile := dockerfile d;
             context := context d; imageName := inputValue st;
             platform := platform d |} st in
      if hasValidGlobalConfig then setStep loading_functions st'
      else
        setInputValue
          (orElse (serviceField st (currentServiceName st) Config.functionId) "")
          (setStep manual_function_id st')
  | manual_function_id => saveService (inputValue st) st
  | _ => st
  end.

Definition handleFunctionSelect (value : string) (st : State) : State :=
  if String.eqb value "skip" then saveService "" st
  else if String.eqb value "manual"
  then setInputValue "" (setStep manual_function_id st)
  else saveService value st.

Definition handleServiceMenuSelect (value : string) (st : State) : State :=
  if String.eqb value "add" then setInputValue "" (setStep service_name st)
  else if String.eqb value "save" then
    {| step := done; inputValue := inputValue st; config := config st;
       currentServiceName := currentServiceName st; currentService := currentService st;
       functions := functions st; loadingError := loadingError st;
       saved := (saved st ++ [ config st ])%list; closed := closed st |}
  else if String.eqb value "cancel" then exit st
  else
    let serviceName := value in
    setInputValue
      (orElse (serviceField st serviceName (fun s => Some (Config.dockerfile s)))
              "Dockerfile")
      (setStep service_dockerfile
         (setCurrentService
            {| functionId := orElse (serviceField st serviceName Config.functionId) "";
               dockerfile :=
                 orElse (serviceField st serviceName (fun s => Some (Config.dockerfile s)))
                        "Dockerfile";
               context :=
                 orElse (serviceField st serviceName (fun s => Some (Config.context s)))
                        ".";
               imageName :=
                 orElse (serviceField st serviceName (fun s => Some (Config.imageName s)))
                        serviceName;
               platform :=
                 orElse (serviceField st serviceName Config.platform) "linux/amd64" |}
            (setCurrentServiceName serviceName st))).

(** The [useInput] handler, for the escape key. *)
Definition handleEscape (st : State) : State :=
  match step st with
  | service_menu | done => exit st
  | check_creds | loading_functions => st
  | _ => setStep service_menu st
  end.

(** The end of [loadFunctions]. *)
Definition functionsLoaded (result : list string + string) (st : State) : State :=
  match result with
  | inl items =>
      {| step := select_function; inputValue := inputValue st; config := config st;
         currentServiceName := currentServiceName st;
         currentService := currentService st;
         functions := items; loadingError := loadingError st; saved := saved st;
         closed := closed st |}
  | inr message =>
      {| step := select_function; inputValue := inputValue st; config := config st;
         currentServiceName := currentServiceName st;
         currentService := currentService st;
         functions := functions st; loadingError := Some message; saved := saved st;
         closed := closed st |}
  end.

(** The steps that render the text field. *)
Definition takesText (s : WizardStep) : bool :=
  match s with
  | project_name | registry_url | registry_namespace | service_name
  | service_dockerfile | service_context | service_image_name
  | manual_function_id => true
  | _ => false
  end.

(** The values of [serviceMenuItems]. *)
Definition serviceMenuValues (st : State) : list string :=
  ("add" :: objectKeys (Config.services (config st)) ++ [ "save"; "cancel" ])%list.

(** The values of the list rendered at the step [select_function]. *)
Definition functionValues (st : State) : list string :=
  if truthyOpt (loadingError st) then [ "manual"; "skip" ]
  else match functions st with
       | [] => [ "manual"; "skip" ]
       | _ => "skip" :: "manual" :: functions st
       end.

(** One input.  A list or the text field takes input only at a step that
    renders it, a list gives one of its values, and nothing happens once
    the wizard is closed. *)
Definition react (st : State) (i : Input) : State :=
  if closed st then st
  else
    match i with
    | Change text => if takesText (step st) then setInputValue text st else st
    | Submit => if takesText (step st) then handleInputSubmit st else st
    | MenuSelect value =>
        match step st with
        | service_menu =>
            if existsb (String.eqb value) (serviceMenuValues st)
            then handleServiceMenuSelect value st else st
        | _ => st
        end
    | FunctionSelect value =>
        match step st with
        | select_function =>
            if existsb (String.eqb value) (functionValues st)
            then handleFunctionSelect value st else st
        | _ => st
        end
    | Escape => handleEscape st
    | FunctionsLoaded result =>
        match step st with
        | loading_functions => functionsLoaded result st
        | _ => st
        end
    end.

Definition run (st : State) (inputs : list Input) : State := fold_left react inputs st.

(** The inputs that add a service: the choice [add], the four answers, each
    typed and submitted, and the function id typed by hand, after the choice
    [manual] when the list of functions was requested. *)
Definition addService (loaded : list string + string)
    (serviceName dockerfile context imageName functionId : string) : list Input :=
  ([ MenuSelect "add";
     Change serviceName; Submit;
     Change dockerfile; Submit;
     Change context; Submit;
     Change imageName; Submit ]
   ++ (if hasValidGlobalConfig
       then [ FunctionsLoaded loaded; FunctionSelect "manual" ] else [])
   ++ [ Change functionId; Submit ])%list.

End Wizard.

End Wizard.

(* ===================================================================== *)
(** * Properties of the signer *)
(* ===================================================================== *)

Lemma append_assoc (a b c : string) : ((a ++ b) ++ c = a ++ (b ++ c))%string.
Proof. induction a as [| x a IH]; simpl; [ reflexivity | now rewrite IH ]. Qed.

Lemma append_nil_r (a : string) : (a ++ "" = a)%string.
Proof. induction a as [| x a IH]; simpl; [ reflexivity | now rewrite IH ]. Qed.

Lemma insertSorted_perm (x : string) (l : list string) :
  Permutation (x :: l) (insertSorted x l).
Proof.
  induction l as [| y l IH]; simpl.
  - apply Permutation_refl.
  - destruct (String.leb x y).
    + apply Permutation_refl.
    + eapply perm_trans; [ apply perm_swap | apply perm_skip, IH ].
Qed.

Lemma sortStrings_perm (l : list string) : Permutation l (sortStrings l).
Proof.
  induction l as [| x l IH]; simpl.
  - constructor.
  - eapply perm_trans; [ apply perm_skip, IH | apply insertSorted_perm ].
Qed.

Lemma insertSorted_hd (x a : string) (l : list string) :
  stringLe a x -> HdRel stringLe a l -> HdRel stringLe a (insertSorted x l).
Proof.
  intros Hax Hl. destruct l as [| y l]; simpl.
  - constructor. exact Hax.
  - destruct (String.leb x y); constructor.
    + exact Hax.
    + inversion Hl; assumption.
Qed.

Lemma insertSorted_sorted (x : string) (l : list string) :
  Sorted stringLe l -> Sorted stringLe (insertSorted x l).
Proof.
  induction l as [| y l IH]; intros Hs; simpl.
  - repeat constructor.
  - destruct (String.leb x y) eqn:Hxy.
    + constructor; [ exact Hs | constructor; exact Hxy ].
    + inversion Hs as [| ? ? Hs' Hhd]; subst.
      constructor; [ apply IH; exact Hs' | ].
      apply insertSorted_hd; [ | exact Hhd ].
      destruct (String.leb_total x y) as [H | H]; [ congruence | exact H ].
Qed.

Lemma sortStrings_sorted (l : list string) : Sorted stringLe (sortStrings l).
Proof.
  induction l as [| x l IH]; simpl.
  - constructor.
  - apply insertSorted_sorted, IH.
Qed.


(** The query [{ b: 2, a: 1 }] is canonicalized as [a=1&b=2]; the time
    2024-06-06T12:34:56.789Z is signed as 20240606T123456Z, in the scope of
    the date 20240606. *)
Example canonical_query_is_sorted :
  Signer.getCanonicalQueryString (Some [ ("b", "2"); ("a", "1") ])
  = "a=1&b=2".
Proof. reflexivity. Qed.

Example signing_time_format :
  Signer.xDateOf "2024-06-06T12:34:56.789Z" = "20240606T123456Z"
  /\ Signer.dateStampOf "2024-06-06T12:34:56.789Z" = "20240606".
Proof. split; reflexivity. Qed.


(* ===================================================================== *)
(** * Properties of the planning of a run *)
(* ===================================================================== *)

Lemma initialSteps_blocks (options : DeployOptions) (config : Config.ProjectConfig) :
  initialSteps options config
  = flat_map (serviceSteps options) (servicesToDeploy options config).
Proof.
  unfold initialSteps.
  generalize (servicesToDeploy options config) as names.
  assert (H : forall names acc,
             fold_left
               (fun acc serviceName =>
                  let prefix := serviceName in
                  (acc ++
                   [ mkStep (prefix ++ "-build") ("Build " ++ serviceName)
                            (if skipBuild options then skipped else pending);
                     mkStep (prefix ++ "-push") ("Push " ++ serviceName)
                            (if skipPush options then skipped else pending);
                     mkStep (prefix ++ "-update") ("Update " ++ serviceName) pending;
                     mkStep (prefix ++ "-sync") ("Sync " ++ serviceName) pending;
                     mkStep (prefix ++ "-release") ("Release " ++ serviceName) pending;
                     mkStep (prefix ++ "-wait-release") ("Wait Release " ++ serviceName)
                            pending ])%list)
               names acc
             = (acc ++ flat_map (serviceSteps options) names)%list).
  { induction names as [| n names IH]; intro acc; simpl.
    - now rewrite app_nil_r.
    - rewrite IH. rewrite <- app_assoc. reflexivity. }
  intro names. apply (H names []).
Qed.



(* ===================================================================== *)
(** * Properties of the control-plane client *)
(* ===================================================================== *)

(** What [request] does, reply by reply. *)
Lemma request_run (env : Env) (client : FaaSClient) (action : string)
    (params : Json) (w : World) :
  request env client action params w
  = ([ requestFetch env client action params w ], afterRequest w,
     match fetchReply env (fetches w) with
     | FetchRejected e => Thrown e
     | FetchResponse r =>
         match jsonBody r with
         | BodyInvalid e => Thrown e
         | BodyJson data =>
             if ok r then
               match readProp data "Result" with
               | ReadTypeError =>
                   Thrown {| errMessage :=
                               "Cannot read properties of null (reading 'Result')" |}
               | ReadValue None => Thrown (apiError action r data)
               | ReadValue (Some v) =>
                   if truthy v then Returned v else Thrown (apiError action r data)
               end
             else Thrown (apiError action r data)
         end
     end).
Proof.
  unfold request, bind, newDate, fetch, responseJson, ret, throw, requestFetch,
    afterRequest, apiError.
  cbn [fst snd dateReads fetches nowReads spawns].
  destruct (fetchReply env (fetches w)) as [e | r]; [ reflexivity | ].
  cbn [fst snd dateReads fetches nowReads spawns].
  destruct (jsonBody r) as [e | data]; [ reflexivity | ].
  cbn [fst snd dateReads fetches nowReads spawns].
  destruct (ok r); cbn [negb]; [ | reflexivity ].
  destruct (readProp data "Result") as [| [v |]]; try reflexivity.
  destruct (truthy v); reflexivity.
Qed.





(** One iteration of the image-sync loop, case by case. *)
Lemma imageSyncLoop_step (env : Env) (fuel : nat) (client : FaaSClient)
    (functionId imageUri : string) (timeout interval : Z)
    (cb : option (Json -> list Event)) (start : Z) (w : World) :
  imageSyncLoop env (S fuel) client functionId imageUri timeout interval cb start w
  = if dateNow env (nowReads w) - start <? timeout then
      match getImageSyncStatus env client functionId imageUri (afterNow w) with
      | (evs, w1, Returned status) =>
          let seen := (evs ++ match cb with Some f => f status | None => [] end)%list in
          if isString (stringField status "Status") "Succeeded" then
            (seen, w1, Returned tt)
          else if isString (stringField status "Status") "Failed"
                  || isString (stringField status "Status") "Canceled" then
            (seen, w1,
             Thrown {| errMessage :=
                         "Image sync failed: "
                         ++ orElse (stringField status "Description")
                                   (showOpt (stringField status "Status")) |})
          else
            match imageSyncLoop env fuel client functionId imageUri timeout interval
                                cb start w1 with
            | (evs2, w2, r) => ((seen ++ Sleep interval :: evs2)%list, w2, r)
            end
      | (evs, w1, Thrown e) => (evs, w1, Thrown e)
      | (evs, w1, Unsettled) => (evs, w1, Unsettled)
      end
    else ([], afterNow w, Thrown {| errMessage := "Image sync timeout" |}).
Proof.
  cbn [imageSyncLoop]. unfold bind at 1. unfold now at 1. fold (afterNow w).
  destruct (dateNow env (nowReads w) - start <? timeout); [ | reflexivity ].
  unfold bind at 1.
  destruct (getImageSyncStatus env client functionId imageUri (afterNow w))
    as [[evs w1] [status | e |]]; try reflexivity.
  unfold bind at 1.
  assert (Hcb : callProgress cb status w1
                = (match cb with Some f => f status | None => [] end, w1, Returned tt)).
  { destruct cb; reflexivity. }
  rewrite Hcb.
  destruct (isString (stringField status "Status") "Succeeded").
  { unfold ret. now rewrite app_nil_r. }
  destruct (isString (stringField status "Status") "Failed"
            || isString (stringField status "Status") "Canceled").
  { unfold throw. now rewrite app_nil_r. }
  unfold bind, sleep, emit.
  destruct (imageSyncLoop env fuel client functionId imageUri timeout interval cb start w1)
    as [[evs2 w2] r].
  rewrite <- app_assoc. reflexivity.
Qed.

(** One iteration of the release loop, case by case. *)
Lemma releaseLoop_step (env : Env) (fuel : nat) (client : FaaSClient)
    (functionId : string) (timeout interval : Z)
    (cb : option (Json -> list Event)) (start : Z) (w : World) :
  releaseLoop env (S fuel) client functionId timeout interval cb start w
  = if dateNow env (nowReads w) - start <? timeout then
      match getReleaseStatus env client functionId (afterNow w) with
      | (evs, w1, Returned status) =>
          let seen := (evs ++ match cb with Some f => f status | None => [] end)%list in
          if isString (stringField status "Status") "done" then
            (seen, w1, Returned tt)
          else if isString (stringField status "Status") "failed" then
            (seen, w1,
             Thrown {| errMessage :=
                         "Release failed: "
                         ++ orElse (stringField status "StatusMessage")
                                   (orElse (stringField status "ErrorCode")
                                           "Unknown error") |})
          else
            match releaseLoop env fuel client functionId timeout interval cb start w1 with
            | (evs2, w2, r) => ((seen ++ Sleep interval :: evs2)%list, w2, r)
            end
      | (evs, w1, Thrown e) => (evs, w1, Thrown e)
      | (evs, w1, Unsettled) => (evs, w1, Unsettled)
      end
    else ([], afterNow w, Thrown {| errMessage := "Release timeout" |}).
Proof.
  cbn [releaseLoop]. unfold bind at 1. unfold now at 1. fold (afterNow w).
  destruct (dateNow env (nowReads w) - start <? timeout); [ | reflexivity ].
  unfold bind at 1.
  destruct (getReleaseStatus env client functionId (afterNow w))
    as [[evs w1] [status | e |]]; try reflexivity.
  unfold bind at 1.
  assert (Hcb : callProgress cb status w1
                = (match cb with Some f => f status | None => [] end, w1, Returned tt)).
  { destruct cb; reflexivity. }
  rewrite Hcb.
  destruct (isString (stringField status "Status") "done").
  { unfold ret. now rewrite app_nil_r. }
  destruct (isString (stringField status "Status") "failed").
  { unfold throw. now rewrite app_nil_r. }
  unfold bind, sleep, emit.
  destruct (releaseLoop env fuel client functionId timeout interval cb start w1)
    as [[evs2 w2] r].
  rewrite <- app_assoc. reflexivity.
Qed.

Lemma getImageSyncStatus_returns (env : Env) (client : FaaSClient)
    (functionId imageUri : string) (w : World) (status : Json) :
  repliesWith (fetchReply env (fetches w)) status ->
  getImageSyncStatus env client functionId imageUri w
  = ([ requestFetch env client "GetImageSyncStatus"
         (imageSyncParams functionId imageUri) w ],
     afterRequest w, Returned status).
Proof.
  intros (r & o & Hr & Hok & Hbody & Hres & Htruthy).
  unfold getImageSyncStatus. rewrite request_run, Hr, Hbody, Hok. simpl.
  rewrite Hres, Htruthy. reflexivity.
Qed.

Lemma getReleaseStatus_returns (env : Env) (client : FaaSClient)
    (functionId : string) (w : World) (status : Json) :
  repliesWith (fetchReply env (fetches w)) status ->
  getReleaseStatus env client functionId w
  = ([ requestFetch env client "GetReleaseStatus" (releaseStatusParams functionId) w ],
     afterRequest w, Returned status).
Proof.
  intros (r & o & Hr & Hok & Hbody & Hres & Htruthy).
  unfold getReleaseStatus. rewrite request_run, Hr, Hbody, Hok. simpl.
  rewrite Hres, Htruthy. reflexivity.
Qed.



(** C8.  If the first two requests of the image-sync poll are answered
    with statuses that are not terminal and the third with [Succeeded], the
    timeout not having run out when each of these three iterations starts,
    then the poll returns after exactly three requests, whatever the interval
    (0 included); the progress callback is called once for each of the three
    statuses, the last included, and not again. *)
Theorem imageSync_returns_at_third_status
    (env : Env) (fuel : nat) (client : FaaSClient) (functionId imageUri : string)
    (options : WaitOptions) (w : World) (s1 s2 s3 : Json) :
  let limit := withDefault (timeout options) 300000 in
  let pause := withDefault (interval options) 5000 in
  let start := dateNow env (nowReads w) in
  (3 <= fuel)%nat ->
  dateNow env (1 + nowReads w) - start < limit ->
  dateNow env (2 + nowReads w) - start < limit ->
  dateNow env (3 + nowReads w) - start < limit ->
  repliesWith (fetchReply env (fetches w)) s1 ->
  repliesWith (fetchReply env (1 + fetches w)) s2 ->
  repliesWith (fetchReply env (2 + fetches w)) s3 ->
  imageSyncPending s1 ->
  imageSyncPending s2 ->
  stringField s3 "Status" = Some "Succeeded" ->
  let params := imageSyncParams functionId imageUri in
  let w1 := afterNow (afterNow w) in
  let w2 := afterNow (afterRequest w1) in
  let w3 := afterNow (afterRequest w2) in
  waitForImageSync env fuel client functionId imageUri options w
  = (([ requestFetch env client "GetImageSyncStatus" params w1 ]
      ++ progress options s1
      ++ [ Sleep pause; requestFetch env client "GetImageSyncStatus" params w2 ]
      ++ progress options s2
      ++ [ Sleep pause; requestFetch env client "GetImageSyncStatus" params w3 ]
      ++ progress options s3)%list,
     afterRequest w3, Returned tt)
  /\ fetches (afterRequest w3) = (3 + fetches w)%nat.
Proof.
  intros limit pause start Hfuel Hg1 Hg2 Hg3 Hr1 Hr2 Hr3 (P1 & P2 & P3) (Q1 & Q2 & Q3) Hs3
         params w1 w2 w3.
  split; [ | reflexivity ].
  destruct fuel as [| [| [| fuel]]]; try lia.
  apply Z.ltb_lt in Hg1, Hg2, Hg3.
  unfold waitForImageSync. unfold bind at 1. unfold now at 1. fold (afterNow w).
  fold limit. fold pause. fold start.
  rewrite imageSyncLoop_step.
  cbn [nowReads afterNow]. change (S (nowReads w)) with (1 + nowReads w)%nat.
  rewrite Hg1.
  rewrite (@getImageSyncStatus_returns env client functionId imageUri
             (afterNow (afterNow w)) s1 Hr1).
  cbv zeta. rewrite P1, P2, P3. cbn [orb].
  rewrite imageSyncLoop_step.
  change (nowReads (afterRequest (afterNow (afterNow w)))) with (2 + nowReads w)%nat.
  rewrite Hg2.
  rewrite (@getImageSyncStatus_returns env client functionId imageUri
             (afterNow (afterRequest (afterNow (afterNow w)))) s2 Hr2).
  cbv zeta. rewrite Q1, Q2, Q3. cbn [orb].
  rewrite imageSyncLoop_step.
  change (nowReads (afterRequest (afterNow (afterRequest (afterNow (afterNow w))))))
    with (3 + nowReads w)%nat.
  rewrite Hg3.
  rewrite (@getImageSyncStatus_returns env client functionId imageUri
             (afterNow (afterRequest (afterNow (afterRequest (afterNow (afterNow w))))))
             s3 Hr3).
  cbv zeta. rewrite Hs3. cbn [isString String.eqb Ascii.eqb Bool.eqb andb].
  unfold progress, w3, w2, w1, params.
  cbn [app]. reflexivity.
Qed.

Lemma statusReply_repliesWith (st : string) :
  repliesWith (statusReply st) (JObj [ ("Status", JStr st) ]).
Proof.
  unfold repliesWith, statusReply. do 2 eexists. repeat split.
Qed.

(** The theorem for the statuses [Running], [Running], [Succeeded], polled
    with an interval of 0 and the default timeout, on a clock that advances
    by one second at each reading. *)
Lemma imageSync_returns_at_third_status_witness :
  let env := pollEnv [ "Running"; "Running"; "Succeeded" ] "Succeeded"
                     (fun n => 1000 * Z.of_nat n) in
  let options := {| timeout := None; interval := Some 0;
                    onProgress := Some (fun status =>
                      [ AddLog (showOpt (stringField status "Status")) ]) |} in
  exists f1 f2 f3,
    waitForImageSync env 3 sampleClient "fn-api" "img:v1" options world0
    = ([ f1; AddLog "Running"; Sleep 0; f2; AddLog "Running"; Sleep 0; f3;
         AddLog "Succeeded" ],
       {| nowReads := 4; dateReads := 3; fetches := 3; spawns := 0 |},
       Returned tt).
Proof.
  intros env options.
  do 3 eexists.
  refine (proj1 (@imageSync_returns_at_third_status env 3 sampleClient "fn-api" "img:v1"
                   options world0
                   (JObj [ ("Status", JStr "Running") ])
                   (JObj [ ("Status", JStr "Running") ])
                   (JObj [ ("Status", JStr "Succeeded") ])
                   (le_n 3) eq_refl eq_refl eq_refl
                   (statusReply_repliesWith "Running")
                   (statusReply_repliesWith "Running")
                   (statusReply_repliesWith "Succeeded")
                   (conj eq_refl (conj eq_refl eq_refl))
                   (conj eq_refl (conj eq_refl eq_refl))
                   eq_refl)).
Defined.


Section PollTimeout.

Variable env : Env.
Variable client : FaaSClient.
Variable w : World.

(** The clock does not run backwards between the reading of the start time
    and the first test of the loop. *)
Hypothesis clock_monotone : dateNow env (nowReads w) <= dateNow env (1 + nowReads w).



End PollTimeout.



(* ===================================================================== *)
(** * Properties of the orchestrator *)
(* ===================================================================== *)

(** ** Running the monad *)

Lemma bind_run {A B : Type} (c : M A) (k : A -> M B) (w : World) :
  bind c k w
  = match c w with
    | (evs, w1, Returned a) => after evs (k a w1)
    | (evs, w1, Thrown e) => (evs, w1, Thrown e)
    | (evs, w1, Unsettled) => (evs, w1, Unsettled)
    end.
Proof.
  unfold bind, after. destruct (c w) as [[evs w1] [a | e |]]; try reflexivity.
Qed.


Lemma bind_thrown {A B : Type} (c : M A) (k : A -> M B) (w w1 : World)
    (evs : list Event) (e : JsError) :
  c w = (evs, w1, Thrown e) -> bind c k w = (evs, w1, Thrown e).
Proof. intro H. now rewrite bind_run, H. Qed.


Lemma after_nil {A : Type} (x : list Event * World * Res A) : after [] x = x.
Proof. now destruct x as [[evs w] r]. Qed.

(** ** The list of steps under the events *)

Lemma updateSteps_map (i : string) (u : StepUpdate) (l : list Step) :
  updateSteps i u l = map (updateOne i u) l.
Proof. reflexivity. Qed.

Lemma id_updateOne (i : string) (u : StepUpdate) (s : Step) :
  id (updateOne i u s) = id s.
Proof. unfold updateOne. now destruct (String.eqb (id s) i). Qed.

Lemma status_updateOne (i : string) (u : StepUpdate) (s : Step) :
  status (updateOne i u s)
  = if String.eqb (id s) i
    then match u_status u with Some x => x | None => status s end
    else status s.
Proof. unfold updateOne. now destruct (String.eqb (id s) i). Qed.


Lemma steps_reduce (st : AppState) (e : Event) :
  steps (reduce st e) = applyToSteps (steps st) e.
Proof. destruct e; reflexivity. Qed.

Lemma steps_runEvents (evs : list Event) (st : AppState) :
  steps (runEvents st evs) = stepsAfter evs (steps st).
Proof.
  unfold runEvents, stepsAfter. revert st.
  induction evs as [| e evs IH]; intro st; simpl; [ reflexivity | ].
  now rewrite IH, steps_reduce.
Qed.

Lemma stepsAfter_app (e1 e2 : list Event) (l : list Step) :
  stepsAfter (e1 ++ e2) l = stepsAfter e2 (stepsAfter e1 l).
Proof. apply fold_left_app. Qed.

Lemma stepsAfter_logs (ls : list string) (l : list Step) :
  stepsAfter (map AddLog ls) l = l.
Proof. induction ls as [| x ls IH]; simpl; [ reflexivity | exact IH ]. Qed.

Lemma stepsAfter_cons (e : Event) (evs : list Event) (l : list Step) :
  stepsAfter (e :: evs) l = stepsAfter evs (applyToSteps l e).
Proof. reflexivity. Qed.

Lemma eqb_append_prefix (p a b : string) :
  String.eqb (p ++ a) (p ++ b) = String.eqb a b.
Proof.
  induction p as [| c p IH]; simpl; [ reflexivity | ].
  now rewrite Ascii.eqb_refl.
Qed.

(** ** The subprocesses *)

Lemma forwardOutput_run (p : ProcOutcome) (w : World) :
  forwardOutput (Some addLog) p w = (outputLogs p, w, Returned tt).
Proof.
  unfold forwardOutput, emit, outputLogs. f_equal. f_equal.
  induction (chunks p) as [| c cs IH]; simpl; [ reflexivity | ].
  rewrite IH, map_app. f_equal.
Qed.

Lemma buildPhase_run (env : Env) (options : DeployOptions)
    (config : Config.ProjectConfig) (projectRoot serviceName : string)
    (service : Config.Service) (w : World) :
  getProp (Config.services config) serviceName = Some service ->
  buildPhase env options config projectRoot serviceName
    (orElse (getProp (versions options) serviceName) "latest")
    (imageTagOf options config serviceName service) serviceName w
  = if skipBuild options then ([], w, Returned tt)
    else
      match failure (execaReply env (spawns w)) with
      | Some e =>
          (buildStarted env options config projectRoot serviceName service w,
           afterSpawn (afterNow w), Thrown {| errMessage := execaMessage e |})
      | None =>
          ((buildStarted env options config projectRoot serviceName service w
            ++ [ buildSucceeded env options config serviceName service w ])%list,
           afterPhase w, Returned tt)
      end.
Proof.
  intro Hfound. unfold buildPhase.
  destruct (skipBuild options); cbn [negb]; [ reflexivity | ].
  unfold buildServiceImage. rewrite Hfound.
  unfold buildDockerImage, setPhase, updateStep, emit, now, execa, awaitExit, bind, ret,
    throw, addLog.
  cbn [fst snd nowReads dateReads fetches spawns].
  rewrite forwardOutput_run.
  unfold buildStarted, buildSucceeded, pushStarted, pushSucceeded, buildCommand,
    pushCommand.
  destruct (failure (execaReply env (spawns w))) as [e |];
    cbn [app fst snd nowReads dateReads fetches spawns];
    rewrite ?app_nil_r, <- ?app_assoc; reflexivity.
Qed.

Lemma pushPhase_run (env : Env) (options : DeployOptions)
    (config : Config.ProjectConfig) (serviceName : string)
    (service : Config.Service) (w : World) :
  pushPhase env options serviceName (imageTagOf options config serviceName service)
    serviceName w
  = if skipPush options then ([], w, Returned tt)
    else
      match failure (execaReply env (spawns w)) with
      | Some e =>
          (pushStarted env options config serviceName service w,
           afterSpawn (afterNow w), Thrown {| errMessage := execaMessage e |})
      | None =>
          ((pushStarted env options config serviceName service w
            ++ [ pushSucceeded env serviceName w ])%list,
           afterPhase w, Returned tt)
      end.
Proof.
  unfold pushPhase.
  destruct (skipPush options); cbn [negb]; [ reflexivity | ].
  unfold pushDockerImage, setPhase, updateStep, emit, now, execa, awaitExit, bind, ret,
    throw, addLog.
  cbn [fst snd nowReads dateReads fetches spawns].
  rewrite forwardOutput_run.
  unfold buildStarted, buildSucceeded, pushStarted, pushSucceeded, buildCommand,
    pushCommand.
  destruct (failure (execaReply env (spawns w))) as [e |];
    cbn [app fst snd nowReads dateReads fetches spawns];
    rewrite ?app_nil_r, <- ?app_assoc; reflexivity.
Qed.

Lemma skipFaasPhases_run (faasClient : option FaaSClient) (serviceName : string)
    (w : World) :
  skipFaasPhases faasClient serviceName w
  = (skipEvents faasClient serviceName, w, Returned tt).
Proof. reflexivity. Qed.


(** ** One step under a sequence of events *)

Lemma stepsAfter_stepAfter (evs : list Event) (l : list Step) :
  existsb isSetSteps evs = false ->
  stepsAfter evs l = map (stepAfter evs) l.
Proof.
  revert l. induction evs as [| e evs IH]; intros l H.
  - simpl. now rewrite map_id.
  - simpl in H. apply orb_false_iff in H. destruct H as [He H].
    rewrite stepsAfter_cons, (IH _ H).
    destruct e; try discriminate; simpl; try reflexivity.
    rewrite updateSteps_map, map_map. reflexivity.
Qed.



Lemma id_stepAfter (evs : list Event) (s : Step) : id (stepAfter evs s) = id s.
Proof.
  revert s. induction evs as [| e evs IH]; intro s; simpl; [ reflexivity | ].
  rewrite IH. destruct e; try reflexivity. apply id_updateOne.
Qed.

Lemma existsb_isSetSteps_logs (ls : list string) :
  existsb isSetSteps (map AddLog ls) = false.
Proof. induction ls as [| x ls IH]; simpl; [ reflexivity | exact IH ]. Qed.


(** Unfold the events of the first two phases and of the skip branch, and
    evaluate what they do to a step whose identifier is known. *)
Ltac unfold_phase_events :=
  unfold skipEvents, faasStepIds, buildStarted, pushStarted, buildSucceeded,
    pushSucceeded, buildCommand, pushCommand, outputLogs, skipUpdate, statusOnly.








(** ** The status writes of the code *)

Lemma writes_app (e1 e2 : list Event) : writes (e1 ++ e2) = (writes e1 ++ writes e2)%list.
Proof. apply flat_map_app. Qed.

Lemma emits_ret {A : Type} (a : A) : emits (ret a) [].
Proof. intro w. split; [ reflexivity | ]. exists []. split; [ reflexivity | auto ]. Qed.

Lemma emits_throw {A : Type} (msg : string) (full : list (string * StepStatus)) :
  emits (@throw A msg) full.
Proof.
  intro w. split; [ reflexivity | ]. exists full. split; [ reflexivity | ].
  intros a H. discriminate.
Qed.

Lemma emits_unsettled {A : Type} (full : list (string * StepStatus)) :
  emits (@unsettled A) full.
Proof.
  intro w. split; [ reflexivity | ]. exists full. split; [ reflexivity | ].
  intros a H. discriminate.
Qed.

Lemma emits_emit (evs : list Event) :
  existsb isSetSteps evs = false -> emits (emit evs) (writes evs).
Proof.
  intros H w. split; [ exact H | ]. exists []. split; [ | auto ].
  simpl. now rewrite app_nil_r.
Qed.

Lemma emits_bind {A B : Type} (c : M A) (k : A -> M B)
    (f1 f2 : list (string * StepStatus)) :
  emits c f1 -> (forall a, emits (k a) f2) -> emits (bind c k) (f1 ++ f2)%list.
Proof.
  intros Hc Hk w. specialize (Hc w). rewrite bind_run.
  destruct (c w) as [[e1 w1] r1]. cbn [fst snd] in Hc.
  destruct Hc as [Hs (rest1 & Hf1 & Hr1)].
  destruct r1 as [a | e |].
  - specialize (Hk a w1). destruct (k a w1) as [[e2 w2] r2]. cbn [fst snd] in Hk.
    destruct Hk as [Hs2 (rest2 & Hf2 & Hr2)].
    unfold after. cbn [fst snd]. split.
    + rewrite existsb_app, Hs, Hs2. reflexivity.
    + exists rest2. split; [ | exact Hr2 ].
      rewrite (Hr1 a eq_refl), app_nil_r in Hf1. subst f1 f2.
      now rewrite writes_app, app_assoc.
  - cbn [fst snd]. split; [ exact Hs | ].
    exists (rest1 ++ f2)%list. split; [ | intros a H; discriminate ].
    subst f1. now rewrite app_assoc.
  - cbn [fst snd]. split; [ exact Hs | ].
    exists (rest1 ++ f2)%list. split; [ | intros a H; discriminate ].
    subst f1. now rewrite app_assoc.
Qed.

Lemma emits_bind_silent {A B : Type} (c : M A) (k : A -> M B)
    (f : list (string * StepStatus)) :
  emits c [] -> (forall a, emits (k a) f) -> emits (bind c k) f.
Proof. intros Hc Hk. exact (@emits_bind A B c k [] f Hc Hk). Qed.

Lemma emits_bind_write {A B : Type} (c : M A) (k : A -> M B)
    (x : string * StepStatus) (f : list (string * StepStatus)) :
  emits c [ x ] -> (forall a, emits (k a) f) -> emits (bind c k) (x :: f).
Proof. intros Hc Hk. exact (@emits_bind A B c k [ x ] f Hc Hk). Qed.

Lemma emits_now (env : Env) : emits (now env) [].
Proof. intro w. split; [ reflexivity | ]. exists []. split; [ reflexivity | auto ]. Qed.

Lemma emits_newDate (env : Env) : emits (newDate env) [].
Proof. intro w. split; [ reflexivity | ]. exists []. split; [ reflexivity | auto ]. Qed.

Lemma emits_setPhase (p : DeployPhase) : emits (setPhase p) [].
Proof. apply (emits_emit [ SetPhase p ]). reflexivity. Qed.

Lemma emits_addLog (l : string) : emits (emit (addLog l)) [].
Proof. apply (emits_emit (addLog l)). reflexivity. Qed.

Lemma emits_updateStep_status (i : string) (u : StepUpdate) (x : StepStatus) :
  u_status u = Some x -> emits (updateStep i u) [ (i, x) ].
Proof.
  intro H. unfold updateStep.
  replace [ (i, x) ] with (writes [ UpdateStep i u ]).
  - apply emits_emit. reflexivity.
  - unfold writes. simpl. now rewrite H.
Qed.

Lemma emits_request (env : Env) (client : FaaSClient) (action : string) (params : Json) :
  emits (request env client action params) [].
Proof.
  intro w. rewrite request_run. cbn [fst snd]. split; [ reflexivity | ].
  exists []. split; [ reflexivity | auto ].
Qed.

Lemma emits_updateFunction (env : Env) (client : FaaSClient) (functionId imageUri : string) :
  emits (updateFunction env client functionId imageUri) [].
Proof.
  unfold updateFunction. apply emits_bind_silent; [ apply emits_request | ].
  intro a. apply emits_ret.
Qed.

Lemma emits_release (env : Env) (client : FaaSClient) (functionId : string)
    (description : option string) :
  emits (release env client functionId description) [].
Proof.
  unfold release. apply emits_bind_silent.
  - destruct (truthyOpt description); [ apply emits_ret | ].
    apply emits_bind_silent; [ apply emits_newDate | intro; apply emits_ret ].
  - intro desc. apply emits_bind_silent; [ apply emits_request | ].
    intro a. apply emits_ret.
Qed.

Lemma emits_callProgress (cb : option (Json -> list Event)) (status : Json) :
  quietCallback cb -> emits (callProgress cb status) [].
Proof.
  intro Hq. destruct cb as [f |]; simpl; [ | apply emits_ret ].
  destruct (Hq f status eq_refl) as [Hw Hs].
  rewrite <- Hw. apply emits_emit, Hs.
Qed.

Lemma emits_imageSyncLoop (env : Env) (client : FaaSClient)
    (functionId imageUri : string) (timeout interval : Z)
    (cb : option (Json -> list Event)) (start : Z) (fuel : nat) :
  quietCallback cb ->
  emits (imageSyncLoop env fuel client functionId imageUri timeout interval cb start) [].
Proof.
  intro Hq. induction fuel as [| fuel IH]; cbn [imageSyncLoop].
  - apply emits_unsettled.
  - apply emits_bind_silent; [ apply emits_now | intro t ].
    destruct (t - start <? timeout); [ | apply emits_throw ].
    apply emits_bind_silent; [ apply emits_request | intro status ].
    apply emits_bind_silent; [ apply emits_callProgress, Hq | intros _ ].
    destruct (isString (stringField status "Status") "Succeeded"); [ apply emits_ret | ].
    destruct (isString (stringField status "Status") "Failed"
              || isString (stringField status "Status") "Canceled");
      [ apply emits_throw | ].
    apply emits_bind_silent; [ | intros _; exact IH ].
    apply (emits_emit [ Sleep interval ]). reflexivity.
Qed.

Lemma emits_releaseLoop (env : Env) (client : FaaSClient)
    (functionId : string) (timeout interval : Z)
    (cb : option (Json -> list Event)) (start : Z) (fuel : nat) :
  quietCallback cb ->
  emits (releaseLoop env fuel client functionId timeout interval cb start) [].
Proof.
  intro Hq. induction fuel as [| fuel IH]; cbn [releaseLoop].
  - apply emits_unsettled.
  - apply emits_bind_silent; [ apply emits_now | intro t ].
    destruct (t - start <? timeout); [ | apply emits_throw ].
    apply emits_bind_silent; [ apply emits_request | intro status ].
    apply emits_bind_silent; [ apply emits_callProgress, Hq | intros _ ].
    destruct (isString (stringField status "Status") "done"); [ apply emits_ret | ].
    destruct (isString (stringField status "Status") "failed"); [ apply emits_throw | ].
    apply emits_bind_silent; [ | intros _; exact IH ].
    apply (emits_emit [ Sleep interval ]). reflexivity.
Qed.

Lemma emits_waitForImageSync (env : Env) (fuel : nat) (client : FaaSClient)
    (functionId imageUri : string) (options : WaitOptions) :
  quietCallback (onProgress options) ->
  emits (waitForImageSync env fuel client functionId imageUri options) [].
Proof.
  intro Hq. unfold waitForImageSync.
  apply emits_bind_silent; [ apply emits_now | intro t ].
  apply emits_imageSyncLoop, Hq.
Qed.

Lemma emits_waitForRelease (env : Env) (fuel : nat) (client : FaaSClient)
    (functionId : string) (options : WaitOptions) :
  quietCallback (onProgress options) ->
  emits (waitForRelease env fuel client functionId options) [].
Proof.
  intro Hq. unfold waitForRelease.
  apply emits_bind_silent; [ apply emits_now | intro t ].
  apply emits_releaseLoop, Hq.
Qed.

Lemma writes_logs (ls : list string) : writes (map AddLog ls) = [].
Proof. induction ls as [| x ls IH]; simpl; [ reflexivity | exact IH ]. Qed.

Lemma emits_execa (env : Env) (file : string) (args : list string) (cwd : option string) :
  emits (execa env file args cwd) [].
Proof. intro w. split; [ reflexivity | ]. exists []. split; [ reflexivity | auto ]. Qed.

Lemma emits_forwardOutput (p : ProcOutcome) : emits (forwardOutput (Some addLog) p) [].
Proof.
  intro w. rewrite forwardOutput_run. cbn [fst snd]. unfold outputLogs.
  split; [ apply existsb_isSetSteps_logs | ].
  exists []. rewrite writes_logs. split; [ reflexivity | auto ].
Qed.

Lemma emits_awaitExit (p : ProcOutcome) : emits (awaitExit p) [].
Proof.
  unfold awaitExit. destruct (failure p); [ apply emits_throw | apply emits_ret ].
Qed.

Lemma emits_buildServiceImage (env : Env) (projectRoot : string)
    (config : Config.ProjectConfig) (serviceName version : string) :
  emits (buildServiceImage env projectRoot config serviceName version (Some addLog)) [].
Proof.
  unfold buildServiceImage.
  destruct (getProp (Config.services config) serviceName) as [service |];
    [ | apply emits_throw ].
  apply emits_bind_silent; [ | intro; apply emits_ret ].
  unfold buildDockerImage.
  apply emits_bind_silent; [ apply emits_execa | intro p ].
  apply emits_bind_silent; [ apply emits_forwardOutput | intros _ ].
  apply emits_bind_silent; [ apply emits_awaitExit | intros _ ].
  apply emits_ret.
Qed.

Lemma emits_pushDockerImage (env : Env) (imageTag : string) :
  emits (pushDockerImage env imageTag (Some addLog)) [].
Proof.
  unfold pushDockerImage.
  apply emits_bind_silent; [ apply emits_execa | intro p ].
  apply emits_bind_silent; [ apply emits_forwardOutput | intros _ ].
  apply emits_awaitExit.
Qed.

Lemma checkDocker_run (env : Env) (w : World) :
  checkDocker env w
  = ([ Spawn "docker" [ "version" ] None ], afterSpawn w,
     Returned (match failure (execaReply env (spawns w)) with
               | Some _ => false
               | None => true
               end)).
Proof.
  unfold checkDocker, tryCatch, bind, execa, awaitExit, ret, throw.
  cbn [fst snd]. fold (afterSpawn w).
  destruct (failure (execaReply env (spawns w))); reflexivity.
Qed.

Lemma emits_checkDocker (env : Env) : emits (checkDocker env) [].
Proof.
  intro w. rewrite checkDocker_run. cbn [fst snd]. split; [ reflexivity | ].
  exists []. split; [ reflexivity | auto ].
Qed.

Create HintDb emits.

#[local] Hint Resolve emits_ret emits_throw emits_unsettled emits_now emits_newDate
  emits_setPhase emits_addLog emits_request emits_updateFunction emits_release
  emits_execa emits_forwardOutput emits_awaitExit emits_buildServiceImage
  emits_pushDockerImage emits_checkDocker : emits.

(** Go through a sequence of statements: a statement that sets no status is
    passed over, a status update takes the next write of the list. *)
Ltac emits_steps :=
  repeat first
    [ apply emits_bind_silent; [ solve [ auto with emits ] | intro ]
    | apply emits_bind_write;
      [ solve [ apply emits_updateStep_status; reflexivity ] | intro ] ].

Lemma emits_buildPhase (env : Env) (options : DeployOptions)
    (config : Config.ProjectConfig)
    (projectRoot serviceName version imageTag prefix : string) :
  emits (buildPhase env options config projectRoot serviceName version imageTag prefix)
        (if skipBuild options then [] else phaseWrites (prefix ++ "-build")).
Proof.
  unfold buildPhase, phaseWrites.
  destruct (skipBuild options); cbn [negb]; [ apply emits_ret | ].
  emits_steps. apply emits_updateStep_status. reflexivity.
Qed.

Lemma emits_pushPhase (env : Env) (options : DeployOptions)
    (serviceName imageTag prefix : string) :
  emits (pushPhase env options serviceName imageTag prefix)
        (if skipPush options then [] else phaseWrites (prefix ++ "-push")).
Proof.
  unfold pushPhase, phaseWrites.
  destruct (skipPush options); cbn [negb]; [ apply emits_ret | ].
  emits_steps. apply emits_updateStep_status. reflexivity.
Qed.

Lemma quiet_message_callback (stepId : string) :
  quietCallback
    (Some (fun status : Json =>
             [ UpdateStep stepId
                 {| u_status := None; u_message := Some (stringField status "Status");
                    u_duration := None |} ])).
Proof.
  intros f status H. injection H as <-. split; reflexivity.
Qed.

Lemma emits_faasPhases (env : Env) (fuel : nat) (faasClient : FaaSClient)
    (functionId prefix imageTag : string) :
  emits (faasPhases env fuel faasClient functionId prefix imageTag)
        (flat_map phaseWrites (faasStepIds prefix)).
Proof.
  unfold faasPhases, faasStepIds, phaseWrites. cbn [flat_map app].
  emits_steps.
  apply emits_bind_silent;
    [ apply emits_waitForImageSync, quiet_message_callback | intro ].
  emits_steps.
  apply emits_bind_silent;
    [ apply emits_waitForRelease, quiet_message_callback | intro ].
  emits_steps.
  apply emits_updateStep_status. reflexivity.
Qed.

Lemma emits_skipFaasPhases (faasClient : option FaaSClient) (prefix : string) :
  emits (skipFaasPhases faasClient prefix)
        (map (fun i => (i, skipped)) (faasStepIds prefix)).
Proof.
  unfold skipFaasPhases, faasStepIds. cbn [map].
  emits_steps. apply emits_updateStep_status. reflexivity.
Qed.

Lemma emits_deployService (env : Env) (fuel : nat) (options : DeployOptions)
    (config : Config.ProjectConfig) (projectRoot : string)
    (faasClient : option FaaSClient) (serviceName : string) :
  emits (deployService env fuel options config projectRoot faasClient serviceName)
        (serviceWrites options config faasClient serviceName).
Proof.
  unfold deployService, serviceWrites.
  apply emits_bind_silent; [ apply (emits_emit [ SetCurrentService serviceName ]); reflexivity | ].
  intros _.
  destruct (getProp (Config.services config) serviceName) as [service |].
  - apply emits_bind; [ apply emits_buildPhase | intros _ ].
    apply emits_bind; [ apply emits_pushPhase | intros _ ].
    destruct faasClient as [client |]; [ | apply emits_skipFaasPhases ].
    destruct (truthyOpt (Config.functionId service));
      [ apply emits_faasPhases | apply emits_skipFaasPhases ].
  - apply emits_addLog.
Qed.

Lemma emits_deployServices (env : Env) (fuel : nat) (options : DeployOptions)
    (config : Config.ProjectConfig) (projectRoot : string)
    (faasClient : option FaaSClient) (names : list string) :
  emits (deployServices env fuel options config projectRoot faasClient names)
        (flat_map (serviceWrites options config faasClient) names).
Proof.
  induction names as [| n names IH]; cbn [deployServices flat_map].
  - apply emits_ret.
  - apply emits_bind; [ apply emits_deployService | intros _; exact IH ].
Qed.

(** The status writes of a whole run of [deploy] are a prefix of those of
    the services taken in order, and the list of steps is never replaced. *)
Lemma deploy_writes (env : Env) (fuel : nat) (options : DeployOptions)
    (config : Config.ProjectConfig) (w : World) :
  let evs := fst (fst (deploy env fuel options config w)) in
  existsb isSetSteps evs = false
  /\ exists rest,
       flat_map (serviceWrites options config (makeFaasClient env options))
                (servicesToDeploy options config)
       = (writes evs ++ rest)%list.
Proof.
  assert (Hbody : emits (deployBody env fuel options config)
                    (flat_map (serviceWrites options config (makeFaasClient env options))
                              (servicesToDeploy options config))).
  { unfold deployBody.
    apply emits_bind_silent; [ apply emits_checkDocker | intro dockerAvailable ].
    apply emits_bind_silent;
      [ destruct (negb dockerAvailable); auto with emits | intros _ ].
    rewrite <- (app_nil_r (flat_map _ _)).
    apply emits_bind; [ apply emits_deployServices | intros _ ].
    emits_steps. apply emits_addLog. }
  cbv zeta. unfold deploy, tryCatch.
  specialize (Hbody w).
  destruct (deployBody env fuel options config w) as [[evs w1] r].
  cbn [fst snd] in Hbody. destruct Hbody as [Hs (rest & Hf & _)].
  destruct r as [a | e |]; cbn [fst snd].
  - split; [ exact Hs | now exists rest ].
  - unfold bind, setPhase, emit, addLog. cbn [fst snd].
    split.
    + rewrite existsb_app, Hs. reflexivity.
    + exists rest. rewrite writes_app. cbn [writes flat_map writeOf app].
      now rewrite app_nil_r.
  - split; [ exact Hs | now exists rest ].
Qed.

(** ** Every status write moves a step forward *)

Lemma status_stepAfter (evs : list Event) (s : Step) :
  status (stepAfter evs s) = statusAfter (writes evs) (id s) (status s).
Proof.
  revert s. induction evs as [| e evs IH]; intro s; [ reflexivity | ].
  cbn [stepAfter]. rewrite IH.
  destruct e; try reflexivity.
  rewrite id_updateOne, status_updateOne.
  unfold writes. cbn [flat_map writeOf].
  destruct (u_status updates) as [x |]; cbn [app statusAfter].
  - reflexivity.
  - now destruct (String.eqb (id s) stepId).
Qed.

Lemma statusAfter_app (a b : list (string * StepStatus)) (i : string) (st : StepStatus) :
  statusAfter (a ++ b) i st = statusAfter b i (statusAfter a i st).
Proof.
  revert st. induction a as [| [j x] a IH]; intro st; [ reflexivity | apply IH ].
Qed.

Lemma chain_app (a b : list (string * StepStatus)) (i : string) (st : StepStatus) :
  chain i st (a ++ b) <-> chain i st a /\ chain i (statusAfter a i st) b.
Proof.
  revert st. induction a as [| [j x] a IH]; intro st; cbn [app chain statusAfter].
  - tauto.
  - destruct (String.eqb i j); rewrite IH; tauto.
Qed.

Lemma chain_skip (ws : list (string * StepStatus)) (i : string) (st : StepStatus) :
  ~ In i (map fst ws) -> chain i st ws /\ statusAfter ws i st = st.
Proof.
  induction ws as [| [j x] ws IH]; intro Hn; cbn [chain statusAfter]; [ auto | ].
  cbn [map fst In] in Hn.
  destruct (String.eqb_spec i j) as [-> | Hne]; [ tauto | ].
  apply IH. tauto.
Qed.

Ltac eval_chain :=
  repeat first [ progress cbn [chain statusAfter map flat_map app fst snd id status
                               phaseWrites faasStepIds mkStep In]
               | rewrite eqb_append_prefix
               | progress cbn [String.eqb Ascii.eqb Bool.eqb] ].

(** The writes of one service move each of its six steps forward from the
    status the plan gave it. *)
Lemma chain_serviceSteps (options : DeployOptions) (config : Config.ProjectConfig)
    (faasClient : option FaaSClient) (serviceName : string) (s : Step) :
  In s (serviceSteps options serviceName) ->
  chain (id s) (status s) (serviceWrites options config faasClient serviceName).
Proof.
  unfold serviceSteps, serviceWrites. intro Hs.
  destruct (getProp (Config.services config) serviceName) as [service |];
    [ | exact I ].
  cbn [In] in Hs.
  destruct Hs as [<- | [<- | [<- | [<- | [<- | [<- | []]]]]]];
    destruct (skipBuild options), (skipPush options);
    destruct faasClient as [client |];
    try destruct (truthyOpt (Config.functionId service));
    eval_chain; repeat split.
Qed.

(** The writes of a service only name steps of that service. *)
Lemma serviceWrites_ids (options : DeployOptions) (config : Config.ProjectConfig)
    (faasClient : option FaaSClient) (serviceName : string) (i : string) :
  In i (map fst (serviceWrites options config faasClient serviceName)) ->
  In i (map id (serviceSteps options serviceName)).
Proof.
  unfold serviceSteps, serviceWrites.
  destruct (getProp (Config.services config) serviceName) as [service |];
    [ | intros [] ].
  destruct (skipBuild options), (skipPush options);
    destruct faasClient as [client |];
    try destruct (truthyOpt (Config.functionId service));
    cbn [map flat_map app fst id phaseWrites faasStepIds mkStep In]; tauto.
Qed.

Lemma flat_serviceWrites_ids (options : DeployOptions) (config : Config.ProjectConfig)
    (faasClient : option FaaSClient) (names : list string) (i : string) :
  In i (map fst (flat_map (serviceWrites options config faasClient) names)) ->
  In i (map id (flat_map (serviceSteps options) names)).
Proof.
  induction names as [| n names IH]; [ intros [] | ].
  cbn [flat_map]. rewrite !map_app, !in_app_iff.
  intros [H | H]; [ left; eapply serviceWrites_ids; exact H | right; apply IH, H ].
Qed.

Lemma NoDup_app_disjoint {A : Type} (l1 l2 : list A) (a : A) :
  NoDup (l1 ++ l2) -> In a l1 -> In a l2 -> False.
Proof.
  induction l1 as [| x l1 IH]; intros Hnd H1 H2; [ destruct H1 | ].
  cbn [app] in Hnd. apply NoDup_cons_iff in Hnd. destruct Hnd as [Hx Hnd].
  destruct H1 as [-> | H1].
  - apply Hx, in_or_app. now right.
  - now apply IH.
Qed.

Lemma chain_plan (options : DeployOptions) (config : Config.ProjectConfig)
    (faasClient : option FaaSClient) (names : list string) (s : Step) :
  NoDup (map id (flat_map (serviceSteps options) names)) ->
  In s (flat_map (serviceSteps options) names) ->
  chain (id s) (status s) (flat_map (serviceWrites options config faasClient) names).
Proof.
  induction names as [| n names IH]; [ intros _ [] | ].
  cbn [flat_map]. rewrite map_app. intros Hnd Hs.
  apply in_app_iff in Hs. apply chain_app.
  destruct Hs as [Hs | Hs].
  - split; [ apply chain_serviceSteps, Hs | ].
    apply chain_skip. intro Hin.
    apply flat_serviceWrites_ids in Hin.
    apply (NoDup_app_disjoint _ _ (id s) Hnd); [ apply in_map, Hs | exact Hin ].
  - assert (Hout : ~ In (id s) (map fst (serviceWrites options config faasClient n))).
    { intro Hin. apply serviceWrites_ids in Hin.
      apply (NoDup_app_disjoint _ _ (id s) Hnd); [ exact Hin | apply in_map, Hs ]. }
    destruct (chain_skip _ _ (status s) Hout) as [Hc Hst].
    split; [ exact Hc | ]. rewrite Hst.
    apply IH; [ | exact Hs ].
    apply NoDup_app_remove_l in Hnd. exact Hnd.
Qed.

Lemma chain_prefix (a b : list (string * StepStatus)) (i : string) (st : StepStatus) :
  chain i st (a ++ b) -> chain i st a.
Proof. intro H. apply chain_app in H. tauto. Qed.

Lemma forward_refl (st : StepStatus) : forward st st = true.
Proof. now destruct st. Qed.

Lemma Forall2_maps {A B : Type} (R : B -> B -> Prop) (f g : A -> B) (l : list A) :
  (forall x, In x l -> R (f x) (g x)) -> Forall2 R (map f l) (map g l).
Proof.
  induction l as [| x l IH]; intro H; cbn [map]; constructor.
  - apply H. now left.
  - apply IH. intros y Hy. apply H. now right.
Qed.

(** C5, as the code has it.  When the identifiers of the planned steps are
    pairwise distinct, every event of a run of [deploy] leaves each step
    with the status it had or moves it to a status further along
    pending, running, success / error / skipped: no step goes from running
    back to pending and no step leaves success, error or skipped. *)
Theorem step_status_only_moves_forward
    (env : Env) (fuel : nat) (options : DeployOptions)
    (config : Config.ProjectConfig) (w : World) (st : AppState)
    (pre post : list Event) (e : Event) :
  NoDup (map id (initialSteps options config)) ->
  steps st = initialSteps options config ->
  fst (fst (deploy env fuel options config w)) = (pre ++ e :: post)%list ->
  Forall2 (fun before after =>
             id before = id after
             /\ forward (status before) (status after) = true
             /\ (status before = running -> status after <> pending)
             /\ (status before = success \/ status before = error
                 \/ status before = skipped -> status after = status before))
          (steps (runEvents st pre))
          (steps (reduce (runEvents st pre) e)).
Proof.
  intros Hnd Hst Hevs.
  destruct (deploy_writes env fuel options config w) as [Hset [rest Hfull]].
  rewrite Hevs in Hset, Hfull.
  rewrite existsb_app in Hset. apply orb_false_iff in Hset.
  destruct Hset as [Hset1 Hset2]. cbn [existsb] in Hset2.
  apply orb_false_iff in Hset2. destruct Hset2 as [Hsete _].
  rewrite steps_reduce, steps_runEvents, Hst.
  rewrite (stepsAfter_stepAfter _ _ Hset1).
  assert (Hone : applyToSteps (map (stepAfter pre) (initialSteps options config)) e
                 = map (fun s => stepAfter [ e ] (stepAfter pre s))
                       (initialSteps options config)).
  { destruct e; try discriminate; cbn [applyToSteps stepAfter]; try reflexivity.
    rewrite updateSteps_map, map_map. reflexivity. }
  rewrite Hone.
  apply Forall2_maps. intros s Hs.
  assert (Hfwd : forward (status (stepAfter pre s))
                         (status (stepAfter [ e ] (stepAfter pre s))) = true).
  { rewrite (status_stepAfter [ e ]), id_stepAfter, status_stepAfter.
    rewrite initialSteps_blocks in Hnd, Hs.
    pose proof (@chain_plan options config (makeFaasClient env options)
                  (servicesToDeploy options config) s Hnd Hs) as Hchain.
    rewrite Hfull in Hchain. apply chain_prefix in Hchain.
    rewrite writes_app in Hchain. apply chain_app in Hchain.
    destruct Hchain as [_ Hchain].
    change (e :: post) with ([ e ] ++ post)%list in Hchain.
    rewrite writes_app in Hchain. apply chain_prefix in Hchain.
    revert Hchain.
    generalize (statusAfter (writes pre) (id s) (status s)) as cur.
    intro cur. unfold writes. cbn [flat_map]. rewrite app_nil_r.
    destruct (writeOf e) as [| [j x] [| y ws]] eqn:Hw.
    - intros _. apply forward_refl.
    - cbn [chain statusAfter]. destruct (String.eqb (id s) j).
      + tauto.
      + intros _. apply forward_refl.
    - destruct e; try discriminate. cbn [writeOf] in Hw.
      destruct (u_status updates); discriminate. }
  split; [ now rewrite !id_stepAfter | ].
  split; [ exact Hfwd | ].
  revert Hfwd.
  destruct (status (stepAfter pre s)), (status (stepAfter [ e ] (stepAfter pre s)));
    cbn; intro Hf; split; try discriminate; try reflexivity;
    try (intros _; discriminate); intros [H | [H | H]]; discriminate.
Qed.

(** The theorem for the run of [sampleOptions] on [sampleConfig] in
    [happyEnv], at the event that sets the build step of [api] running. *)
Lemma step_status_only_moves_forward_witness :
  let evs := fst (fst (deploy happyEnv 3 sampleOptions sampleConfig world0)) in
  let st := plannedState sampleOptions sampleConfig in
  nth 3 evs (Sleep 0) = UpdateStep "api-build" (statusOnly running)
  /\ Forall2 (fun before after =>
                id before = id after
                /\ forward (status before) (status after) = true
                /\ (status before = running -> status after <> pending)
                /\ (status before = success \/ status before = error
                    \/ status before = skipped -> status after = status before))
             (steps (runEvents st (firstn 3 evs)))
             (steps (reduce (runEvents st (firstn 3 evs)) (nth 3 evs (Sleep 0)))).
Proof.
  intros evs st. split; [ vm_compute; reflexivity | ].
  apply (@step_status_only_moves_forward happyEnv 3 sampleOptions sampleConfig world0 st
           (firstn 3 evs) (skipn 4 evs) (nth 3 evs (Sleep 0))).
  - vm_compute.
    repeat (constructor; [ cbn; intuition discriminate | ]). constructor.
  - reflexivity.
  - vm_compute. reflexivity.
Defined.

(** C5 as stated fails when two planned steps share an identifier.
    - With the services [a] and [a-wait], the wait-release step of [a] and
      the release step of [a-wait] are both [a-wait-release]: the update that
      skips the FaaS steps of [a-wait] takes the finished wait-release step of
      [a] from success to skipped.
    - With the service [api] selected twice, the second iteration takes the
      build step from success back to running. *)
Lemma step_status_moves_backward_on_shared_identifier :
  (let evs := fst (fst (deploy happyEnv 3 sampleOptions collidingConfig world0)) in
   let before := runEvents (plannedState sampleOptions collidingConfig) (firstn 55 evs) in
   let after := reduce before (nth 55 evs (Sleep 0)) in
   nth 55 evs (Sleep 0) = UpdateStep "a-wait-release" (skipUpdate "No function ID")
   /\ nth 5 (statuses before) ("", pending) = ("a-wait-release", success)
   /\ nth 5 (statuses after) ("", pending) = ("a-wait-release", skipped))
  /\ (let evs := fst (fst (deploy happyEnv 3 repeatedOptions sampleConfig world0)) in
      let before := runEvents (plannedState repeatedOptions sampleConfig) (firstn 15 evs) in
      let after := reduce before (nth 15 evs (Sleep 0)) in
      nth 15 evs (Sleep 0) = UpdateStep "api-build" (statusOnly running)
      /\ nth 0 (statuses before) ("", pending) = ("api-build", success)
      /\ nth 0 (statuses after) ("", pending) = ("api-build", running)).
Proof.
  split; vm_compute; repeat split.
Qed.

(** ** A whole run *)

(** The services [api] and [worker], everything succeeding: twelve steps,
    all ending in success, and the run ends in the phase done without an
    error. *)
Example happy_run_ends_done :
  let final := runApp happyEnv 3 sampleOptions (Some sampleConfig) in
  phase final = phase_done
  /\ appError final = None
  /\ statuses final
     = [ ("api-build", success); ("api-push", success); ("api-update", success);
         ("api-sync", success); ("api-release", success);
         ("api-wait-release", success);
         ("worker-build", success); ("worker-push", success);
         ("worker-update", success); ("worker-sync", success);
         ("worker-release", success); ("worker-wait-release", success) ].
Proof. vm_compute. repeat split. Qed.

(** ** A failing push *)

Lemma bind_assoc {A B C : Type} (c : M A) (k : A -> M B) (k' : B -> M C) (w : World) :
  bind (bind c k) k' w = bind c (fun a => bind (k a) k') w.
Proof.
  unfold bind. destruct (c w) as [[e1 w1] [a | e |]]; try reflexivity.
  destruct (k a w1) as [[e2 w2] [b | e |]]; try reflexivity.
  destruct (k' b w2) as [[e3 w3] r]. now rewrite app_assoc.
Qed.

Lemma deployServices_app (env : Env) (fuel : nat) (options : DeployOptions)
    (config : Config.ProjectConfig) (projectRoot : string)
    (faasClient : option FaaSClient) (a b : list string) (w : World) :
  deployServices env fuel options config projectRoot faasClient (a ++ b) w
  = bind (deployServices env fuel options config projectRoot faasClient a)
         (fun _ => deployServices env fuel options config projectRoot faasClient b) w.
Proof.
  revert w. induction a as [| n a IH]; intro w; cbn [app deployServices].
  - unfold bind, ret. destruct (deployServices _ _ _ _ _ _ b w) as [[evs w1] r].
    reflexivity.
  - rewrite bind_assoc.
    rewrite (bind_run (deployService env fuel options config projectRoot faasClient n)).
    symmetry.
    rewrite (bind_run (deployService env fuel options config projectRoot faasClient n)).
    destruct (deployService env fuel options config projectRoot faasClient n w)
      as [[e1 w1] [[] | e |]]; try reflexivity.
    f_equal. symmetry. apply IH.
Qed.

Lemma runEvents_app (st : AppState) (e1 e2 : list Event) :
  runEvents st (e1 ++ e2) = runEvents (runEvents st e1) e2.
Proof. apply fold_left_app. Qed.

Lemma NoDup_map_same {A B : Type} (f : A -> B) (l : list A) (a b : A) :
  NoDup (map f l) -> In a l -> In b l -> f a = f b -> a = b.
Proof.
  induction l as [| x l IH]; intros Hnd Ha Hb Hf; [ destruct Ha | ].
  cbn [map] in Hnd. apply NoDup_cons_iff in Hnd. destruct Hnd as [Hx Hnd].
  destruct Ha as [-> | Ha], Hb as [-> | Hb].
  - reflexivity.
  - exfalso. apply Hx. rewrite Hf. now apply in_map.
  - exfalso. apply Hx. rewrite <- Hf. now apply in_map.
  - now apply IH.
Qed.

(** The events of a run in which the push of one service fails, the
    services before it having gone through. *)
Lemma deploy_run_push_failure (env : Env) (fuel : nat) (options : DeployOptions)
    (config : Config.ProjectConfig) (pre post : list string) (serviceName : string)
    (service : Config.Service) (evsPre : list Event) (w1 : World) (f : ExecaError) :
  skipBuild options = false ->
  skipPush options = false ->
  servicesToDeploy options config = (pre ++ serviceName :: post)%list ->
  failure (execaReply env 0) = None ->
  deployServices env fuel options config (resolveProjectRoot env)
    (makeFaasClient env options) pre (afterSpawn world0)
  = (evsPre, w1, Returned tt) ->
  getProp (Config.services config) serviceName = Some service ->
  failure (execaReply env (spawns w1)) = None ->
  failure (execaReply env (S (spawns w1))) = Some f ->
  deploy env fuel options config world0
  = ((Spawn "docker" [ "version" ] None :: evsPre
      ++ SetCurrentService serviceName
      :: buildStarted env options config (resolveProjectRoot env) serviceName service w1
      ++ buildSucceeded env options config serviceName service w1
      :: pushStarted env options config serviceName service (afterPhase w1)
      ++ [ SetPhase phase_error; SetError (execaMessage f);
           AddLog ("❌ Error: " ++ execaMessage f) ])%list,
     afterSpawn (afterNow (afterPhase w1)), Returned tt).
Proof.
  intros Hsb Hsp Hnames Hdocker Hpre Hfound Hbuild Hpush.
  assert (Hsvc : deployService env fuel options config (resolveProjectRoot env)
                   (makeFaasClient env options) serviceName w1
                 = ((SetCurrentService serviceName
                     :: buildStarted env options config (resolveProjectRoot env)
                          serviceName service w1
                     ++ buildSucceeded env options config serviceName service w1
                     :: pushStarted env options config serviceName service
                          (afterPhase w1))%list,
                    afterSpawn (afterNow (afterPhase w1)),
                    Thrown {| errMessage := execaMessage f |})).
  { unfold deployService. rewrite bind_run. unfold emit at 1. rewrite Hfound.
    fold (imageTagOf options config serviceName service).
    rewrite bind_run,
      (@buildPhase_run env options config (resolveProjectRoot env) serviceName service
         w1 Hfound).
    rewrite Hsb, Hbuild. rewrite bind_run, pushPhase_run, Hsp.
    change (spawns (afterPhase w1)) with (S (spawns w1)). rewrite Hpush.
    unfold after. cbn [app]. rewrite <- app_assoc. reflexivity. }
  assert (Hbody : deployBody env fuel options config world0
                  = ((Spawn "docker" [ "version" ] None :: evsPre
                      ++ SetCurrentService serviceName
                      :: buildStarted env options config (resolveProjectRoot env)
                           serviceName service w1
                      ++ buildSucceeded env options config serviceName service w1
                      :: pushStarted env options config serviceName service
                           (afterPhase w1))%list,
                     afterSpawn (afterNow (afterPhase w1)),
                     Thrown {| errMessage := execaMessage f |})).
  { unfold deployBody. rewrite bind_run, checkDocker_run.
    change (spawns world0) with 0%nat. rewrite Hdocker. cbn [negb].
    rewrite bind_run. unfold ret at 1.
    rewrite bind_run, Hnames, deployServices_app, bind_run, Hpre.
    cbn [deployServices]. rewrite bind_run, Hsvc.
    unfold after. cbn [app]. reflexivity. }
  unfold deploy, tryCatch. rewrite Hbody.
  unfold bind, setPhase, emit, addLog. cbn [fst snd app].
  rewrite <- !app_assoc. cbn [app].
  repeat (rewrite <- app_assoc || rewrite <- app_comm_cons). reflexivity.
Qed.

Lemma planned_steps_pending (options : DeployOptions) (names : list string) (s : Step) :
  skipBuild options = false -> skipPush options = false ->
  In s (flat_map (serviceSteps options) names) -> status s = pending.
Proof.
  intros Hb Hp Hs. apply in_flat_map in Hs. destruct Hs as [n [_ Hs]].
  unfold serviceSteps in Hs. rewrite Hb, Hp in Hs. cbn [In] in Hs.
  destruct Hs as [<- | [<- | [<- | [<- | [<- | [<- | []]]]]]]; reflexivity.
Qed.

Lemma deployServices_returned_writes (env : Env) (fuel : nat) (options : DeployOptions)
    (config : Config.ProjectConfig) (projectRoot : string)
    (faasClient : option FaaSClient) (names : list string) (w w1 : World)
    (evs : list Event) :
  deployServices env fuel options config projectRoot faasClient names w
  = (evs, w1, Returned tt) ->
  writes evs = flat_map (serviceWrites options config faasClient) names
  /\ existsb isSetSteps evs = false.
Proof.
  intro Hrun.
  destruct (emits_deployServices env fuel options config projectRoot faasClient names w)
    as [Hset (rest & Hfull & Hret)].
  rewrite Hrun in Hset, Hfull, Hret. cbn [fst snd] in Hset, Hfull, Hret.
  rewrite (Hret tt eq_refl), app_nil_r in Hfull. split; [ now symmetry | exact Hset ].
Qed.

Lemma statusAfter_skip (ws : list (string * StepStatus)) (i : string) (st : StepStatus) :
  ~ In i (map fst ws) -> statusAfter ws i st = st.
Proof. intro H. now apply chain_skip. Qed.

(** C1, as the code has it.  If the push subprocess of a service exits
    non-zero (the services before it having gone through, and neither build
    nor push being skipped by a flag), the run aborts at once: the build step
    of that service has status success, its push step stays running (the
    orchestrator never marks a step as error), the later steps of that service
    and all steps of every subsequent service remain pending, and the run ends
    in the error phase with the message of the error of the rejected push.
    The identifiers of the planned steps are taken to be pairwise
    distinct. *)
Theorem push_failure_aborts_run
    (env : Env) (fuel : nat) (options : DeployOptions)
    (config : Config.ProjectConfig) (pre post : list string) (serviceName : string)
    (service : Config.Service) (evsPre : list Event) (w1 : World) (f : ExecaError) :
  skipBuild options = false ->
  skipPush options = false ->
  servicesToDeploy options config = (pre ++ serviceName :: post)%list ->
  NoDup (map id (initialSteps options config)) ->
  failure (execaReply env 0) = None ->
  deployServices env fuel options config (resolveProjectRoot env)
    (makeFaasClient env options) pre (afterSpawn world0)
  = (evsPre, w1, Returned tt) ->
  getProp (Config.services config) serviceName = Some service ->
  failure (execaReply env (spawns w1)) = None ->
  failure (execaReply env (S (spawns w1))) = Some f ->
  let final := runApp env fuel options (Some config) in
  phase final = phase_error
  /\ appError final = Some (execaMessage f)
  /\ map id (steps final) = map id (initialSteps options config)
  /\ (forall s, In s (steps final) ->
        (id s = serviceName ++ "-build" -> status s = success)
        /\ (id s = serviceName ++ "-push" -> status s = running)
        /\ (In (id s) (faasStepIds serviceName) -> status s = pending)
        /\ (forall n, In n post -> In (id s) (map id (serviceSteps options n)) ->
            status s = pending)).
Proof.
  intros Hsb Hsp Hnames Hnd Hdocker Hpre Hfound Hbuild Hpush final.
  pose proof (@deploy_run_push_failure env fuel options config pre post serviceName
                service evsPre w1 f Hsb Hsp Hnames Hdocker Hpre Hfound Hbuild Hpush)
    as Hrun.
  pose proof (deploy_writes env fuel options config world0) as [Hset _].
  rewrite Hrun in Hset. cbn [fst] in Hset.
  destruct (deployServices_returned_writes _ _ _ _ _ _ _ _ Hpre) as [Hwpre _].
  assert (Hinit : initialSteps options config
                  = (flat_map (serviceSteps options) pre
                     ++ serviceSteps options serviceName
                     ++ flat_map (serviceSteps options) post)%list).
  { rewrite initialSteps_blocks, Hnames, flat_map_app. reflexivity. }
  assert (Hfinal : final
                   = runEvents (plannedState options config)
                       (fst (fst (deploy env fuel options config world0)))).
  { unfold final, runApp, appEvents, plannedState. rewrite runEvents_app.
    cbn [planEffect runEvents fold_left reduce projectConfig steps initialState
         deployEffect].
    rewrite Hinit.
    destruct (flat_map (serviceSteps options) pre); reflexivity. }
  rewrite Hrun in Hfinal. cbn [fst] in Hfinal.
  assert (Hsteps : steps final
                   = map (stepAfter
                            (Spawn "docker" [ "version" ] None :: evsPre
                             ++ SetCurrentService serviceName
                             :: buildStarted env options config (resolveProjectRoot env)
                                  serviceName service w1
                             ++ buildSucceeded env options config serviceName service w1
                             :: pushStarted env options config serviceName service
                                  (afterPhase w1)
                             ++ [ SetPhase phase_error; SetError (execaMessage f);
                                  AddLog ("❌ Error: " ++ execaMessage f) ])%list)
                         (initialSteps options config)).
  { rewrite Hfinal, steps_runEvents. apply stepsAfter_stepAfter, Hset. }
  split.
  { rewrite Hfinal.
    rewrite !app_comm_cons, !app_assoc, runEvents_app. reflexivity. }
  split.
  { rewrite Hfinal.
    rewrite !app_comm_cons, !app_assoc, runEvents_app. reflexivity. }
  split.
  { rewrite Hsteps, map_map. apply map_ext. intro s. apply id_stepAfter. }
  intros s Hs. rewrite Hsteps in Hs. apply in_map_iff in Hs.
  destruct Hs as [s0 [<- Hs0]].
  rewrite id_stepAfter, status_stepAfter.
  assert (Hst0 : status s0 = pending).
  { rewrite initialSteps_blocks in Hs0.
    exact (planned_steps_pending _ _ _ Hsb Hsp Hs0). }
  rewrite Hst0.
  assert (Hw : forall i,
             ~ In i (map id (flat_map (serviceSteps options) pre)) ->
             statusAfter
               (writes
                  (Spawn "docker" [ "version" ] None :: evsPre
                   ++ SetCurrentService serviceName
                   :: buildStarted env options config (resolveProjectRoot env)
                        serviceName service w1
                   ++ buildSucceeded env options config serviceName service w1
                   :: pushStarted env options config serviceName service (afterPhase w1)
                   ++ [ SetPhase phase_error; SetError (execaMessage f);
                        AddLog ("❌ Error: " ++ execaMessage f) ])%list)
               i pending
             = statusAfter [ (serviceName ++ "-build", running);
                             (serviceName ++ "-build", success);
                             (serviceName ++ "-push", running) ] i pending).
  { intros i Hi.
    change (Spawn "docker" [ "version" ] None :: evsPre ++ ?x)%list
      with ([ Spawn "docker" [ "version" ] None ] ++ evsPre ++ x)%list.
    rewrite !writes_app, Hwpre. cbn [app writes flat_map writeOf].
    rewrite statusAfter_app.
    rewrite (statusAfter_skip _ _ pending).
    - unfold_phase_events.
      change (SetCurrentService serviceName :: ?a :: ?b :: ?c :: ?d :: ?x)%list
        with ([ SetCurrentService serviceName; a; b; c; d ] ++ x)%list.
      repeat first [ rewrite writes_app | rewrite writes_logs
                   | progress cbn [app writes flat_map writeOf u_status] ].
      reflexivity.
    - intro Hin. apply Hi. eapply flat_serviceWrites_ids. exact Hin. }
  rewrite Hinit, !map_app in Hnd.
  assert (Hown : forall i, In i (map id (serviceSteps options serviceName)) ->
                   ~ In i (map id (flat_map (serviceSteps options) pre))).
  { intros i Hi Hin. apply (NoDup_app_disjoint _ _ i Hnd Hin).
    apply in_or_app. now left. }
  assert (Hlater : forall i, In i (map id (flat_map (serviceSteps options) post)) ->
                     ~ In i (map id (flat_map (serviceSteps options) pre))
                     /\ ~ In i (map id (serviceSteps options serviceName))).
  { intros i Hi. split; intro Hin.
    - apply (NoDup_app_disjoint _ _ i Hnd Hin). apply in_or_app. now right.
    - apply NoDup_app_remove_l in Hnd.
      apply (NoDup_app_disjoint _ _ i Hnd Hin Hi). }
  repeat split.
  - intro Hid. rewrite Hw; [ | apply Hown; rewrite Hid; cbn; tauto ].
    rewrite Hid. eval_chain. reflexivity.
  - intro Hid. rewrite Hw; [ | apply Hown; rewrite Hid; cbn; tauto ].
    rewrite Hid. eval_chain. reflexivity.
  - intro Hid. rewrite Hw; [ | apply Hown; cbn in Hid |- *; tauto ].
    unfold faasStepIds in Hid. cbn [In] in Hid.
    destruct Hid as [<- | [<- | [<- | [<- | []]]]]; eval_chain; reflexivity.
  - intros n Hn Hid.
    assert (Hi : In (id s0) (map id (flat_map (serviceSteps options) post))).
    { rewrite in_map_iff in Hid |- *. destruct Hid as [b [Hb1 Hb2]].
      exists b. split; [ exact Hb1 | ]. apply in_flat_map. now exists n. }
    destruct (Hlater _ Hi) as [Hnotpre Hnotown].
    rewrite Hw; [ | exact Hnotpre ].
    cbn [statusAfter].
    assert (E1 : String.eqb (id s0) (serviceName ++ "-build") = false).
    { apply String.eqb_neq. intro E. apply Hnotown. rewrite E. cbn. tauto. }
    assert (E2 : String.eqb (id s0) (serviceName ++ "-push") = false).
    { apply String.eqb_neq. intro E. apply Hnotown. rewrite E. cbn. tauto. }
    rewrite E1, E2. reflexivity.
Qed.

(** The theorem for the services [api] and [worker] when the push of [api]
    exits non-zero. *)
Lemma push_failure_aborts_run_witness :
  let final := runApp pushFailsEnv 3 sampleOptions (Some sampleConfig) in
  failure (execaReply pushFailsEnv 2) = Some pushDenied
  /\ phase final = phase_error
  /\ appError final = Some (execaMessage pushDenied)
  /\ (forall s, In s (steps final) ->
        (id s = "api-build" -> status s = success)
        /\ (id s = "api-push" -> status s = running)
        /\ (In (id s) (faasStepIds "api") -> status s = pending)
        /\ (forall n, In n [ "worker" ] ->
            In (id s) (map id (serviceSteps sampleOptions n)) -> status s = pending)).
Proof.
  intro final. split; [ reflexivity | ].
  assert (Hnd : NoDup (map id (initialSteps sampleOptions sampleConfig))).
  { vm_compute. repeat (constructor; [ cbn; intuition discriminate | ]). constructor. }
  destruct (@push_failure_aborts_run pushFailsEnv 3 sampleOptions sampleConfig
              [] [ "worker" ] "api" (sampleService "demo-api" (Some "fn-api"))
              [] (afterSpawn world0) pushDenied
              eq_refl eq_refl eq_refl Hnd eq_refl eq_refl eq_refl eq_refl eq_refl)
    as (Hphase & Herror & _ & Hsteps).
  split; [ exact Hphase | ]. split; [ exact Herror | exact Hsteps ].
Defined.

(** C1 as stated fails: when the push of [api] exits non-zero, its push
    step is left running, with no message, and no step has status error; the
    message of the run's error is the message of the rejection, not the
    captured standard error. *)
Lemma push_failure_leaves_push_step_running :
  let final := runApp pushFailsEnv 3 sampleOptions (Some sampleConfig) in
  failure (execaReply pushFailsEnv 2) = Some pushDenied
  /\ map (fun s => (id s, status s, message s)) (steps final)
     = [ ("api-build", success, Some "cr.example.com/team/demo-api:v1.0.1");
         ("api-push", running, None);
         ("api-update", pending, None);
         ("api-sync", pending, None);
         ("api-release", pending, None);
         ("api-wait-release", pending, None);
         ("worker-build", pending, None);
         ("worker-push", pending, None);
         ("worker-update", pending, None);
         ("worker-sync", pending, None);
         ("worker-release", pending, None);
         ("worker-wait-release", pending, None) ]
  /\ (forall s, In s (steps final) -> status s <> error)
  /\ phase final = phase_error
  /\ appError final = Some (execaMessage pushDenied)
  /\ appError final <> Some (stderr pushDenied).
Proof.
  intro final.
  assert (Hsteps : map (fun s => (id s, status s, message s)) (steps final)
                   = [ ("api-build", success, Some "cr.example.com/team/demo-api:v1.0.1");
                       ("api-push", running, None);
                       ("api-update", pending, None);
                       ("api-sync", pending, None);
                       ("api-release", pending, None);
                       ("api-wait-release", pending, None);
                       ("worker-build", pending, None);
                       ("worker-push", pending, None);
                       ("worker-update", pending, None);
                       ("worker-sync", pending, None);
                       ("worker-release", pending, None);
                       ("worker-wait-release", pending, None) ])
    by (vm_compute; reflexivity).
  split; [ reflexivity | ].
  split; [ exact Hsteps | ].
  split.
  { intros s Hs Herr.
    apply (in_map (fun s => (id s, status s, message s))) in Hs.
    rewrite Hsteps, Herr in Hs. cbn [In] in Hs.
    repeat (destruct Hs as [Hs | Hs]; [ discriminate | ]). exact Hs. }
  split; [ vm_compute; reflexivity | ].
  split; [ vm_compute; reflexivity | ].
  vm_compute. discriminate.
Qed.

(* ===================================================================== *)
(** * Properties of the version utilities *)
(* ===================================================================== *)

(** ** Digits *)

Lemma spanDigits_spec (s : string) :
  let (d, r) := spanDigits s in
  s = d ++ r /\ allChars isDigit d = true
  /\ match r with String c _ => isDigit c = false | EmptyString => True end.
Proof.
  induction s as [| c s IH]; simpl.
  - repeat split.
  - destruct (isDigit c) eqn:Hc.
    + destruct (spanDigits s) as [d r]. destruct IH as (-> & Hd & Hr).
      simpl. rewrite Hc. repeat split; assumption.
    + repeat split. exact Hc.
Qed.

Lemma spanDigits_append (d rest : string) :
  allChars isDigit d = true ->
  match rest with String c _ => isDigit c = false | EmptyString => True end ->
  spanDigits (d ++ rest) = (d, rest).
Proof.
  intros Hd Hrest. induction d as [| c d IH]; simpl in *.
  - destruct rest as [| c r]; simpl; [ reflexivity | now rewrite Hrest ].
  - apply andb_true_iff in Hd as [Hc Hd]. rewrite Hc, (IH Hd). reflexivity.
Qed.

Lemma digits_of_uint (d : Decimal.uint) :
  allChars isDigit (NilEmpty.string_of_uint d) = true.
Proof.
  induction d; simpl; try rewrite IHd; reflexivity.
Qed.

Lemma numberToString_digits (n : Z) :
  0 <= n ->
  allChars isDigit (numberToString n) = true /\ numberToString n <> EmptyString.
Proof.
  intros Hn. unfold numberToString.
  destruct n as [| p | p]; [ | | lia ].
  - split; [ reflexivity | discriminate ].
  - simpl. unfold NilZero.string_of_uint.
    pose proof (DecimalPos.Unsigned.to_uint_nonnil p) as Hnil.
    destruct (Pos.to_uint p) eqn:E; try congruence;
      (split; [ apply digits_of_uint | simpl; discriminate ]).
Qed.

Lemma Number_numberToString (n : Z) : 0 <= n -> Number (numberToString n) = n.
Proof.
  intros Hn. unfold Number, numberToString.
  destruct n as [| p | p]; [ reflexivity | | lia ].
  simpl. rewrite (NilZero.usu _ (DecimalPos.Unsigned.to_uint_nonnil p)).
  change (Z.of_uint (Pos.to_uint p)) with (Z.of_int (Z.to_int (Z.pos p))).
  apply DecimalZ.of_to.
Qed.

Lemma Number_nonneg (s : string) : 0 <= Number s.
Proof.
  unfold Number. destruct (NilZero.uint_of_string s) as [d |]; [ | lia ].
  unfold Z.of_uint. apply N2Z.is_nonneg.
Qed.

(** ** The shape of a version *)

Lemma matchVersion_shape (v a b c rest : string) :
  matchVersion v = Some (a, b, c, rest) ->
  dropV v = a ++ "." ++ b ++ "." ++ c ++ rest
  /\ digitRun a /\ digitRun b /\ digitRun c /\ noDigitAhead rest.
Proof.
  unfold matchVersion, digitRun.
  pose proof (spanDigits_spec (dropV v)) as H1.
  destruct (spanDigits (dropV v)) as [d1 r1]. destruct H1 as (E1 & D1 & _).
  destruct d1 as [| x1 d1]; [ discriminate | ].
  destruct r1 as [| c1 r1]; [ discriminate | ].
  destruct (Ascii.eqb_spec c1 "."); [ subst c1 | discriminate ].
  pose proof (spanDigits_spec r1) as H2.
  destruct (spanDigits r1) as [d2 r2]. destruct H2 as (E2 & D2 & _).
  destruct d2 as [| x2 d2]; [ discriminate | ].
  destruct r2 as [| c2 r2]; [ discriminate | ].
  destruct (Ascii.eqb_spec c2 "."); [ subst c2 | discriminate ].
  pose proof (spanDigits_spec r2) as H3.
  destruct (spanDigits r2) as [d3 r3]. destruct H3 as (E3 & D3 & N3).
  destruct d3 as [| x3 d3]; [ discriminate | ].
  intros [= <- <- <- <-]. rewrite E1, E2, E3.
  repeat split; try assumption; try discriminate.
Qed.

Lemma digitRun_head (d rest : string) :
  digitRun d -> exists c t, d ++ rest = String c t /\ isDigit c = true.
Proof.
  intros [Hd Hne]. destruct d as [| c d]; [ congruence | ].
  simpl in Hd. apply andb_true_iff in Hd as [Hc _].
  exists c, (d ++ rest). split; [ reflexivity | exact Hc ].
Qed.

Lemma dropV_digits (d rest : string) : digitRun d -> dropV (d ++ rest) = d ++ rest.
Proof.
  intros Hd. destruct (digitRun_head rest Hd) as (c & t & -> & Hc).
  unfold dropV. destruct (Ascii.eqb_spec c "v"); [ subst c; discriminate | reflexivity ].
Qed.

Lemma matchVersion_digits (a b c rest : string) :
  digitRun a -> digitRun b -> digitRun c -> noDigitAhead rest ->
  matchVersion (a ++ "." ++ b ++ "." ++ c ++ rest) = Some (a, b, c, rest)
  /\ matchVersion ("v" ++ a ++ "." ++ b ++ "." ++ c ++ rest) = Some (a, b, c, rest).
Proof.
  intros Ha Hb Hc Hrest.
  assert (Hbody : forall s, dropV s = a ++ "." ++ b ++ "." ++ c ++ rest ->
                            matchVersion s = Some (a, b, c, rest)).
  { intros s Hs. unfold matchVersion. rewrite Hs.
    pose proof (spanDigits_append a ("." ++ b ++ "." ++ c ++ rest) (proj1 Ha) eq_refl) as E1.
    pose proof (spanDigits_append b ("." ++ c ++ rest) (proj1 Hb) eq_refl) as E2.
    pose proof (spanDigits_append c rest (proj1 Hc) Hrest) as E3.
    rewrite E1. simpl in E2.
    destruct a as [| xa a]; [ now destruct Ha | ]. simpl. rewrite E2.
    destruct b as [| xb b]; [ now destruct Hb | ]. simpl. rewrite E3.
    destruct c as [| xc c]; [ now destruct Hc | ]. reflexivity. }
  split; apply Hbody; [ apply dropV_digits; exact Ha | reflexivity ].
Qed.

Lemma digitRun_numberToString (n : Z) : 0 <= n -> digitRun (numberToString n).
Proof. intro Hn. exact (numberToString_digits Hn). Qed.

(** The version [incrementVersion] writes. *)
Lemma matchVersion_written (a b c : Z) :
  0 <= a -> 0 <= b -> 0 <= c ->
  let v := "v" ++ numberToString a ++ "." ++ numberToString b ++ "."
           ++ numberToString c in
  matchVersion v = Some (numberToString a, numberToString b, numberToString c, "")
  /\ parseVersion v = (a, b, c).
Proof.
  intros Ha Hb Hc v.
  assert (Hm : matchVersion v
               = Some (numberToString a, numberToString b, numberToString c, "")).
  { pose proof (@matchVersion_digits _ _ _ "" (digitRun_numberToString Ha)
                  (digitRun_numberToString Hb) (digitRun_numberToString Hc) I)
      as [_ H].
    rewrite append_nil_r in H. exact H. }
  split; [ exact Hm | ].
  unfold parseVersion. rewrite Hm. now rewrite !Number_numberToString.
Qed.

Lemma parseVersion_nonneg (v : string) :
  let '(a, b, c) := parseVersion v in 0 <= a /\ 0 <= b /\ 0 <= c.
Proof.
  unfold parseVersion. destruct (matchVersion v) as [[[[a b] c] r] |].
  - repeat split; apply Number_nonneg.
  - lia.
Qed.

(** ** Incrementing and comparing *)

Lemma compareVersions_parts (a b : string) :
  compareVersions a b
  = (let '(aMajor, aMinor, aPatch) := parseVersion a in
     let '(bMajor, bMinor, bPatch) := parseVersion b in
     if negb (aMajor =? bMajor) then aMajor - bMajor
     else if negb (aMinor =? bMinor) then aMinor - bMinor
     else aPatch - bPatch).
Proof. reflexivity. Qed.

Ltac by_components :=
  repeat match goal with
         | |- context [ ?x =? ?y ] => destruct (Z.eqb_spec x y); simpl
         | H : context [ ?x =? ?y ] |- _ => destruct (Z.eqb_spec x y); simpl in H
         end;
  try lia.

(** The version [incrementVersion] writes is valid and reads back as the
    numbers it was written from. *)
Lemma written_version (x y z : Z) :
  0 <= x -> 0 <= y -> 0 <= z ->
  let next := "v" ++ numberToString x ++ "." ++ numberToString y ++ "."
              ++ numberToString z in
  isValidVersion next = true /\ startsWithV next = true
  /\ parseVersion next = (x, y, z).
Proof.
  intros Hx Hy Hz next.
  destruct (matchVersion_written Hx Hy Hz) as [Hm Hp]. fold next in Hm, Hp.
  unfold isValidVersion. rewrite Hm. repeat split. exact Hp.
Qed.

Lemma parseVersion_matched (v a b c r : string)
    (E : matchVersion v = Some (a, b, c, r)) :
  parseVersion v = (Number a, Number b, Number c).
Proof. unfold parseVersion. now rewrite E. Qed.

(** X1.  On a version that starts with three dot-separated numbers (after an
    optional [v]), each a safe integer, [incrementVersion] returns; what it
    returns is written [v<major>.<minor>.<patch>], passes [isValidVersion],
    carries the bumped component with the lower ones reset to zero, and
    compares greater than the version it was given. *)
Theorem incrementVersion_returns_newer_valid_version
    (version : string) (type : BumpType) :
  matchVersion version <> None ->
  safeVersion version ->
  exists next,
    incrementVersion version type = Returned next
    /\ isValidVersion next = true
    /\ startsWithV next = true
    /\ parseVersion next
       = (let '(major, minor, patch) := parseVersion version in
          match type with
          | bump_major => (major + 1, 0, 0)
          | bump_minor => (major, minor + 1, 0)
          | bump_patch => (major, minor, patch + 1)
          end)
    /\ compareVersions next version > 0.
Proof.
  intros Hmatch _.
  destruct (matchVersion version) as [[[[a b] c] r] |] eqn:E; [ | congruence ].
  pose proof (parseVersion_matched _ E) as Hversion.
  pose proof (Number_nonneg a) as Ha. pose proof (Number_nonneg b) as Hb.
  pose proof (Number_nonneg c) as Hc.
  unfold incrementVersion. rewrite E, Hversion.
  destruct type; eexists; (split; [ reflexivity | ]).
  - destruct (@written_version (Number a + 1) 0 0) as (Hv & Hs & Hp); try lia.
    repeat split; try assumption.
    rewrite compareVersions_parts, Hp, Hversion. by_components.
  - destruct (@written_version (Number a) (Number b + 1) 0) as (Hv & Hs & Hp); try lia.
    repeat split; try assumption.
    rewrite compareVersions_parts, Hp, Hversion. by_components.
  - destruct (@written_version (Number a) (Number b) (Number c + 1)) as (Hv & Hs & Hp);
      try lia.
    repeat split; try assumption.
    rewrite compareVersions_parts, Hp, Hversion. by_components.
Qed.

(** Witness of X1: the patch bump of [v0.1.9], which has to carry into a
    second digit. *)
Lemma incrementVersion_returns_newer_valid_version_witness :
  exists next,
    incrementVersion "v0.1.9" bump_patch = Returned next
    /\ isValidVersion next = true
    /\ startsWithV next = true
    /\ parseVersion next = (0, 1, 10)
    /\ compareVersions next "v0.1.9" > 0.
Proof.
  apply (@incrementVersion_returns_newer_valid_version "v0.1.9" bump_patch).
  - discriminate.
  - vm_compute. repeat split; discriminate.
Defined.

Lemma isValidVersion_matches (v : string) :
  isValidVersion v = true -> matchVersion v <> None.
Proof. unfold isValidVersion. destruct (matchVersion v); [ discriminate | discriminate ]. Qed.

(** X2.  [getNextVersion] never throws.  Without a current version, or with
    one that is empty or not a valid version, it returns [v0.0.1]; with a
    valid one whose components are safe integers it returns a valid version
    that compares greater. *)
Theorem getNextVersion_never_throws (currentVersion : option string) (type : BumpType) :
  (forall v, currentVersion = Some v -> safeVersion v) ->
  exists next,
    getNextVersion currentVersion type = Returned next
    /\ isValidVersion next = true
    /\ match currentVersion with
       | Some v =>
           if isValidVersion v then compareVersions next v > 0
           else next = "v0.0.1"
       | None => next = "v0.0.1"
       end.
Proof.
  intros Hsafe. destruct currentVersion as [v |]; simpl.
  - destruct (isValidVersion v) eqn:Hvalid.
    + assert (Hne : truthyString v = true).
      { destruct v; [ discriminate Hvalid | reflexivity ]. }
      rewrite Hne. simpl.
      destruct (matchVersion v) as [[[[a b] c] r] |] eqn:E;
        [ | now apply isValidVersion_matches in Hvalid ].
      pose proof (parseVersion_matched _ E) as Hversion.
      pose proof (Number_nonneg a) as Ha. pose proof (Number_nonneg b) as Hb.
      pose proof (Number_nonneg c) as Hc.
      unfold incrementVersion. rewrite E.
      assert (Hgreater : forall x y z, 0 <= x -> 0 <= y -> 0 <= z ->
                (Number a < x \/ Number a = x /\ (Number b < y
                                                  \/ Number b = y /\ Number c < z)) ->
                let next := "v" ++ numberToString x ++ "." ++ numberToString y ++ "."
                            ++ numberToString z in
                isValidVersion next = true /\ compareVersions next v > 0).
      { intros x y z Hx Hy Hz Hlex next.
        destruct (written_version Hx Hy Hz) as (Hv & _ & Hp). fold next in Hv, Hp.
        split; [ exact Hv | ].
        rewrite compareVersions_parts, Hp, Hversion. by_components. }
      destruct type; eexists; (split; [ reflexivity | ]); apply Hgreater; lia.
    + rewrite orb_true_r. exists "v0.0.1". repeat split.
  - exists "v0.0.1". repeat split.
Qed.

(** Witness of X2: a minor bump of a version with a pre-release suffix. *)
Lemma getNextVersion_never_throws_witness :
  exists next,
    getNextVersion (Some "1.4.2-rc.1") bump_minor = Returned next
    /\ isValidVersion next = true
    /\ compareVersions next "1.4.2-rc.1" > 0.
Proof.
  apply (@getNextVersion_never_throws (Some "1.4.2-rc.1") bump_minor).
  intros v [= <-]. vm_compute. repeat split; discriminate.
Defined.

(** X3.  On versions whose components are safe integers [compareVersions]
    is an order on the three numbers: a version compares equal to itself,
    swapping the arguments negates the result, the comparison is transitive,
    and the result is zero exactly when the three numbers are the same,
    whatever the [v] prefix and the text after the third number. *)
Theorem compareVersions_orders_by_components (a b c : string) :
  safeVersion a -> safeVersion b -> safeVersion c ->
  compareVersions a a = 0
  /\ compareVersions a b = - compareVersions b a
  /\ (compareVersions a b <= 0 -> compareVersions b c <= 0 -> compareVersions a c <= 0)
  /\ (compareVersions a b = 0 <-> parseVersion a = parseVersion b).
Proof.
  intros _ _ _. rewrite !compareVersions_parts.
  destruct (parseVersion a) as [[a1 a2] a3].
  destruct (parseVersion b) as [[b1 b2] b3].
  destruct (parseVersion c) as [[c1 c2] c3].
  split; [ | split; [ | split ] ].
  - rewrite !Z.eqb_refl. simpl. lia.
  - by_components.
  - by_components.
  - split.
    + intro H. by_components. repeat f_equal; lia.
    + intros [= -> -> ->]. rewrite !Z.eqb_refl. simpl. lia.
Qed.

Lemma compareVersions_orders_by_components_witness :
  compareVersions "v1.2.3" "1.02.3-beta" = 0
  /\ (compareVersions "0.9.9" "v1.2.3" <= 0 -> compareVersions "v1.2.3" "v1.10.0" <= 0 ->
      compareVersions "0.9.9" "v1.10.0" <= 0).
Proof.
  assert (Hsafe : safeVersion "v1.2.3" /\ safeVersion "1.02.3-beta"
                  /\ safeVersion "0.9.9" /\ safeVersion "v1.10.0")
    by (vm_compute; repeat split; discriminate).
  destruct Hsafe as (H1 & H2 & H3 & H4).
  split.
  - apply (proj2 (proj2 (proj2 (@compareVersions_orders_by_components "v1.2.3" "1.02.3-beta" "v1.2.3" H1 H2 H1)))).
    reflexivity.
  - exact (proj1 (proj2 (proj2 (@compareVersions_orders_by_components "0.9.9" "v1.2.3" "v1.10.0" H3 H1 H4)))).
Defined.

(** ** Tags of image references *)

Lemma allChars_append (p : ascii -> bool) (s t : string) :
  allChars p (s ++ t) = allChars p s && allChars p t.
Proof.
  induction s as [| c s IH]; simpl; [ reflexivity | ].
  now rewrite IH, andb_assoc.
Qed.

Lemma allChars_weaken (p q : ascii -> bool) (s : string) :
  (forall c, p c = true -> q c = true) -> allChars p s = true -> allChars q s = true.
Proof.
  intros Hpq. induction s as [| c s IH]; simpl; [ reflexivity | ].
  intros H. apply andb_true_iff in H as [Hc Hs].
  now rewrite (Hpq _ Hc), (IH Hs).
Qed.

Lemma afterLastColon_append (repo tag : string) :
  tag <> EmptyString -> allChars notColon tag = true ->
  afterLastColon (repo ++ ":" ++ tag) = Some tag.
Proof.
  intros Hne Hnc.
  assert (Htag : afterLastColon tag = None).
  { clear Hne. induction tag as [| c t IH]; simpl; [ reflexivity | ].
    simpl in Hnc. apply andb_true_iff in Hnc as [Hc Ht]. rewrite (IH Ht).
    unfold notColon in Hc. apply negb_true_iff in Hc. now rewrite Hc. }
  induction repo as [| c repo IH]; simpl.
  - rewrite Htag, Hnc.
    destruct tag; [ congruence | reflexivity ].
  - simpl in IH. now rewrite IH.
Qed.

Lemma afterLastColon_sound (s tag : string) :
  afterLastColon s = Some tag ->
  exists repo, s = repo ++ ":" ++ tag.
Proof.
  revert tag. induction s as [| c s IH]; simpl; intros tag; [ discriminate | ].
  destruct (afterLastColon s) as [t |].
  - intros [= <-]. destruct (IH t eq_refl) as [repo ->].
    exists (String c repo). reflexivity.
  - destruct (Ascii.eqb_spec c ":"); simpl; [ subst c | discriminate ].
    destruct (truthyString s && _)%bool; [ | discriminate ].
    intros [= <-]. exists EmptyString. reflexivity.
Qed.

(** A valid version is not empty and holds no colon. *)
Lemma valid_version_no_colon (v : string) :
  isValidVersion v = true -> v <> EmptyString /\ allChars notColon v = true.
Proof.
  intros Hvalid. split; [ intros ->; discriminate Hvalid | ].
  unfold isValidVersion in Hvalid.
  destruct (matchVersion v) as [[[[a b] c] rest] |] eqn:E; [ | discriminate ].
  destruct (matchVersion_shape _ E) as (Hshape & [Ha _] & [Hb _] & [Hc _] & _).
  assert (Hdigit : forall x, isDigit x = true -> notColon x = true).
  { intros x Hx. unfold notColon. destruct (Ascii.eqb_spec x ":"); [ subst x | ]; easy. }
  assert (Hbody : allChars notColon (dropV v) = true).
  { rewrite Hshape, !allChars_append.
    rewrite (@allChars_weaken isDigit notColon a Hdigit Ha),
      (@allChars_weaken isDigit notColon b Hdigit Hb),
      (@allChars_weaken isDigit notColon c Hdigit Hc). simpl.
    destruct rest as [| x w]; [ reflexivity | ]. simpl in Hvalid |- *.
    apply andb_true_iff in Hvalid as [Hx Hw].
    apply andb_true_iff in Hx as [Hx _].
    apply Ascii.eqb_eq in Hx. subst x. simpl.
    apply (@allChars_weaken (fun x => isWordChar x || Ascii.eqb x ".")%bool notColon);
      [ | exact Hw ].
    intros x Hx. unfold notColon. destruct (Ascii.eqb_spec x ":"); [ subst x | ]; easy. }
  unfold dropV in Hbody. destruct v as [| x v]; [ reflexivity | ].
  destruct (Ascii.eqb_spec x "v"); [ subst x; simpl; exact Hbody | exact Hbody ].
Qed.

(** X4.  The tag [getImageTag] writes is the tag [parseVersionFromImageUri]
    reads: for a valid version, parsing the image reference built from a
    registry, an image name and that version gives the version back, whatever
    the registry address and the image name contain. *)
Theorem parseVersionFromImageUri_reads_getImageTag
    (registry : Config.Registry) (imageName version : string) :
  isValidVersion version = true ->
  parseVersionFromImageUri (Config.getImageTag registry imageName version)
  = Some version.
Proof.
  intros Hvalid. destruct (valid_version_no_colon _ Hvalid) as [Hne Hnc].
  unfold Config.getImageTag.
  assert (Hsplit : Config.url registry ++ "/" ++ Config.namespace registry ++ "/"
                   ++ imageName ++ ":" ++ version
                   = (Config.url registry ++ "/" ++ Config.namespace registry ++ "/"
                      ++ imageName) ++ ":" ++ version).
  { now rewrite !append_assoc. }
  rewrite Hsplit. unfold parseVersionFromImageUri.
  rewrite (afterLastColon_append _ Hne Hnc), Hvalid. reflexivity.
Qed.

Lemma parseVersionFromImageUri_reads_getImageTag_witness :
  parseVersionFromImageUri
    (Config.getImageTag {| Config.url := "registry.local:5000"; Config.namespace := "team" |}
                        "api" "v0.1.6-rc.2")
  = Some "v0.1.6-rc.2".
Proof.
  apply parseVersionFromImageUri_reads_getImageTag. reflexivity.
Defined.

(** X5.  [parseVersionFromImageUri] returns a tag exactly when the reference
    ends with a colon followed by that tag and the tag is a valid version; in
    particular a reference without a colon, one that ends with a colon, and
    one whose last colon belongs to a registry port give [null]. *)
Theorem parseVersionFromImageUri_returns_the_valid_tag (imageUri tag : string) :
  parseVersionFromImageUri imageUri = Some tag
  <-> isValidVersion tag = true /\ exists repo, imageUri = repo ++ ":" ++ tag.
Proof.
  unfold parseVersionFromImageUri. split.
  - destruct (afterLastColon imageUri) as [t |] eqn:E; [ | discriminate ].
    destruct (isValidVersion t) eqn:Hvalid; [ | discriminate ].
    intros [= <-]. split; [ exact Hvalid | ].
    exact (afterLastColon_sound _ E).
  - intros [Hvalid [repo ->]].
    destruct (valid_version_no_colon _ Hvalid) as [Hne Hnc].
    rewrite (afterLastColon_append _ Hne Hnc), Hvalid. reflexivity.
Qed.

(** X6.  [normalizeVersion] leaves a version that starts with [v] as it is
    and puts a [v] before any other; applying it twice is applying it once,
    and on a valid version the result is valid, starts with [v] and has the
    same three numbers. *)
Theorem normalizeVersion_keeps_the_version (version : string) :
  normalizeVersion (normalizeVersion version) = normalizeVersion version
  /\ startsWithV (normalizeVersion version) = true
  /\ (isValidVersion version = true ->
      isValidVersion (normalizeVersion version) = true
      /\ parseVersion (normalizeVersion version) = parseVersion version
      /\ compareVersions (normalizeVersion version) version = 0).
Proof.
  assert (Hstarts : startsWithV (normalizeVersion version) = true).
  { unfold normalizeVersion. destruct (startsWithV version) eqn:E; [ exact E | reflexivity ]. }
  split; [ | split; [ exact Hstarts | ] ].
  - unfold normalizeVersion at 1. now rewrite Hstarts.
  - intros Hvalid.
    assert (Hmatch : matchVersion (normalizeVersion version) = matchVersion version).
    { unfold normalizeVersion. destruct (startsWithV version) eqn:E; [ reflexivity | ].
      unfold matchVersion. f_equal.
      destruct version as [| x v]; [ discriminate Hvalid | ].
      simpl in E. simpl. now rewrite E. }
    assert (Hparse : parseVersion (normalizeVersion version) = parseVersion version).
    { unfold parseVersion. now rewrite Hmatch. }
    split; [ | split; [ exact Hparse | ] ].
    + unfold isValidVersion in *. now rewrite Hmatch.
    + rewrite compareVersions_parts, Hparse.
      destruct (parseVersion version) as [[a b] c]. rewrite !Z.eqb_refl. simpl. lia.
Qed.

(* ===================================================================== *)
(** * Properties of the search for the newest tag *)
(* ===================================================================== *)

Lemma insertBy_perm (compare : string -> string -> Z) (x : string) (l : list string) :
  Permutation (insertBy compare x l) (x :: l).
Proof.
  induction l as [| y l IH]; simpl; [ apply Permutation_refl | ].
  destruct (compare x y <=? 0); [ apply Permutation_refl | ].
  eapply Permutation_trans; [ apply perm_skip, IH | apply perm_swap ].
Qed.

Lemma sortBy_perm (compare : string -> string -> Z) (l : list string) :
  Permutation (sortBy compare l) l.
Proof.
  induction l as [| x l IH]; simpl; [ apply perm_nil | ].
  eapply Permutation_trans; [ apply insertBy_perm | apply perm_skip, IH ].
Qed.

(** The first element of a sorted list is before every other, when the
    comparison is total and transitive on the elements. *)
Lemma sortBy_head (compare : string -> string -> Z) (P : string -> Prop)
    (l : list string) :
  (forall x y, P x -> P y -> compare x y <= 0 \/ compare y x <= 0) ->
  (forall x y z, P x -> P y -> P z ->
     compare x y <= 0 -> compare y z <= 0 -> compare x z <= 0) ->
  Forall P l ->
  match sortBy compare l with
  | [] => l = []
  | h :: _ => forall y, In y l -> compare h y <= 0
  end.
Proof.
  intros Htotal Htrans. induction l as [| x l IH]; intros Hall; [ reflexivity | ].
  inversion Hall as [| ? ? Hx Hl]; subst. specialize (IH Hl). simpl.
  pose proof (sortBy_perm compare l) as Hperm.
  destruct (sortBy compare l) as [| h rest] eqn:E.
  - subst l. simpl. intros y [<- | []].
    destruct (Htotal x x Hx Hx); assumption.
  - assert (Hh : P h).
    { rewrite Forall_forall in Hl. apply Hl.
      apply (Permutation_in h Hperm). now left. }
    assert (Hxx : compare x x <= 0) by (destruct (Htotal x x Hx Hx); assumption).
    simpl. destruct (Z.leb_spec (compare x h) 0) as [Hle | Hgt].
    + intros y [<- | Hy]; [ exact Hxx | ].
      apply (Htrans x h y); try assumption.
      * rewrite Forall_forall in Hl. now apply Hl.
      * now apply IH.
    + intros y [<- | Hy]; [ | now apply IH ].
      destruct (Htotal x h Hx Hh); [ lia | assumption ].
Qed.

Lemma isReleaseTag_matched (tag : string) :
  isReleaseTag tag = true ->
  exists a b c, matchVersion tag = Some (a, b, c, EmptyString).
Proof.
  unfold isReleaseTag. destruct (matchVersion tag) as [[[[a b] c] r] |]; [ | discriminate ].
  destruct r; [ | discriminate ]. intros _. now exists a, b, c.
Qed.

Lemma isReleaseTag_valid (tag : string) :
  isReleaseTag tag = true -> isValidVersion tag = true.
Proof.
  intros H. destruct (isReleaseTag_matched _ H) as (a & b & c & E).
  unfold isValidVersion. now rewrite E.
Qed.

(** On tags that passed the filter, the comparison function of the sort is
    [compareVersions] with its arguments swapped. *)
Lemma newestFirst_release (a b : string) :
  isReleaseTag a = true -> isReleaseTag b = true ->
  newestFirst a b = compareVersions b a.
Proof.
  intros Ha Hb.
  destruct (isReleaseTag_matched _ Ha) as (a1 & a2 & a3 & Ea).
  destruct (isReleaseTag_matched _ Hb) as (b1 & b2 & b3 & Eb).
  unfold newestFirst. rewrite compareVersions_parts.
  rewrite (parseVersion_matched _ Ea), (parseVersion_matched _ Eb), Ea, Eb.
  by_components.
Qed.

Lemma findLatestVersion_head (tags : list string) :
  match sortBy newestFirst (filter isReleaseTag tags) with
  | [] => forall t, In t tags -> isReleaseTag t = false
  | latest :: _ =>
      findLatestVersion tags = Some latest
      /\ In latest tags /\ isReleaseTag latest = true
      /\ forall t, In t tags -> isReleaseTag t = true -> compareVersions t latest <= 0
  end.
Proof.
  pose proof (sortBy_perm newestFirst (filter isReleaseTag tags)) as Hperm.
  assert (Hhead := @sortBy_head newestFirst (fun t => isReleaseTag t = true)
                     (filter isReleaseTag tags)).
  unfold findLatestVersion.
  destruct (sortBy newestFirst (filter isReleaseTag tags)) as [| latest rest].
  - apply Permutation_nil in Hperm.
    intros t Ht. destruct (isReleaseTag t) eqn:E; [ | reflexivity ].
    assert (Hin : In t (filter isReleaseTag tags)) by (apply filter_In; now split).
    rewrite Hperm in Hin. destruct Hin.
  - assert (Hlatest : In latest (filter isReleaseTag tags)).
    { apply (Permutation_in latest Hperm). now left. }
    apply filter_In in Hlatest as [Hin Hrel].
    assert (Hne : truthyString latest = true).
    { destruct latest; [ discriminate Hrel | reflexivity ]. }
    rewrite Hne. repeat split; try assumption.
    intros t Ht Htrel. rewrite <- (newestFirst_release _ _ Hrel Htrel).
    apply Hhead.
    + intros x y Hx Hy. rewrite (newestFirst_release _ _ Hx Hy), (newestFirst_release _ _ Hy Hx).
      rewrite !compareVersions_parts.
      destruct (parseVersion x) as [[x1 x2] x3]. destruct (parseVersion y) as [[y1 y2] y3].
      by_components.
    + intros x y z Hx Hy Hz.
      rewrite (newestFirst_release _ _ Hx Hy), (newestFirst_release _ _ Hy Hz),
        (newestFirst_release _ _ Hx Hz).
      rewrite !compareVersions_parts.
      destruct (parseVersion x) as [[x1 x2] x3]. destruct (parseVersion y) as [[y1 y2] y3].
      destruct (parseVersion z) as [[z1 z2] z3].
      by_components.
    + apply Forall_forall. intros x Hx. now apply filter_In in Hx.
    + apply filter_In. now split.
Qed.

(** X7.  What [findLatestVersion] returns is one of the tags it was given, is
    written [<major>.<minor>.<patch>] with an optional [v] and nothing after
    it, and no tag of that form in the list compares greater, the three
    numbers of every tag being safe integers. *)
Theorem findLatestVersion_returns_the_newest_release_tag
    (tags : list string) (latest : string) :
  (forall t, In t tags -> safeVersion t) ->
  findLatestVersion tags = Some latest ->
  In latest tags
  /\ isReleaseTag latest = true
  /\ (forall t, In t tags -> isReleaseTag t = true -> compareVersions t latest <= 0).
Proof.
  intros _ Hlatest. pose proof (findLatestVersion_head tags) as Hhead.
  destruct (sortBy newestFirst (filter isReleaseTag tags)) as [| h rest] eqn:E.
  - unfold findLatestVersion in Hlatest. rewrite E in Hlatest. discriminate.
  - destruct Hhead as (Hh & Hin & Hrel & Hmax).
    rewrite Hh in Hlatest. injection Hlatest as <-.
    repeat split; assumption.
Qed.

Lemma findLatestVersion_returns_the_newest_release_tag_witness :
  In "0.1.10" [ "v0.1.9"; "latest"; "0.1.10"; "v0.1.10-rc" ]
  /\ isReleaseTag "0.1.10" = true
  /\ (forall t, In t [ "v0.1.9"; "latest"; "0.1.10"; "v0.1.10-rc" ] ->
      isReleaseTag t = true -> compareVersions t "0.1.10" <= 0).
Proof.
  apply (@findLatestVersion_returns_the_newest_release_tag
           [ "v0.1.9"; "latest"; "0.1.10"; "v0.1.10-rc" ] "0.1.10").
  - intros t Ht. repeat (destruct Ht as [<- | Ht]; [ vm_compute; repeat split; discriminate | ]).
    destruct Ht.
  - reflexivity.
Defined.

(** X8.  [findLatestVersion] returns [null] exactly when no tag is written
    [<major>.<minor>.<patch>] with an optional [v] before and nothing after:
    the empty list, and a list of tags such as [latest] or pre-release
    versions, have no latest version. *)
Theorem findLatestVersion_null_without_release_tag (tags : list string) :
  findLatestVersion tags = None <-> Forall (fun t => isReleaseTag t = false) tags.
Proof.
  pose proof (findLatestVersion_head tags) as Hhead.
  rewrite Forall_forall.
  destruct (sortBy newestFirst (filter isReleaseTag tags)) as [| h rest] eqn:E.
  - split; [ intros _; exact Hhead | ].
    intros _. unfold findLatestVersion. now rewrite E.
  - destruct Hhead as (Hh & Hin & Hrel & _). rewrite Hh. split; [ discriminate | ].
    intros Hnone. rewrite (Hnone _ Hin) in Hrel. discriminate.
Qed.

(** X9.  The automatic version bump: the next version computed from the
    tags of a registry is returned without an exception, is a valid version,
    and compares greater than every tag of the list that is written
    [<major>.<minor>.<patch>]; from a list without such a tag it is
    [v0.0.1]. *)
Theorem next_version_is_newer_than_every_release_tag
    (tags : list string) (type : BumpType) :
  (forall t, In t tags -> safeVersion t) ->
  exists next,
    getNextVersion (findLatestVersion tags) type = Returned next
    /\ isValidVersion next = true
    /\ (forall t, In t tags -> isReleaseTag t = true -> compareVersions next t > 0)
    /\ (Forall (fun t => isReleaseTag t = false) tags -> next = "v0.0.1").
Proof.
  intros _. pose proof (findLatestVersion_head tags) as Hhead.
  destruct (sortBy newestFirst (filter isReleaseTag tags)) as [| latest rest] eqn:E.
  - assert (Hnone : findLatestVersion tags = None).
    { unfold findLatestVersion. now rewrite E. }
    rewrite Hnone. exists "v0.0.1". repeat split.
    intros t Ht Hrel. rewrite (Hhead t Ht) in Hrel. discriminate.
  - destruct Hhead as (Hh & Hin & Hrel & Hmax). rewrite Hh. simpl.
    pose proof (isReleaseTag_valid _ Hrel) as Hvalid. rewrite Hvalid.
    assert (Hne : truthyString latest = true).
    { destruct latest; [ discriminate Hrel | reflexivity ]. }
    rewrite Hne. simpl.
    destruct (matchVersion latest) as [[[[a b] c] r] |] eqn:Em;
      [ | now apply isValidVersion_matches in Hvalid ].
    pose proof (parseVersion_matched _ Em) as Hparse.
    pose proof (Number_nonneg a) as Ha. pose proof (Number_nonneg b) as Hb.
    pose proof (Number_nonneg c) as Hc.
    unfold incrementVersion. rewrite Em.
    assert (Hnewer : forall x y z, 0 <= x -> 0 <= y -> 0 <= z ->
              (Number a < x \/ Number a = x /\ (Number b < y
                                                \/ Number b = y /\ Number c < z)) ->
              let next := "v" ++ numberToString x ++ "." ++ numberToString y ++ "."
                          ++ numberToString z in
              isValidVersion next = true
              /\ (forall t, In t tags -> isReleaseTag t = true ->
                  compareVersions next t > 0)
              /\ (Forall (fun t => isReleaseTag t = false) tags -> next = "v0.0.1")).
    { intros x y z Hx Hy Hz Hlex next.
      destruct (written_version Hx Hy Hz) as (Hv & _ & Hp). fold next in Hv, Hp.
      split; [ exact Hv | split ].
      - intros t Ht Htrel. specialize (Hmax t Ht Htrel).
        rewrite compareVersions_parts in Hmax |- *. rewrite Hparse in Hmax. rewrite Hp.
        destruct (parseVersion t) as [[t1 t2] t3]. by_components.
      - intros Hnone. rewrite Forall_forall in Hnone.
        rewrite (Hnone _ Hin) in Hrel. discriminate. }
    destruct type; eexists; (split; [ reflexivity | ]); apply Hnewer; lia.
Qed.

Lemma next_version_is_newer_than_every_release_tag_witness :
  exists next,
    getNextVersion (findLatestVersion [ "v0.1.9"; "latest"; "0.1.10" ]) bump_patch
    = Returned next
    /\ isValidVersion next = true
    /\ (forall t, In t [ "v0.1.9"; "latest"; "0.1.10" ] -> isReleaseTag t = true ->
        compareVersions next t > 0)
    /\ (Forall (fun t => isReleaseTag t = false) [ "v0.1.9"; "latest"; "0.1.10" ] ->
        next = "v0.0.1").
Proof.
  apply (@next_version_is_newer_than_every_release_tag
           [ "v0.1.9"; "latest"; "0.1.10" ] bump_patch).
  intros t Ht. repeat (destruct Ht as [<- | Ht]; [ vm_compute; repeat split; discriminate | ]).
  destruct Ht.
Defined.

(* ===================================================================== *)
(** * Further properties of the control-plane client *)
(* ===================================================================== *)

(** ** Polls of any length *)

Lemma seesPending_tail (env : Env) (pending : Json -> Prop) (w : World)
    (s : Json) (rest : list Json) :
  seesPending env pending w (s :: rest) ->
  repliesWith (fetchReply env (fetches w)) s /\ pending s
  /\ seesPending env pending (afterPoll w) rest.
Proof.
  intros H. destruct (H 0%nat s eq_refl) as [Hr Hp].
  split; [ exact Hr | split; [ exact Hp | ] ].
  intros k s' Hk. cbn [afterPoll afterRequest afterNow fetches].
  rewrite Nat.add_succ_r. exact (H (S k) s' Hk).
Qed.

Lemma withinTimeout_tail (env : Env) (start limit : Z) (w : World) (n : nat) :
  withinTimeout env start limit w (S n) ->
  dateNow env (nowReads w) - start < limit
  /\ withinTimeout env start limit (afterPoll w) n.
Proof.
  intros H. split.
  - apply (H 0%nat). lia.
  - intros k Hk. specialize (H (S k)). cbn [afterPoll afterRequest afterNow nowReads].
    rewrite Nat.add_succ_r. apply H. lia.
Qed.

(** The rounds of the release poll that see statuses other than [done] and
    [failed]. *)
Lemma releaseLoop_rounds (env : Env) (client : FaaSClient) (functionId : string)
    (options : WaitOptions) (limit pause start : Z) (fuel : nat)
    (pendings : list Json) (w : World) :
  withinTimeout env start limit w (length pendings) ->
  seesPending env releasePending w pendings ->
  releaseLoop env (length pendings + fuel) client functionId limit pause
              (onProgress options) start w
  = after (pollRounds env client "GetReleaseStatus" (releaseStatusParams functionId)
                      options pause w pendings)
          (releaseLoop env fuel client functionId limit pause (onProgress options) start
                       (afterPolls (length pendings) w)).
Proof.
  revert w. induction pendings as [| s rest IH]; intros w Htime Hsees.
  - cbn [length Nat.add pollRounds afterPolls]. now rewrite after_nil.
  - apply withinTimeout_tail in Htime as [Hnow Htime].
    apply seesPending_tail in Hsees as (Hreply & [Hdone Hfailed] & Hsees).
    cbn [length Nat.add]. rewrite releaseLoop_step.
    apply Z.ltb_lt in Hnow. rewrite Hnow.
    rewrite (@getReleaseStatus_returns env client functionId (afterNow w) s Hreply).
    cbv zeta. rewrite Hdone, Hfailed.
    fold (afterPoll w). rewrite (IH (afterPoll w) Htime Hsees).
    cbn [pollRounds afterPolls].
    destruct (releaseLoop env fuel client functionId limit pause (onProgress options)
                          start (afterPolls (length rest) (afterPoll w)))
      as [[evs2 w2] r].
    unfold after, progress. cbn [app]. now rewrite <- app_assoc.
Qed.

(** The rounds of the image-sync poll that see statuses other than
    [Succeeded], [Failed] and [Canceled]. *)
Lemma imageSyncLoop_rounds (env : Env) (client : FaaSClient)
    (functionId imageUri : string)
    (options : WaitOptions) (limit pause start : Z) (fuel : nat)
    (pendings : list Json) (w : World) :
  withinTimeout env start limit w (length pendings) ->
  seesPending env imageSyncPending w pendings ->
  imageSyncLoop env (length pendings + fuel) client functionId imageUri limit pause
                (onProgress options) start w
  = after (pollRounds env client "GetImageSyncStatus"
                      (imageSyncParams functionId imageUri) options pause w pendings)
          (imageSyncLoop env fuel client functionId imageUri limit pause
                         (onProgress options) start (afterPolls (length pendings) w)).
Proof.
  revert w. induction pendings as [| s rest IH]; intros w Htime Hsees.
  - cbn [length Nat.add pollRounds afterPolls]. now rewrite after_nil.
  - apply withinTimeout_tail in Htime as [Hnow Htime].
    apply seesPending_tail in Hsees as (Hreply & (H1 & H2 & H3) & Hsees).
    cbn [length Nat.add]. rewrite imageSyncLoop_step.
    apply Z.ltb_lt in Hnow. rewrite Hnow.
    rewrite (@getImageSyncStatus_returns env client functionId imageUri (afterNow w) s
               Hreply).
    cbv zeta. rewrite H1, H2, H3. cbn [orb].
    fold (afterPoll w). rewrite (IH (afterPoll w) Htime Hsees).
    cbn [pollRounds afterPolls].
    destruct (imageSyncLoop env fuel client functionId imageUri limit pause
                            (onProgress options) start
                            (afterPolls (length rest) (afterPoll w)))
      as [[evs2 w2] r].
    unfold after, progress. cbn [app]. now rewrite <- app_assoc.
Qed.

Lemma afterPolls_counts (n : nat) (w : World) :
  nowReads (afterPolls n w) = (n + nowReads w)%nat
  /\ fetches (afterPolls n w) = (n + fetches w)%nat
  /\ spawns (afterPolls n w) = spawns w.
Proof.
  revert w. induction n as [| n IH]; intro w; [ repeat split | ].
  cbn [afterPolls]. destruct (IH (afterPoll w)) as (H1 & H2 & H3).
  rewrite H1, H2, H3. cbn [afterPoll afterRequest afterNow nowReads fetches spawns].
  repeat split; lia.
Qed.

(** X10.  However many statuses that are not terminal the two polls see
    first, they return at the first [Succeeded] (image sync) or [done]
    (release), the timeout not having run out when each round starts: having
    made one request per status seen, called the progress callback once per
    status, and slept once after each status but the last. *)
Theorem polls_return_at_the_first_terminal_success
    (env : Env) (fuel : nat) (client : FaaSClient) (functionId imageUri : string)
    (options : WaitOptions) (w : World) (pendings : list Json) (final : Json) :
  let n := length pendings in
  let start := dateNow env (nowReads w) in
  let last := afterPolls n (afterNow w) in
  (n < fuel)%nat ->
  repliesWith (fetchReply env (n + fetches w)) final ->
  (withinTimeout env start (withDefault (timeout options) 300000) (afterNow w) (S n) ->
   seesPending env imageSyncPending w pendings ->
   stringField final "Status" = Some "Succeeded" ->
   waitForImageSync env fuel client functionId imageUri options w
   = ((pollRounds env client "GetImageSyncStatus" (imageSyncParams functionId imageUri)
                  options (withDefault (interval options) 5000) (afterNow w) pendings
       ++ requestFetch env client "GetImageSyncStatus"
            (imageSyncParams functionId imageUri) (afterNow last)
       :: progress options final)%list,
      afterPoll last, Returned tt))
  /\ (withinTimeout env start (withDefault (timeout options) 300000) (afterNow w) (S n) ->
      seesPending env releasePending w pendings ->
      stringField final "Status" = Some "done" ->
      waitForRelease env fuel client functionId options w
      = ((pollRounds env client "GetReleaseStatus" (releaseStatusParams functionId)
                     options (withDefault (interval options) 3000) (afterNow w) pendings
          ++ requestFetch env client "GetReleaseStatus"
               (releaseStatusParams functionId) (afterNow last)
          :: progress options final)%list,
         afterPoll last, Returned tt))
  /\ fetches (afterPoll last) = (S n + fetches w)%nat.
Proof.
  intros n start last Hfuel Hfinal.
  destruct (afterPolls_counts n (afterNow w)) as (Hnow & Hfetches & _).
  fold last in Hnow, Hfetches.
  assert (Hsplit : fuel = (length pendings + S (fuel - S n))%nat) by (unfold n in *; lia).
  assert (Hreply : repliesWith (fetchReply env (fetches (afterNow last))) final).
  { cbn [afterNow fetches]. rewrite Hfetches. exact Hfinal. }
  split; [ | split ].
  - intros Htime Hsees Hstatus.
    unfold waitForImageSync. unfold bind at 1. unfold now at 1. fold (afterNow w).
    fold start. rewrite Hsplit.
    rewrite (@imageSyncLoop_rounds env client functionId imageUri options _ _ start
               (S (fuel - S n)) pendings (afterNow w));
      [ | intros k Hk; apply Htime; lia | exact Hsees ].
    fold n. fold last. rewrite imageSyncLoop_step.
    assert (Hin : (dateNow env (nowReads last) - start
                   <? withDefault (timeout options) 300000) = true).
    { apply Z.ltb_lt. rewrite Hnow. apply (Htime n). lia. }
    rewrite Hin.
    rewrite (@getImageSyncStatus_returns env client functionId imageUri (afterNow last)
               final Hreply).
    cbv zeta. rewrite Hstatus. cbn [isString String.eqb Ascii.eqb Bool.eqb andb].
    unfold after, progress. cbn [app]. reflexivity.
  - intros Htime Hsees Hstatus.
    unfold waitForRelease. unfold bind at 1. unfold now at 1. fold (afterNow w).
    fold start. rewrite Hsplit.
    rewrite (@releaseLoop_rounds env client functionId options _ _ start
               (S (fuel - S n)) pendings (afterNow w));
      [ | intros k Hk; apply Htime; lia | exact Hsees ].
    fold n. fold last. rewrite releaseLoop_step.
    assert (Hin : (dateNow env (nowReads last) - start
                   <? withDefault (timeout options) 300000) = true).
    { apply Z.ltb_lt. rewrite Hnow. apply (Htime n). lia. }
    rewrite Hin.
    rewrite (@getReleaseStatus_returns env client functionId (afterNow last) final Hreply).
    cbv zeta. rewrite Hstatus. cbn [isString String.eqb Ascii.eqb Bool.eqb andb].
    unfold after, progress. cbn [app]. reflexivity.
  - cbn [afterPoll afterRequest afterNow fetches]. rewrite Hfetches.
    cbn [afterNow fetches]. reflexivity.
Qed.

(** Witness of X10: the release poll sees [pending], [inprogress],
    [inprogress] and then [done], on a clock that advances by one second at
    each reading. *)
Lemma polls_return_at_the_first_terminal_success_witness :
  let env := pollEnv [ "pending"; "inprogress"; "inprogress" ] "done"
                     (fun n => 1000 * Z.of_nat n) in
  exists evs w',
    waitForRelease env 5 sampleClient "fn-api" noWaitOptions world0
    = (evs, w', Returned tt)
    /\ fetches w' = 4%nat
    /\ filter (fun e => match e with Sleep _ => true | _ => false end) evs
       = [ Sleep 3000; Sleep 3000; Sleep 3000 ].
Proof.
  intros env.
  pose (pendings := [ JObj [ ("Status", JStr "pending") ];
                      JObj [ ("Status", JStr "inprogress") ];
                      JObj [ ("Status", JStr "inprogress") ] ]).
  pose (final := JObj [ ("Status", JStr "done") ]).
  assert (Hfinal : repliesWith (fetchReply env (length pendings + fetches world0)) final)
    by apply statusReply_repliesWith.
  assert (Htime : withinTimeout env (dateNow env (nowReads world0))
                    (withDefault (timeout noWaitOptions) 300000) (afterNow world0)
                    (S (length pendings))).
  { intros k Hk. do 4 (destruct k as [| k]; [ vm_compute; reflexivity | ]).
    cbn [length pendings] in Hk. lia. }
  assert (Hsees : seesPending env releasePending world0 pendings).
  { intros k s Hk.
    do 3 (destruct k as [| k];
          [ injection Hk as <-; split; [ apply statusReply_repliesWith | repeat split ] | ]).
    destruct k; discriminate Hk. }
  destruct (@polls_return_at_the_first_terminal_success env 5 sampleClient "fn-api" "img"
              noWaitOptions world0 pendings final (le_S _ _ (le_n 4)) Hfinal)
    as (_ & Hrelease & Hcount).
  do 2 eexists. split; [ exact (Hrelease Htime Hsees eq_refl) | ].
  split; [ exact Hcount | reflexivity ].
Defined.

(** X11.  The polls do not retry a request that fails.  If, after any number
    of statuses that are not terminal, the next status request throws (the
    connection is refused, the reply is not JSON, the reply is taken as
    failed), the poll throws that same error at once: the events of the
    failed request are the last ones, and no sleep follows. *)
Theorem polls_do_not_retry_a_failed_request
    (env : Env) (fuel : nat) (client : FaaSClient) (functionId imageUri : string)
    (options : WaitOptions) (w w1 : World) (pendings : list Json)
    (evs : list Event) (e : JsError) :
  let n := length pendings in
  let start := dateNow env (nowReads w) in
  let last := afterPolls n (afterNow w) in
  (n < fuel)%nat ->
  withinTimeout env start (withDefault (timeout options) 300000) (afterNow w) (S n) ->
  (seesPending env imageSyncPending w pendings ->
   getImageSyncStatus env client functionId imageUri (afterNow last)
   = (evs, w1, Thrown e) ->
   waitForImageSync env fuel client functionId imageUri options w
   = ((pollRounds env client "GetImageSyncStatus" (imageSyncParams functionId imageUri)
                  options (withDefault (interval options) 5000) (afterNow w) pendings
       ++ evs)%list,
      w1, Thrown e))
  /\ (seesPending env releasePending w pendings ->
      getReleaseStatus env client functionId (afterNow last) = (evs, w1, Thrown e) ->
      waitForRelease env fuel client functionId options w
      = ((pollRounds env client "GetReleaseStatus" (releaseStatusParams functionId)
                     options (withDefault (interval options) 3000) (afterNow w) pendings
          ++ evs)%list,
         w1, Thrown e)).
Proof.
  intros n start last Hfuel Htime.
  destruct (afterPolls_counts n (afterNow w)) as (Hnow & _ & _).
  fold last in Hnow.
  assert (Hsplit : fuel = (length pendings + S (fuel - S n))%nat) by (unfold n in *; lia).
  assert (Hin : (dateNow env (nowReads last) - start
                 <? withDefault (timeout options) 300000) = true).
  { apply Z.ltb_lt. rewrite Hnow. apply (Htime n). lia. }
  split.
  - intros Hsees Hthrows.
    unfold waitForImageSync. unfold bind at 1. unfold now at 1. fold (afterNow w).
    fold start. rewrite Hsplit.
    rewrite (@imageSyncLoop_rounds env client functionId imageUri options _ _ start
               (S (fuel - S n)) pendings (afterNow w));
      [ | intros k Hk; apply Htime; lia | exact Hsees ].
    fold n. fold last. rewrite imageSyncLoop_step, Hin, Hthrows.
    unfold after. cbn [app]. reflexivity.
  - intros Hsees Hthrows.
    unfold waitForRelease. unfold bind at 1. unfold now at 1. fold (afterNow w).
    fold start. rewrite Hsplit.
    rewrite (@releaseLoop_rounds env client functionId options _ _ start
               (S (fuel - S n)) pendings (afterNow w));
      [ | intros k Hk; apply Htime; lia | exact Hsees ].
    fold n. fold last. rewrite releaseLoop_step, Hin, Hthrows.
    unfold after. cbn [app]. reflexivity.
Qed.

(** Witness of X11: the image-sync poll sees [Running] once and is then
    answered with the status 503. *)
Lemma polls_do_not_retry_a_failed_request_witness :
  let unavailable :=
    FetchResponse {| httpStatus := 503; jsonBody := BodyJson (JObj []) |} in
  let env := withReplies (fun _ => exitedCleanly)
               (fun k => match k with O => statusReply "Running" | _ => unavailable end)
               (fun n => 1000 * Z.of_nat n) in
  exists evs w',
    waitForImageSync env 4 sampleClient "fn-api" "img:v1" noWaitOptions world0
    = (evs, w', Thrown {| errMessage := "FaaS API Error [GetImageSyncStatus]: 503 - {}" |})
    /\ fetches w' = 2%nat
    /\ filter (fun e => match e with Sleep _ => true | _ => false end) evs
       = [ Sleep 5000 ].
Proof.
  intros unavailable env.
  pose (pendings := [ JObj [ ("Status", JStr "Running") ] ]).
  assert (Htime : withinTimeout env (dateNow env (nowReads world0))
                    (withDefault (timeout noWaitOptions) 300000) (afterNow world0)
                    (S (length pendings))).
  { intros k Hk. do 2 (destruct k as [| k]; [ vm_compute; reflexivity | ]).
    cbn [length pendings] in Hk. lia. }
  assert (Hsees : seesPending env imageSyncPending world0 pendings).
  { intros k s Hk.
    destruct k as [| k];
      [ injection Hk as <-; split; [ apply statusReply_repliesWith | repeat split ] | ].
    destruct k; discriminate Hk. }
  destruct (@polls_do_not_retry_a_failed_request env 4 sampleClient "fn-api" "img:v1"
              noWaitOptions world0
              (afterRequest (afterNow (afterPolls 1 (afterNow world0)))) pendings
              [ requestFetch env sampleClient "GetImageSyncStatus"
                  (imageSyncParams "fn-api" "img:v1")
                  (afterNow (afterPolls 1 (afterNow world0))) ]
              {| errMessage := "FaaS API Error [GetImageSyncStatus]: 503 - {}" |}
              (le_S _ _ (le_S _ _ (le_n 2))) Htime)
    as (Hsync & _).
  do 2 eexists. split; [ apply (Hsync Hsees); vm_compute; reflexivity | ].
  split; reflexivity.
Defined.

(* ===================================================================== *)
(** * Further properties of the signer *)
(* ===================================================================== *)

Lemma stringLe_trans (a b c : string) : stringLe a b -> stringLe b c -> stringLe a c.
Proof.
  unfold stringLe, String.leb. revert b c.
  induction a as [| x a IH]; intros [| y b] [| z c]; simpl; try easy.
  unfold Ascii.compare.
  destruct (N.compare_spec (N_of_ascii x) (N_of_ascii y)) as [Hxy | Hxy | Hxy];
    destruct (N.compare_spec (N_of_ascii y) (N_of_ascii z)) as [Hyz | Hyz | Hyz];
    destruct (N.compare_spec (N_of_ascii x) (N_of_ascii z)) as [Hxz | Hxz | Hxz];
    try easy; try lia.
  apply IH.
Qed.

(** Two sorted lists with the same elements are the same list. *)
Lemma sorted_perm_unique (l1 l2 : list string) :
  Sorted stringLe l1 -> Sorted stringLe l2 -> Permutation l1 l2 -> l1 = l2.
Proof.
  intros H1 H2.
  apply Sorted_StronglySorted in H1; [ | intros a b c; apply stringLe_trans ].
  apply Sorted_StronglySorted in H2; [ | intros a b c; apply stringLe_trans ].
  revert l2 H2. induction H1 as [| x l1 Hs1 IH Hx]; intros l2 H2 Hperm.
  - now apply Permutation_nil in Hperm.
  - destruct H2 as [| y l2 Hs2 Hy].
    + apply Permutation_sym, Permutation_nil in Hperm. discriminate.
    + assert (Hxy : x = y).
      { rewrite Forall_forall in Hx, Hy.
        assert (Hyin : In y (x :: l1))
          by (apply (Permutation_in y (Permutation_sym Hperm)); now left).
        assert (Hxin : In x (y :: l2)) by (apply (Permutation_in x Hperm); now left).
        destruct Hyin as [-> | Hyin]; [ reflexivity | ].
        destruct Hxin as [-> | Hxin]; [ reflexivity | ].
        apply String.leb_antisym; [ now apply Hx | now apply Hy ]. }
      subst y. f_equal. apply IH; [ exact Hs2 | ].
      now apply Permutation_cons_inv in Hperm.
Qed.

Lemma sortStrings_of_permutation (l l' : list string) :
  Permutation l l' -> sortStrings l = sortStrings l'.
Proof.
  intros Hperm. apply sorted_perm_unique; try apply sortStrings_sorted.
  eapply Permutation_trans; [ apply Permutation_sym, sortStrings_perm | ].
  eapply Permutation_trans; [ exact Hperm | apply sortStrings_perm ].
Qed.

Lemma getProp_none (q : list (string * string)) (k : string) :
  ~ In k (objectKeys q) -> getProp q k = None.
Proof.
  induction q as [| [k' v] q IH]; simpl; [ reflexivity | ].
  intros Hk. destruct (String.eqb_spec k' k); [ tauto | apply IH; tauto ].
Qed.

Lemma getProp_of_permutation (q q' : list (string * string)) (k : string) :
  NoDup (objectKeys q) -> Permutation q q' -> getProp q k = getProp q' k.
Proof.
  intros Hnd Hperm. induction Hperm as [| [k1 v1] q q' Hperm IH
                                        | [k1 v1] [k2 v2] q
                                        | q q' q'' H1 IH1 H2 IH2 ].
  - reflexivity.
  - simpl. destruct (String.eqb k1 k); [ reflexivity | ].
    apply IH. now inversion Hnd.
  - simpl. destruct (String.eqb_spec k2 k), (String.eqb_spec k1 k); try reflexivity.
    subst. inversion Hnd as [| ? ? Hnotin _]. exfalso. apply Hnotin. now left.
  - rewrite IH1; [ apply IH2 | exact Hnd ].
    unfold objectKeys in *.
    eapply Permutation_NoDup; [ apply Permutation_map, H1 | exact Hnd ].
Qed.

(** X12.  The canonical query string, and with it the five headers [sign]
    returns, do not depend on the order in which the properties of the query
    object were written. *)
Theorem signature_ignores_the_order_of_query_properties
    (crypto : Signer.Crypto) (config : Signer.SignerConfig) (iso : string)
    (method host path : string) (headers : option (list (string * string)))
    (body : option string) (query query' : list (string * string)) :
  NoDup (objectKeys query) ->
  Permutation query query' ->
  Signer.getCanonicalQueryString (Some query)
  = Signer.getCanonicalQueryString (Some query')
  /\ Signer.sign crypto config iso
       {| Signer.method := method; Signer.host := host; Signer.path := path;
          Signer.query := Some query; Signer.headers := headers;
          Signer.body := body |}
     = Signer.sign crypto config iso
         {| Signer.method := method; Signer.host := host; Signer.path := path;
            Signer.query := Some query'; Signer.headers := headers;
            Signer.body := body |}.
Proof.
  intros Hnd Hperm.
  assert (Hkeys : Permutation (objectKeys query) (objectKeys query'))
    by (apply Permutation_map, Hperm).
  assert (Hcanonical : Signer.getCanonicalQueryString (Some query)
                       = Signer.getCanonicalQueryString (Some query')).
  { unfold Signer.getCanonicalQueryString.
    pose proof Hnd as Hnd'.
    destruct (objectKeys query) as [| k ks] eqn:E, (objectKeys query') as [| k' ks'] eqn:E';
      try reflexivity.
    - apply Permutation_nil in Hkeys. discriminate.
    - apply Permutation_sym, Permutation_nil in Hkeys. discriminate.
    - rewrite (sortStrings_of_permutation Hkeys). f_equal. apply map_ext. intro key.
      rewrite <- E in Hnd'. now rewrite (getProp_of_permutation key Hnd' Hperm). }
  split; [ exact Hcanonical | ].
  unfold Signer.sign. cbn [Signer.query Signer.method Signer.host Signer.path Signer.body].
  now rewrite Hcanonical.
Qed.

Lemma signature_ignores_the_order_of_query_properties_witness :
  Signer.getCanonicalQueryString
    (Some [ ("Version", "2024-06-06"); ("Action", "Release"); ("Limit", "10") ])
  = Signer.getCanonicalQueryString
      (Some [ ("Limit", "10"); ("Action", "Release"); ("Version", "2024-06-06") ]).
Proof.
  refine (proj1 (@signature_ignores_the_order_of_query_properties
                   Signer.plainCrypto
                   {| Signer.accessKeyId := "AKID"; Signer.secretAccessKey := "SECRET";
                      Signer.region := "cn-beijing"; Signer.service := "vefaas" |}
                   "2024-06-06T12:34:56.789Z" "POST" "open.volcengineapi.com" "/"
                   None None _ _ _ _)).
  - repeat constructor; simpl; intuition discriminate.
  - eapply Permutation_trans; [ apply perm_swap | ].
    eapply Permutation_trans; [ apply perm_skip, perm_swap | ].
    apply perm_swap.
Defined.

(** X13.  [request] sends what it signs.  Whatever the action, the
    parameters and the reply, it makes one HTTPS request; the query string of
    its URL is the canonical query string the signature covers (the two
    properties [Action] and [Version] are written in sorted order); its body
    is the text whose digest is in the [X-Content-Sha256] header; and the
    [Host] header is the host of the URL. *)
Theorem request_sends_what_it_signs
    (env : Env) (client : FaaSClient) (action : string) (params : Json) (w : World) :
  let query := [ ("Action", action); ("Version", FAAS_VERSION) ] in
  let payload := stringify params in
  let signed :=
    Signer.sign (crypto env) (signer client) (newDateISO env (dateReads w))
      {| Signer.method := "POST"; Signer.host := FAAS_HOST; Signer.path := "/";
         Signer.query := Some query; Signer.headers := None;
         Signer.body := Some payload |} in
  fst (fst (request env client action params w))
  = [ Fetch ("https://" ++ FAAS_HOST ++ "/?" ++ Signer.getCanonicalQueryString (Some query))
            signed payload ]
  /\ getProp signed "Host" = Some FAAS_HOST
  /\ getProp signed "X-Content-Sha256" = Some (Signer.sha256 (crypto env) payload)
  /\ fetches (snd (fst (request env client action params w))) = S (fetches w).
Proof.
  intros query payload signed. rewrite request_run. cbn [fst snd].
  split; [ | split; [ reflexivity | split; [ | reflexivity ] ] ].
  - unfold requestFetch. fold payload. fold query. fold signed. reflexivity.
  - unfold signed, Signer.sign. cbn [getProp String.eqb Ascii.eqb Bool.eqb Signer.body].
    unfold orElse. destruct payload; reflexivity.
Qed.

(* ===================================================================== *)
(** * Properties of the probes and of the remote tags *)
(* ===================================================================== *)

Lemma probe_run (env : Env) (file : string) (args : list string) (w : World) :
  tryCatch
    (subprocess <- execa env file args None ;; awaitExit subprocess ;; ret true)
    (fun _ => ret false) w
  = ([ Spawn file args None ], afterSpawn w,
     Returned (match failure (execaReply env (spawns w)) with
               | Some _ => false
               | None => true
               end)).
Proof.
  unfold tryCatch, bind, execa, awaitExit, ret, throw.
  cbn [fst snd]. fold (afterSpawn w).
  destruct (failure (execaReply env (spawns w))); reflexivity.
Qed.

Lemma spanNotSlash_spec (s : string) :
  let (p, r) := spanNotSlash s in s = p ++ r.
Proof.
  induction s as [| c s IH]; simpl; [ reflexivity | ].
  destruct (Ascii.eqb c "/"); [ reflexivity | ].
  destruct (spanNotSlash s) as [p r]. simpl. now rewrite IH.
Qed.

Lemma spanNotSlash_slash (s p r : string) (c : ascii) :
  spanNotSlash s = (p, String c r) -> c = "/"%char.
Proof.
  revert p. induction s as [| x s IH]; simpl; intros p; [ discriminate | ].
  destruct (Ascii.eqb_spec x "/") as [Hx | Hx].
  - intros H. injection H as _ Hc _. congruence.
  - destruct (spanNotSlash s) as [p' r']. intros H. injection H as _ ->.
    now apply (IH p').
Qed.

(** The three captures of an image reference put together again are the
    reference. *)
Lemma matchImageRef_sound (imageRef registry namespace imageName : string) :
  matchImageRef imageRef = Some (registry, namespace, imageName) ->
  imageRef = registry ++ "/" ++ namespace ++ "/" ++ imageName.
Proof.
  unfold matchImageRef.
  pose proof (spanNotSlash_spec imageRef) as H1.
  destruct (spanNotSlash imageRef) as [p1 r1] eqn:E1.
  destruct p1 as [| x1 p1]; [ discriminate | ].
  destruct r1 as [| c1 r1]; [ discriminate | ].
  pose proof (spanNotSlash_slash _ E1) as ->.
  pose proof (spanNotSlash_spec r1) as H2.
  destruct (spanNotSlash r1) as [p2 r2] eqn:E2.
  destruct p2 as [| x2 p2]; [ discriminate | ].
  destruct r2 as [| c2 r2]; [ discriminate | ].
  pose proof (spanNotSlash_slash _ E2) as ->.
  destruct (truthyString r2 && allChars notColon r2)%bool; [ | discriminate ].
  intros [= <- <- <-]. rewrite H1, H2. reflexivity.
Qed.

(** X14.  [getRemoteTags] never throws: every failure is reported in the
    [error] property, with no tags.  A reference that is not written
    [registry/namespace/name] (the name without a colon) is refused before
    any subprocess is started; otherwise skopeo is probed first, and only if
    the probe succeeds are the tags listed, for the reference as it was
    given. *)
Theorem getRemoteTags_never_throws
    (env : Env) (parseStdout : ProcOutcome -> JsonBody) (imageRef : string) (w : World) :
  let probe := Spawn "skopeo" [ "--version" ] None in
  let listing := Spawn "skopeo" [ "list-tags"; "docker://" ++ imageRef ] None in
  exists evs w' r,
    getRemoteTags env parseStdout imageRef w = (evs, w', Returned r)
    /\ (Tags.error r = None \/ Tags.tags r = JArr [])
    /\ match matchImageRef imageRef with
       | None =>
           evs = [] /\ w' = w
           /\ Tags.error r = Some ("无效的镜像地址: " ++ imageRef)
       | Some _ =>
           match failure (execaReply env (spawns w)) with
           | Some _ => evs = [ probe ] /\ w' = afterSpawn w
           | None => evs = [ probe; listing ] /\ w' = afterSpawn (afterSpawn w)
           end
       end.
Proof.
  intros probe listing. unfold getRemoteTags.
  destruct (matchImageRef imageRef) as [[[registry namespace] imageName] |] eqn:E.
  - apply matchImageRef_sound in E.
    assert (Href : "docker://" ++ registry ++ "/" ++ namespace ++ "/" ++ imageName
                   = "docker://" ++ imageRef) by now rewrite E.
    rewrite Href. rewrite bind_run. unfold checkSkopeo. rewrite probe_run.
    destruct (failure (execaReply env (spawns w))) as [e |] eqn:Hprobe; cbn [negb].
    + do 3 eexists. unfold ret, after. cbn [app].
      split; [ reflexivity | split; [ right; reflexivity | split; reflexivity ] ].
    + rewrite bind_run. unfold execa at 1. fold (afterSpawn (afterSpawn w)).
      unfold after. cbn [app].
      destruct (failure (execaReply env (spawns (afterSpawn w)))) as [err |].
      { do 3 eexists. unfold ret. cbn [app].
        split; [ reflexivity | split; [ right; reflexivity | split; reflexivity ] ]. }
      destruct (parseStdout (execaReply env (spawns (afterSpawn w)))) as [err | result].
      { do 3 eexists. unfold ret. cbn [app].
        split; [ reflexivity | split; [ right; reflexivity | split; reflexivity ] ]. }
      destruct (readProp result "Tags") as [| [t |]];
        do 3 eexists; unfold ret; cbn [app];
        (split; [ reflexivity | split; [ | split; reflexivity ] ]);
        try (right; reflexivity); left; reflexivity.
  - do 3 eexists. unfold ret.
    split; [ reflexivity | split; [ right; reflexivity | repeat split ] ].
Qed.

Lemma spanNotSlash_prefix (s : string) :
  allChars notSlash (fst (spanNotSlash s)) = true.
Proof.
  induction s as [| c s IH]; simpl; [ reflexivity | ].
  destruct (Ascii.eqb c "/") eqn:E; [ reflexivity | ].
  destruct (spanNotSlash s) as [p r]. simpl in *. unfold notSlash at 1.
  now rewrite E, IH.
Qed.

Lemma spanNotSlash_append (p rest : string) :
  allChars notSlash p = true ->
  spanNotSlash (p ++ String "/" rest) = (p, String "/" rest).
Proof.
  intros Hp. induction p as [| c p IH]; simpl in *; [ reflexivity | ].
  apply andb_true_iff in Hp as [Hc Hp]. unfold notSlash in Hc.
  apply negb_true_iff in Hc. now rewrite Hc, (IH Hp).
Qed.

(** X15.  The references [getRemoteTags] accepts are exactly those written
    [registry/namespace/name] where the registry and the namespace are not
    empty and hold no slash, and the name is not empty and holds no colon: a
    registry with a port and a name with further slashes are accepted, a
    reference that carries a tag is refused. *)
Theorem matchImageRef_accepts (imageRef registry namespace imageName : string) :
  matchImageRef imageRef = Some (registry, namespace, imageName)
  <-> imageRef = registry ++ "/" ++ namespace ++ "/" ++ imageName
      /\ runOf notSlash registry /\ runOf notSlash namespace
      /\ runOf notColon imageName.
Proof.
  split.
  - intros Hmatch. split; [ now apply matchImageRef_sound | ].
    unfold matchImageRef in Hmatch.
    pose proof (spanNotSlash_prefix imageRef) as P1.
    destruct (spanNotSlash imageRef) as [p1 r1].
    destruct p1 as [| x1 p1]; [ discriminate | ].
    destruct r1 as [| c1 r1]; [ discriminate | ].
    pose proof (spanNotSlash_prefix r1) as P2.
    destruct (spanNotSlash r1) as [p2 r2].
    destruct p2 as [| x2 p2]; [ discriminate | ].
    destruct r2 as [| c2 r2]; [ discriminate | ].
    destruct (truthyString r2) eqn:T; [ | discriminate ].
    destruct (allChars notColon r2) eqn:C; [ | discriminate ].
    injection Hmatch as <- <- <-. cbn [fst] in P1, P2.
    repeat split; try assumption; try discriminate.
    intros ->. discriminate T.
  - intros (-> & [Hr1 Hr2] & [Hn1 Hn2] & [Hi1 Hi2]).
    unfold matchImageRef.
    change (registry ++ "/" ++ namespace ++ "/" ++ imageName)
      with (registry ++ String "/" (namespace ++ String "/" imageName)).
    rewrite (spanNotSlash_append _ _ Hr2).
    destruct registry as [| x1 p1]; [ congruence | ].
    rewrite (spanNotSlash_append _ _ Hn2).
    destruct namespace as [| x2 p2]; [ congruence | ].
    rewrite Hi2. destruct imageName; [ congruence | reflexivity ].
Qed.

(* ===================================================================== *)
(** * Further properties of the orchestrator *)
(* ===================================================================== *)

(** ** Runs that end before any service is deployed *)

Lemma initialSteps_nil (options : DeployOptions) (config : Config.ProjectConfig) :
  initialSteps options config = [] <-> servicesToDeploy options config = [].
Proof.
  rewrite initialSteps_blocks.
  destruct (servicesToDeploy options config) as [| n names]; [ tauto | ].
  split; discriminate.
Qed.

(** The state of a run is the state the events of [deploy] lead to from the
    planned state, as soon as one step is planned. *)
Lemma runApp_deploy (env : Env) (fuel : nat) (options : DeployOptions)
    (config : Config.ProjectConfig) :
  servicesToDeploy options config <> [] ->
  appEvents env fuel options (Some config)
  = (planEffect options (Some config)
     ++ fst (fst (deploy env fuel options config world0)))%list
  /\ runApp env fuel options (Some config)
     = runEvents (plannedState options config)
                 (fst (fst (deploy env fuel options config world0))).
Proof.
  intros Hnames.
  assert (Hevents : appEvents env fuel options (Some config)
                    = (planEffect options (Some config)
                       ++ fst (fst (deploy env fuel options config world0)))%list).
  { unfold appEvents.
    cbn [planEffect runEvents fold_left reduce projectConfig steps initialState
         deployEffect].
    destruct (initialSteps options config) eqn:E; [ | reflexivity ].
    apply initialSteps_nil in E. contradiction. }
  split; [ exact Hevents | ].
  unfold runApp. rewrite Hevents, runEvents_app. reflexivity.
Qed.

Lemma deploy_run_docker_unavailable (env : Env) (fuel : nat) (options : DeployOptions)
    (config : Config.ProjectConfig) (e : ExecaError) :
  failure (execaReply env 0) = Some e ->
  deploy env fuel options config world0
  = (Spawn "docker" [ "version" ] None :: caught dockerUnavailable,
     afterSpawn world0, Returned tt).
Proof.
  intros Hdocker. unfold deploy, tryCatch, deployBody.
  rewrite bind_run, checkDocker_run. change (spawns world0) with 0%nat.
  rewrite Hdocker. cbn [negb]. rewrite bind_run. unfold throw at 1.
  unfold after. cbn [app]. reflexivity.
Qed.

(** X16.  When the docker probe fails the run ends before any service is
    touched: the only outside call is [docker version], the phase is
    [error] with the message that Docker is not available, and every step
    is as the plan left it. *)
Theorem run_aborts_when_docker_is_unavailable
    (env : Env) (fuel : nat) (options : DeployOptions)
    (config : Config.ProjectConfig) (e : ExecaError) :
  servicesToDeploy options config <> [] ->
  failure (execaReply env 0) = Some e ->
  let final := runApp env fuel options (Some config) in
  phase final = phase_error
  /\ appError final = Some dockerUnavailable
  /\ steps final = initialSteps options config
  /\ currentService final = None
  /\ logs final = [ "❌ Error: " ++ dockerUnavailable ]
  /\ filter isOutsideCall (appEvents env fuel options (Some config))
     = [ Spawn "docker" [ "version" ] None ].
Proof.
  intros Hnames Hdocker final.
  destruct (@runApp_deploy env fuel options config Hnames) as [Hevents Hfinal].
  rewrite (@deploy_run_docker_unavailable env fuel options config e Hdocker)
    in Hevents, Hfinal.
  cbn [fst] in Hevents, Hfinal.
  unfold final. rewrite Hfinal, Hevents. repeat split.
Qed.

(** Witness of X16: the sample configuration on a machine where
    [docker version] fails. *)
Lemma run_aborts_when_docker_is_unavailable_witness :
  let env := withReplies
               (fun _ => {| chunks := []; failure := Some pushDenied |})
               (fetchReply happyEnv) (dateNow happyEnv) in
  let final := runApp env 3 sampleOptions (Some sampleConfig) in
  phase final = phase_error
  /\ appError final = Some dockerUnavailable
  /\ steps final = initialSteps sampleOptions sampleConfig
  /\ currentService final = None
  /\ logs final = [ "❌ Error: " ++ dockerUnavailable ]
  /\ filter isOutsideCall (appEvents env 3 sampleOptions (Some sampleConfig))
     = [ Spawn "docker" [ "version" ] None ].
Proof.
  intros env.
  apply (@run_aborts_when_docker_is_unavailable env 3 sampleOptions sampleConfig
           pushDenied).
  - discriminate.
  - reflexivity.
Defined.

(** X17.  Nothing runs without a configuration or without services.  When
    no configuration is found the component goes to the [error] phase with
    the message to run [init]; when the configuration is found but no service
    is to be deployed (the configuration has none and none is selected) the
    plan is empty, [deploy] is never started and the phase stays [init].  In
    both cases no subprocess is started and no request made. *)
Theorem nothing_runs_without_configuration_or_services
    (env : Env) (fuel : nat) (options : DeployOptions) :
  (let final := runApp env fuel options None in
   phase final = phase_error
   /\ appError final
      = Some "No deploy.config.json found. Run `liminian-deploy init` to create one."
   /\ steps final = []
   /\ filter isOutsideCall (appEvents env fuel options None) = [])
  /\ (forall config,
        servicesToDeploy options config = [] ->
        let final := runApp env fuel options (Some config) in
        phase final = phase_init
        /\ appError final = None
        /\ steps final = []
        /\ projectConfig final = Some config
        /\ filter isOutsideCall (appEvents env fuel options (Some config)) = []).
Proof.
  split; [ repeat split | ].
  intros config Hnames final.
  assert (Hplan : initialSteps options config = []) by now apply initialSteps_nil.
  assert (Hevents : appEvents env fuel options (Some config)
                    = [ SetProjectConfig config; SetSteps [] ]).
  { unfold appEvents.
    cbn [planEffect runEvents fold_left reduce projectConfig steps initialState
         deployEffect].
    rewrite Hplan. reflexivity. }
  unfold final, runApp. rewrite Hevents. repeat split.
Qed.

(** ** Services the configuration does not have *)



(** ** The events inside the [try] of [deploy] *)

Lemma inBody_ret {A : Type} (a : A) : inBody (ret a).
Proof. intro w. reflexivity. Qed.

Lemma inBody_throw {A : Type} (msg : string) : inBody (@throw A msg).
Proof. intro w. reflexivity. Qed.

Lemma inBody_unsettled {A : Type} : inBody (@unsettled A).
Proof. intro w. reflexivity. Qed.

Lemma inBody_emit (evs : list Event) : forallb bodyEvent evs = true -> inBody (emit evs).
Proof. intros H w. exact H. Qed.

Lemma inBody_bind {A B : Type} (c : M A) (k : A -> M B) :
  inBody c -> (forall a, inBody (k a)) -> inBody (bind c k).
Proof.
  intros Hc Hk w. specialize (Hc w). rewrite bind_run.
  destruct (c w) as [[e1 w1] [a | e |]]; cbn [fst snd] in Hc |- *; try exact Hc.
  specialize (Hk a w1). destruct (k a w1) as [[e2 w2] r2]. cbn [fst snd after] in Hk |- *.
  now rewrite forallb_app, Hc, Hk.
Qed.

Lemma inBody_now (env : Env) : inBody (now env).
Proof. intro w. reflexivity. Qed.

Lemma inBody_newDate (env : Env) : inBody (newDate env).
Proof. intro w. reflexivity. Qed.

Lemma inBody_setPhase (p : DeployPhase) : inBody (setPhase p).
Proof. intro w. reflexivity. Qed.

Lemma inBody_addLog (l : string) : inBody (emit (addLog l)).
Proof. intro w. reflexivity. Qed.

Lemma inBody_request (env : Env) (client : FaaSClient) (action : string) (params : Json) :
  inBody (request env client action params).
Proof. intro w. rewrite request_run. reflexivity. Qed.

Lemma inBody_execa (env : Env) (file : string) (args : list string) (cwd : option string) :
  inBody (execa env file args cwd).
Proof. intro w. reflexivity. Qed.

Lemma inBody_forwardOutput (p : ProcOutcome) : inBody (forwardOutput (Some addLog) p).
Proof.
  intro w. rewrite forwardOutput_run. cbn [fst snd]. unfold outputLogs.
  induction (flat_map chunkLines (chunks p)) as [| l ls IH]; [ reflexivity | exact IH ].
Qed.

Lemma inBody_awaitExit (p : ProcOutcome) : inBody (awaitExit p).
Proof. unfold awaitExit. destruct (failure p); intro w; reflexivity. Qed.

Lemma inBody_checkDocker (env : Env) : inBody (checkDocker env).
Proof. intro w. rewrite checkDocker_run. reflexivity. Qed.

Create HintDb inBody.

#[local] Hint Resolve inBody_ret inBody_throw inBody_unsettled inBody_now inBody_newDate
  inBody_setPhase inBody_addLog inBody_request inBody_execa inBody_forwardOutput
  inBody_awaitExit inBody_checkDocker : inBody.

Lemma inBody_callProgress (stepId : string) (status : Json) :
  inBody (callProgress
            (Some (fun status =>
                     [ UpdateStep stepId
                         {| u_status := None;
                            u_message := Some (stringField status "Status");
                            u_duration := None |} ]))
            status).
Proof. intro w. reflexivity. Qed.

Lemma inBody_imageSyncLoop (env : Env) (client : FaaSClient)
    (functionId imageUri stepId : string) (timeout interval start : Z) (fuel : nat) :
  inBody (imageSyncLoop env fuel client functionId imageUri timeout interval
            (Some (fun status =>
                     [ UpdateStep stepId
                         {| u_status := None;
                            u_message := Some (stringField status "Status");
                            u_duration := None |} ]))
            start).
Proof.
  induction fuel as [| fuel IH]; cbn [imageSyncLoop]; [ apply inBody_unsettled | ].
  apply inBody_bind; [ apply inBody_now | intro t ].
  destruct (t - start <? timeout); [ | apply inBody_throw ].
  apply inBody_bind; [ apply inBody_request | intro status ].
  apply inBody_bind; [ apply inBody_callProgress | intros _ ].
  destruct (isString (stringField status "Status") "Succeeded"); [ apply inBody_ret | ].
  destruct (isString (stringField status "Status") "Failed"
            || isString (stringField status "Status") "Canceled");
    [ apply inBody_throw | ].
  apply inBody_bind; [ | intros _; exact IH ].
  intro w. reflexivity.
Qed.

Lemma inBody_releaseLoop (env : Env) (client : FaaSClient)
    (functionId stepId : string) (timeout interval start : Z) (fuel : nat) :
  inBody (releaseLoop env fuel client functionId timeout interval
            (Some (fun status =>
                     [ UpdateStep stepId
                         {| u_status := None;
                            u_message := Some (stringField status "Status");
                            u_duration := None |} ]))
            start).
Proof.
  induction fuel as [| fuel IH]; cbn [releaseLoop]; [ apply inBody_unsettled | ].
  apply inBody_bind; [ apply inBody_now | intro t ].
  destruct (t - start <? timeout); [ | apply inBody_throw ].
  apply inBody_bind; [ apply inBody_request | intro status ].
  apply inBody_bind; [ apply inBody_callProgress | intros _ ].
  destruct (isString (stringField status "Status") "done"); [ apply inBody_ret | ].
  destruct (isString (stringField status "Status") "failed"); [ apply inBody_throw | ].
  apply inBody_bind; [ | intros _; exact IH ].
  intro w. reflexivity.
Qed.

Lemma inBody_faasPhases (env : Env) (fuel : nat) (faasClient : FaaSClient)
    (functionId prefix imageTag : string) :
  inBody (faasPhases env fuel faasClient functionId prefix imageTag).
Proof.
  unfold faasPhases, updateStep, updateFunction, release, waitForImageSync,
    waitForRelease.
  cbn [truthyOpt timeout interval onProgress withDefault].
  repeat first
    [ apply inBody_imageSyncLoop
    | apply inBody_releaseLoop
    | solve [ auto with inBody ]
    | apply inBody_bind; [ | intro ]
    | apply inBody_emit; reflexivity ].
Qed.

Lemma inBody_deployService (env : Env) (fuel : nat) (options : DeployOptions)
    (config : Config.ProjectConfig) (projectRoot : string)
    (faasClient : option FaaSClient) (serviceName : string) :
  inBody (deployService env fuel options config projectRoot faasClient serviceName).
Proof.
  unfold deployService.
  apply inBody_bind; [ apply inBody_emit; reflexivity | intros _ ].
  destruct (getProp (Config.services config) serviceName) as [service |];
    [ | apply inBody_addLog ].
  apply inBody_bind; [ | intros _; apply inBody_bind; [ | intros _ ] ].
  - unfold buildPhase, buildServiceImage, buildDockerImage, updateStep.
    destruct (skipBuild options); cbn [negb]; [ apply inBody_ret | ].
    destruct (getProp (Config.services config) serviceName);
      repeat first
        [ solve [ auto with inBody ]
        | apply inBody_bind; [ | intro ]
        | apply inBody_emit; reflexivity ].
  - unfold pushPhase, pushDockerImage, updateStep.
    destruct (skipPush options); cbn [negb]; [ apply inBody_ret | ].
    repeat first
      [ solve [ auto with inBody ]
      | apply inBody_bind; [ | intro ]
      | apply inBody_emit; reflexivity ].
  - assert (Hskip : inBody (skipFaasPhases faasClient serviceName)).
    { intro w. reflexivity. }
    destruct faasClient as [client |]; [ | exact Hskip ].
    destruct (truthyOpt (Config.functionId service));
      [ apply inBody_faasPhases | exact Hskip ].
Qed.

Lemma inBody_deployServices (env : Env) (fuel : nat) (options : DeployOptions)
    (config : Config.ProjectConfig) (projectRoot : string)
    (faasClient : option FaaSClient) (names : list string) :
  inBody (deployServices env fuel options config projectRoot faasClient names).
Proof.
  induction names as [| n names IH]; cbn [deployServices]; [ apply inBody_ret | ].
  apply inBody_bind; [ apply inBody_deployService | intros _; exact IH ].
Qed.

Lemma inBody_deployBody (env : Env) (fuel : nat) (options : DeployOptions)
    (config : Config.ProjectConfig) :
  inBody (deployBody env fuel options config).
Proof.
  unfold deployBody.
  apply inBody_bind; [ apply inBody_checkDocker | intro dockerAvailable ].
  apply inBody_bind; [ destruct (negb dockerAvailable); auto with inBody | intros _ ].
  apply inBody_bind; [ apply inBody_deployServices | intros _ ].
  apply inBody_bind; [ apply inBody_setPhase | intros _; apply inBody_addLog ].
Qed.

(** ** How a run ends *)

(** The events inside the [try] change neither the error nor the loaded
    configuration, and replace no list of steps. *)
Lemma runEvents_body (evs : list Event) (st : AppState) :
  forallb bodyEvent evs = true ->
  appError (runEvents st evs) = appError st
  /\ projectConfig (runEvents st evs) = projectConfig st
  /\ existsb isSetSteps evs = false.
Proof.
  revert st. induction evs as [| e evs IH]; intros st Hbody; [ repeat split | ].
  cbn [forallb] in Hbody. apply andb_true_iff in Hbody as [He Hevs].
  unfold runEvents in *. cbn [fold_left existsb].
  destruct (IH (reduce st e) Hevs) as (H1 & H2 & H3). rewrite H1, H2, H3.
  destruct e; try discriminate He; repeat split.
Qed.

Lemma deploy_run (env : Env) (fuel : nat) (options : DeployOptions)
    (config : Config.ProjectConfig) (w : World) :
  deploy env fuel options config w
  = match deployBody env fuel options config w with
    | (evs, w1, Thrown e) => ((evs ++ caught (errMessage e))%list, w1, Returned tt)
    | other => other
    end.
Proof.
  unfold deploy, tryCatch.
  destruct (deployBody env fuel options config w) as [[evs w1] [[] | e |]];
    reflexivity.
Qed.

(** When the body of [deploy] returns, its last two events are the change
    to the [done] phase and the closing log line. *)
Lemma deployBody_returned (env : Env) (fuel : nat) (options : DeployOptions)
    (config : Config.ProjectConfig) (w w1 : World) (evs : list Event) :
  deployBody env fuel options config w = (evs, w1, Returned tt) ->
  exists before,
    evs = (before ++ [ SetPhase phase_done;
                       AddLog "🎉 Deployment completed successfully!" ])%list.
Proof.
  unfold deployBody. rewrite bind_run, checkDocker_run.
  destruct (failure (execaReply env (spawns w))); cbn [negb];
    rewrite bind_run; [ discriminate | ].
  unfold ret at 1. rewrite after_nil, bind_run.
  destruct (deployServices env fuel options config (resolveProjectRoot env)
              (makeFaasClient env options) (servicesToDeploy options config)
              (afterSpawn w)) as [[evs1 w2] [[] | e |]]; try discriminate.
  unfold bind, setPhase, emit, addLog, after. cbn [app].
  intros [= <- _]. exists (Spawn "docker" [ "version" ] None :: evs1)%list.
  reflexivity.
Qed.

(** X19.  A run ends in the [done] phase exactly when nothing throws, and in
    the [error] phase with the message of what was thrown otherwise.  If the
    body of [deploy] returns, the final phase is [done], no error is set and
    the last log line announces the completion; if anything in it throws,
    whatever the phase and the service, the final phase is [error], the error
    shown is the message of the thrown error and the last log line repeats
    it. *)
Theorem run_ends_done_or_in_error_with_the_message
    (env : Env) (fuel : nat) (options : DeployOptions) (config : Config.ProjectConfig) :
  servicesToDeploy options config <> [] ->
  let final := runApp env fuel options (Some config) in
  (snd (deployBody env fuel options config world0) = Returned tt ->
   phase final = phase_done
   /\ appError final = None
   /\ last (logs final) "" = "🎉 Deployment completed successfully!")
  /\ (forall e,
        snd (deployBody env fuel options config world0) = Thrown e ->
        phase final = phase_error
        /\ appError final = Some (errMessage e)
        /\ last (logs final) "" = "❌ Error: " ++ errMessage e).
Proof.
  intros Hnames final.
  destruct (@runApp_deploy env fuel options config Hnames) as [_ Hfinal].
  fold final in Hfinal. rewrite deploy_run in Hfinal.
  pose proof (inBody_deployBody env fuel options config world0) as Hbody.
  destruct (deployBody env fuel options config world0) as [[evs w1] r] eqn:Hrun.
  cbn [fst snd] in Hbody |- *.
  split.
  - intros ->. cbn [fst] in Hfinal.
    destruct (deployBody_returned _ _ _ _ _ Hrun) as [before ->].
    destruct (runEvents_body _ (plannedState options config) Hbody) as (Herr & _ & _).
    rewrite Hfinal. split; [ | split; [ exact Herr | ] ].
    + now rewrite runEvents_app.
    + rewrite runEvents_app.
      cbn [runEvents fold_left reduce logs]. apply last_last.
  - intros e ->. cbn [fst] in Hfinal. rewrite Hfinal, runEvents_app.
    cbn [caught runEvents fold_left reduce phase appError logs].
    repeat split. apply last_last.
Qed.

(** Witness of X19: the run of the sample configuration in which the push
    of the first service fails. *)
Lemma run_ends_done_or_in_error_with_the_message_witness :
  let final := runApp pushFailsEnv 3 sampleOptions (Some sampleConfig) in
  phase final = phase_error
  /\ appError final = Some (execaMessage pushDenied)
  /\ last (logs final) "" = "❌ Error: " ++ execaMessage pushDenied.
Proof.
  assert (Hnames : servicesToDeploy sampleOptions sampleConfig <> []) by discriminate.
  apply (proj2 (@run_ends_done_or_in_error_with_the_message pushFailsEnv 3
                  sampleOptions sampleConfig Hnames)
           {| errMessage := execaMessage pushDenied |}).
  vm_compute. reflexivity.
Defined.

(** ** The statuses a step can have *)

Lemma applyUpdates_no_error (s : Step) (u : StepUpdate) :
  status s <> error -> u_status u <> Some error -> status (applyUpdates s u) <> error.
Proof.
  intros Hs Hu. unfold applyUpdates. cbn [status].
  destruct (u_status u) as [x |]; [ congruence | exact Hs ].
Qed.

Lemma reduce_no_error (st : AppState) (e : Event) :
  Forall (fun s => status s <> error) (steps st) ->
  match e with
  | SetSteps l => Forall (fun s => status s <> error) l
  | UpdateStep _ u => u_status u <> Some error
  | _ => True
  end ->
  Forall (fun s => status s <> error) (steps (reduce st e)).
Proof.
  intros Hst He. destruct e; cbn [reduce steps]; try assumption.
  unfold updateSteps. rewrite Forall_forall in *. intros s Hs.
  apply in_map_iff in Hs as (s0 & <- & Hs0).
  destruct (String.eqb (id s0) stepId); [ | now apply Hst ].
  apply applyUpdates_no_error; [ now apply Hst | exact He ].
Qed.

Lemma bodyEvent_setsNoError (e : Event) : bodyEvent e = true -> setsNoError e.
Proof.
  destruct e; try exact (fun _ => I). cbn [bodyEvent setsNoError].
  destruct (u_status updates) as [[] |]; try discriminate; tauto.
Qed.

Lemma initialSteps_no_error (options : DeployOptions) (config : Config.ProjectConfig) :
  Forall (fun s => status s <> error) (initialSteps options config).
Proof.
  rewrite initialSteps_blocks, Forall_forall. intros s Hs.
  apply in_flat_map in Hs as (n & _ & Hs). unfold serviceSteps in Hs. cbn [In] in Hs.
  destruct Hs as [<- | [<- | [<- | [<- | [<- | [<- | []]]]]]]; cbn [status mkStep];
    try discriminate.
  - destruct (skipBuild options); discriminate.
  - destruct (skipPush options); discriminate.
Qed.

(** The events of a run: the plan, the events inside the [try], and those of
    the [catch] block if something was thrown. *)
Lemma appEvents_kinds (env : Env) (fuel : nat) (options : DeployOptions)
    (loaded : option Config.ProjectConfig) :
  exists body rest,
    appEvents env fuel options loaded = (planEffect options loaded ++ body ++ rest)%list
    /\ forallb bodyEvent body = true
    /\ (rest = [] \/ exists message, rest = caught message).
Proof.
  unfold appEvents. destruct loaded as [config |].
  - cbn [planEffect runEvents fold_left reduce projectConfig steps initialState
         deployEffect].
    destruct (initialSteps options config) as [| s l].
    + exists [], []. repeat split. now left.
    + rewrite deploy_run.
      pose proof (inBody_deployBody env fuel options config world0) as Hbody.
      destruct (deployBody env fuel options config world0) as [[evs w1] [[] | e |]];
        cbn [fst snd] in Hbody |- *.
      * exists evs, []. rewrite app_nil_r. repeat split; [ exact Hbody | now left ].
      * exists evs, (caught (errMessage e)). repeat split; [ exact Hbody | ].
        right. now exists (errMessage e).
      * exists evs, []. rewrite app_nil_r. repeat split; [ exact Hbody | now left ].
  - exists [], []. repeat split. now left.
Qed.

(** X20.  No step is ever marked as failed.  Every status update of a run
    sets [running], [success] or [skipped], or no status at all, so that at
    no moment of any run, whatever fails, a step has the status [error]. *)
Theorem no_step_is_ever_marked_error
    (env : Env) (fuel : nat) (options : DeployOptions)
    (loaded : option Config.ProjectConfig) (n : nat) :
  Forall setsNoError (appEvents env fuel options loaded)
  /\ Forall (fun s => status s <> error)
            (steps (runEvents initialState
                              (firstn n (appEvents env fuel options loaded)))).
Proof.
  destruct (appEvents_kinds env fuel options loaded) as (body & rest & -> & Hbody & Hrest).
  assert (Hevents : Forall (fun e => match e with
                                     | SetSteps l => Forall (fun s => status s <> error) l
                                     | UpdateStep _ u => u_status u <> Some error
                                     | _ => True
                                     end)
                           (planEffect options loaded ++ body ++ rest)).
  { rewrite !Forall_app. split; [ | split ].
    - destruct loaded as [config |]; cbn [planEffect]; repeat constructor.
      apply initialSteps_no_error.
    - rewrite forallb_forall in Hbody. apply Forall_forall. intros e He.
      specialize (Hbody e He). destruct e; try exact I; try discriminate Hbody.
      cbn [bodyEvent] in Hbody. destruct (u_status updates) as [[] |]; congruence.
    - destruct Hrest as [-> | [message ->]]; repeat constructor. }
  split.
  - rewrite !Forall_app. split; [ | split ].
    + destruct loaded as [config |]; repeat constructor.
    + rewrite forallb_forall in Hbody. apply Forall_forall. intros e He.
      apply bodyEvent_setsNoError, Hbody, He.
    + destruct Hrest as [-> | [message ->]]; repeat constructor.
  - revert Hevents. generalize (planEffect options loaded ++ body ++ rest)%list.
    intros evs Hevs.
    assert (Hinit : Forall (fun s => status s <> error) (steps initialState))
      by constructor.
    revert n Hinit. generalize initialState.
    induction Hevs as [| e evs He Hevs IH]; intros st n Hst.
    + destruct n; exact Hst.
    + destruct n as [| n]; [ exact Hst | ].
      cbn [firstn]. unfold runEvents in *. cbn [fold_left].
      apply IH. now apply reduce_no_error.
Qed.

(** ** The steps of a run that ends well *)

Lemma emits_deployBody (env : Env) (fuel : nat) (options : DeployOptions)
    (config : Config.ProjectConfig) :
  emits (deployBody env fuel options config)
        (flat_map (serviceWrites options config (makeFaasClient env options))
                  (servicesToDeploy options config)).
Proof.
  unfold deployBody.
  apply emits_bind_silent; [ apply emits_checkDocker | intro dockerAvailable ].
  apply emits_bind_silent;
    [ destruct (negb dockerAvailable); auto with emits | intros _ ].
  rewrite <- (app_nil_r (flat_map _ _)).
  apply emits_bind; [ apply emits_deployServices | intros _ ].
  emits_steps. apply emits_addLog.
Qed.

Lemma leadsTo_nil (good : StepStatus -> bool) : leadsTo good [].
Proof. intros i st [H | []]. exact H. Qed.

Lemma leadsTo_app (good : StepStatus -> bool) (a b : list (string * StepStatus)) :
  leadsTo good a -> leadsTo good b -> leadsTo good (a ++ b).
Proof.
  intros Ha Hb i st H. rewrite statusAfter_app. rewrite map_app, in_app_iff in H.
  destruct H as [H | [H | H]].
  - apply Hb. left. apply Ha. now left.
  - apply Hb. left. apply Ha. now right.
  - apply Hb. now right.
Qed.

Lemma leadsTo_flat_map {A : Type} (good : StepStatus -> bool)
    (f : A -> list (string * StepStatus)) (l : list A) :
  (forall x, In x l -> leadsTo good (f x)) -> leadsTo good (flat_map f l).
Proof.
  induction l as [| x l IH]; intros H; [ apply leadsTo_nil | ].
  cbn [flat_map]. apply leadsTo_app; [ apply H; now left | ].
  apply IH. intros y Hy. apply H. now right.
Qed.

Lemma leadsTo_phaseWrites (good : StepStatus -> bool) (stepId : string) :
  good success = true -> leadsTo good (phaseWrites stepId).
Proof.
  intros Hgood i st H. unfold phaseWrites in *. cbn [statusAfter map fst In] in *.
  destruct (String.eqb_spec i stepId) as [-> | Hne]; [ exact Hgood | ].
  destruct H as [H | [H | [H | []]]]; [ exact H | | ]; symmetry in H; contradiction.
Qed.

Lemma leadsTo_skipped (good : StepStatus -> bool) (ids : list string) :
  good skipped = true -> leadsTo good (map (fun i => (i, skipped)) ids).
Proof.
  intros Hgood. induction ids as [| j ids IH]; [ apply leadsTo_nil | ].
  change (map (fun i => (i, skipped)) (j :: ids))
    with ([ (j, skipped) ] ++ map (fun i => (i, skipped)) ids)%list.
  apply leadsTo_app; [ | exact IH ].
  intros i st H. cbn [statusAfter map fst In] in *.
  destruct (String.eqb_spec i j) as [-> | Hne]; [ exact Hgood | ].
  destruct H as [H | [H | []]]; [ exact H | ]. symmetry in H. contradiction.
Qed.

(** The status writes of the services lead every step to [success] or
    [skipped]; and to [success] when nothing is skipped. *)
Lemma leadsTo_serviceWrites (options : DeployOptions) (config : Config.ProjectConfig)
    (faasClient : option FaaSClient) (serviceName : string) :
  leadsTo settled (serviceWrites options config faasClient serviceName).
Proof.
  unfold serviceWrites.
  destruct (getProp (Config.services config) serviceName) as [service |];
    [ | apply leadsTo_nil ].
  apply leadsTo_app; [ | apply leadsTo_app ].
  - destruct (skipBuild options); [ apply leadsTo_nil | now apply leadsTo_phaseWrites ].
  - destruct (skipPush options); [ apply leadsTo_nil | now apply leadsTo_phaseWrites ].
  - destruct faasClient as [client |]; [ | now apply leadsTo_skipped ].
    destruct (truthyOpt (Config.functionId service)); [ | now apply leadsTo_skipped ].
    apply leadsTo_flat_map. intros i _. now apply leadsTo_phaseWrites.
Qed.

Lemma leadsTo_serviceWrites_success (options : DeployOptions)
    (config : Config.ProjectConfig) (client : FaaSClient) (serviceName : string)
    (service : Config.Service) :
  getProp (Config.services config) serviceName = Some service ->
  truthyOpt (Config.functionId service) = true ->
  leadsTo succeeded (serviceWrites options config (Some client) serviceName).
Proof.
  intros Hfound Hfunction. unfold serviceWrites. rewrite Hfound, Hfunction.
  apply leadsTo_app; [ | apply leadsTo_app ].
  - destruct (skipBuild options); [ apply leadsTo_nil | now apply leadsTo_phaseWrites ].
  - destruct (skipPush options); [ apply leadsTo_nil | now apply leadsTo_phaseWrites ].
  - apply leadsTo_flat_map. intros i _. now apply leadsTo_phaseWrites.
Qed.

(** Every planned step of a service the configuration has is skipped by the
    plan or written to when the iteration for the service runs to its end. *)
Lemma planned_step_written (options : DeployOptions) (config : Config.ProjectConfig)
    (faasClient : option FaaSClient) (serviceName : string) (service : Config.Service)
    (s : Step) :
  getProp (Config.services config) serviceName = Some service ->
  In s (serviceSteps options serviceName) ->
  (status s = skipped /\ (skipBuild options = true \/ skipPush options = true))
  \/ In (id s) (map fst (serviceWrites options config faasClient serviceName)).
Proof.
  intros Hfound Hs. unfold serviceWrites. rewrite Hfound.
  unfold serviceSteps in Hs. cbn [In] in Hs.
  destruct Hs as [<- | [<- | [<- | [<- | [<- | [<- | []]]]]]]; cbn [id status mkStep].
  - destruct (skipBuild options); [ left; tauto | right ].
    cbn [phaseWrites app map fst In]. tauto.
  - destruct (skipPush options); [ left; tauto | right ].
    rewrite !map_app, !in_app_iff. right. left. cbn [phaseWrites map fst In]. tauto.
  - right. rewrite !map_app, !in_app_iff. right. right.
    destruct faasClient as [client |]; [ destruct (truthyOpt (Config.functionId service)) | ];
      cbn [faasStepIds flat_map phaseWrites app map fst In]; tauto.
  - right. rewrite !map_app, !in_app_iff. right. right.
    destruct faasClient as [client |]; [ destruct (truthyOpt (Config.functionId service)) | ];
      cbn [faasStepIds flat_map phaseWrites app map fst In]; tauto.
  - right. rewrite !map_app, !in_app_iff. right. right.
    destruct faasClient as [client |]; [ destruct (truthyOpt (Config.functionId service)) | ];
      cbn [faasStepIds flat_map phaseWrites app map fst In]; tauto.
  - right. rewrite !map_app, !in_app_iff. right. right.
    destruct faasClient as [client |]; [ destruct (truthyOpt (Config.functionId service)) | ];
      cbn [faasStepIds flat_map phaseWrites app map fst In]; tauto.
Qed.

(** X21.  A run that ends well leaves no step unfinished.  If the body of
    [deploy] returns and every service to deploy is in the configuration,
    each planned step ends as [success] or [skipped], none as [pending] or
    [running], even when two services share a step identifier; and if
    moreover no flag skips the build or the push, credentials are present
    outside a dry run, and every service has a function id, each step ends
    as [success]. *)
Theorem finished_run_leaves_no_step_unfinished
    (env : Env) (fuel : nat) (options : DeployOptions) (config : Config.ProjectConfig) :
  let names := servicesToDeploy options config in
  names <> [] ->
  (forall n, In n names -> exists service,
     getProp (Config.services config) n = Some service) ->
  snd (deployBody env fuel options config world0) = Returned tt ->
  let final := runApp env fuel options (Some config) in
  map id (steps final) = map id (initialSteps options config)
  /\ Forall (fun s => settled (status s) = true) (steps final)
  /\ (skipBuild options = false ->
      skipPush options = false ->
      (exists client, makeFaasClient env options = Some client) ->
      (forall n service, In n names ->
         getProp (Config.services config) n = Some service ->
         truthyOpt (Config.functionId service) = true) ->
      Forall (fun s => status s = success) (steps final)).
Proof.
  intros names Hnames Hknown Hreturned final.
  destruct (@runApp_deploy env fuel options config Hnames) as [_ Hfinal].
  fold final in Hfinal. rewrite deploy_run in Hfinal.
  destruct (emits_deployBody env fuel options config world0) as [Hset (rest & Hfull & Hrest)].
  destruct (deployBody env fuel options config world0) as [[evs w1] r].
  cbn [fst snd] in Hreturned, Hset, Hfull, Hrest, Hfinal. subst r.
  rewrite (Hrest tt eq_refl), app_nil_r in Hfull. fold names in Hfull.
  assert (Hsteps : steps final = map (stepAfter evs) (initialSteps options config)).
  { rewrite Hfinal, steps_runEvents. now apply stepsAfter_stepAfter. }
  assert (Hstatus : forall s0,
             status (stepAfter evs s0)
             = statusAfter
                 (flat_map (serviceWrites options config (makeFaasClient env options))
                           names)
                 (id s0) (status s0)).
  { intro s0. now rewrite status_stepAfter, Hfull. }
  assert (Hplanned : forall s0, In s0 (initialSteps options config) ->
             exists n service,
               In n names /\ getProp (Config.services config) n = Some service
               /\ In s0 (serviceSteps options n)).
  { intros s0 Hs0. rewrite initialSteps_blocks in Hs0.
    apply in_flat_map in Hs0 as (n & Hn & Hs0).
    destruct (Hknown n Hn) as [service Hfound]. now exists n, service. }
  assert (Hwritten : forall n, In n names -> forall i,
             In i (map fst (serviceWrites options config (makeFaasClient env options) n)) ->
             In i (map fst (flat_map (serviceWrites options config
                                        (makeFaasClient env options)) names))).
  { intros n Hn i Hi. apply in_map_iff in Hi as ([j x] & <- & Hjx).
    apply in_map_iff. exists (j, x). split; [ reflexivity | ].
    apply in_flat_map. now exists n. }
  rewrite Hsteps. split; [ | split ].
  - rewrite map_map. apply map_ext. intro s0. apply id_stepAfter.
  - apply Forall_forall. intros s Hs. apply in_map_iff in Hs as (s0 & <- & Hs0).
    rewrite Hstatus.
    destruct (Hplanned s0 Hs0) as (n & service & Hn & Hfound & Hin).
    apply (@leadsTo_flat_map string settled
             (serviceWrites options config (makeFaasClient env options)) names).
    + intros m _. apply leadsTo_serviceWrites.
    + destruct (@planned_step_written options config (makeFaasClient env options)
                  n service s0 Hfound Hin) as [[-> _] | Hw]; [ now left | right ].
      now apply (Hwritten n).
  - intros Hbuild Hpush [client Hclient] Hfunctions.
    apply Forall_forall. intros s Hs. apply in_map_iff in Hs as (s0 & <- & Hs0).
    rewrite Hstatus.
    destruct (Hplanned s0 Hs0) as (n & service & Hn & Hfound & Hin).
    assert (Hsucceeded : succeeded
                           (statusAfter
                              (flat_map (serviceWrites options config
                                           (makeFaasClient env options)) names)
                              (id s0) (status s0)) = true).
    { apply (@leadsTo_flat_map string succeeded
               (serviceWrites options config (makeFaasClient env options)) names).
      - intros m Hm. destruct (Hknown m Hm) as [service' Hfound'].
        rewrite Hclient.
        apply (@leadsTo_serviceWrites_success options config client m service' Hfound').
        now apply (Hfunctions m).
      - right.
        destruct (@planned_step_written options config (makeFaasClient env options)
                    n service s0 Hfound Hin) as [[_ [H | H]] | Hw];
          [ congruence | congruence | ].
        now apply (Hwritten n). }
    destruct (statusAfter _ _ _); try discriminate Hsucceeded. reflexivity.
Qed.

(** ** Runs in a favourable environment *)


















(** Witness of X21: the two services of the sample configuration, both bound
    to a function, deployed with credentials in the environment in which
    everything succeeds. *)
Lemma finished_run_leaves_no_step_unfinished_witness :
  let final := runApp happyEnv 3 sampleOptions (Some sampleConfig) in
  map id (steps final) = map id (initialSteps sampleOptions sampleConfig)
  /\ Forall (fun s => settled (status s) = true) (steps final)
  /\ Forall (fun s => status s = success) (steps final).
Proof.
  assert (Hnames : servicesToDeploy sampleOptions sampleConfig <> []) by discriminate.
  assert (Hknown : forall n, In n (servicesToDeploy sampleOptions sampleConfig) ->
                     exists service,
                       getProp (Config.services sampleConfig) n = Some service).
  { intros n [<- | [<- | []]]; eexists; reflexivity. }
  assert (Hreturned : snd (deployBody happyEnv 3 sampleOptions sampleConfig world0)
                      = Returned tt) by (vm_compute; reflexivity).
  destruct (@finished_run_leaves_no_step_unfinished happyEnv 3 sampleOptions sampleConfig
              Hnames Hknown Hreturned) as (Hids & Hsettled & Hsuccess).
  split; [ exact Hids | split; [ exact Hsettled | ] ].
  apply Hsuccess; try reflexivity.
  - eexists. reflexivity.
  - intros n service [<- | [<- | []]] [= <-]; reflexivity.
Defined.


(* ===================================================================== *)
(** * Properties of the version options *)
(* ===================================================================== *)

Lemma getProp_setProp_same {A : Type} (o : list (string * A)) (k : string) (v : A) :
  getProp (setProp o k v) k = Some v.
Proof.
  induction o as [|[k' v'] rest IH]; simpl.
  - rewrite String.eqb_refl. reflexivity.
  - destruct (String.eqb k' k) eqn:E; simpl.
    + rewrite String.eqb_refl. reflexivity.
    + destruct (isArrayIndex k && _)%bool; simpl.
      * rewrite String.eqb_refl. reflexivity.
      * rewrite E. exact IH.
Qed.

Lemma getProp_setProp_other {A : Type} (o : list (string * A)) (k : string) (v : A)
    (k' : string) :
  k' <> k -> getProp (setProp o k v) k' = getProp o k'.
Proof.
  intros Hne.
  assert (Hk : String.eqb k k' = false).
  { destruct (String.eqb k k') eqn:E; [ apply String.eqb_eq in E; congruence | reflexivity ]. }
  induction o as [|[k0 v0] rest IH]; simpl.
  - rewrite Hk. reflexivity.
  - destruct (String.eqb k0 k) eqn:E; simpl.
    + apply String.eqb_eq in E. subst k0. rewrite Hk. reflexivity.
    + destruct (isArrayIndex k && _)%bool; simpl.
      * rewrite Hk. reflexivity.
      * destruct (String.eqb k0 k'); [ reflexivity | exact IH ].
Qed.

Lemma getProp_assign_other {A : Type} (o : list (string * A)) (k : string) (v : A)
    (k' : string) :
  k' <> k -> getProp (assign o k v) k' = getProp o k'.
Proof.
  intros Hne. unfold assign. destruct (String.eqb k "__proto__"); [ reflexivity | ].
  apply getProp_setProp_other. exact Hne.
Qed.

Lemma getProp_assign_same {A : Type} (o : list (string * A)) (k : string) (v : A) :
  k <> "__proto__" -> getProp (assign o k v) k = Some v.
Proof.
  intros Hne. unfold assign.
  destruct (String.eqb k "__proto__") eqn:E; [ apply String.eqb_eq in E; congruence | ].
  apply getProp_setProp_same.
Qed.

Lemma inherited_proto (k : string) : inherited k = false -> k <> "__proto__".
Proof. intros H E. subst k. vm_compute in H. discriminate. Qed.

Lemma orElse_truthy (a : option string) (b : string) :
  truthyString b = true -> truthyString (orElse a b) = true.
Proof.
  intros Hb. unfold orElse. destruct a as [s|]; [ | exact Hb ].
  destruct (truthyString s) eqn:E; [ exact E | exact Hb ].
Qed.

Lemma orElse_same (s b : string) :
  truthyString s = true -> orElse (Some s) b = s.
Proof. intros H. unfold orElse. rewrite H. reflexivity. Qed.

Section Default.

Variable v : string.
Hypothesis v_truthy : truthyString v = true.

Let fill (vs : list (string * string)) (service : string) : list (string * string) :=
  if negb (truthyAt vs service) then assign vs service v else vs.

Lemma fill_other (vs : list (string * string)) (a k : string) :
  k <> a -> getProp (fill vs a) k = getProp vs k.
Proof.
  intros Hne. unfold fill. destruct (negb (truthyAt vs a)); [ | reflexivity ].
  apply getProp_assign_other. exact Hne.
Qed.

Lemma fill_same (vs : list (string * string)) (k : string) :
  inherited k = false -> getProp (fill vs k) k = Some (orElse (getProp vs k) v).
Proof.
  intros Hk. unfold fill, truthyAt, orElse.
  destruct (getProp vs k) as [x|] eqn:E.
  - destruct (truthyString x) eqn:Hx; simpl.
    + exact E.
    + apply getProp_assign_same, inherited_proto, Hk.
  - rewrite Hk. simpl. apply getProp_assign_same, inherited_proto, Hk.
Qed.

Lemma fill_keeps (vs : list (string * string)) (a k x : string) :
  getProp vs k = Some x -> truthyString x = true -> getProp (fill vs a) k = Some x.
Proof.
  intros E Hx. destruct (string_dec k a) as [->|Hne].
  - unfold fill, truthyAt. rewrite E, Hx. simpl. exact E.
  - rewrite fill_other by exact Hne. exact E.
Qed.

Lemma fold_fill_keeps (l : list string) (vs : list (string * string)) (k x : string) :
  getProp vs k = Some x -> truthyString x = true ->
  getProp (fold_left fill l vs) k = Some x.
Proof.
  revert vs. induction l as [|a l IH]; intros vs E Hx; simpl; [ exact E | ].
  apply IH; [ apply fill_keeps; assumption | exact Hx ].
Qed.

Lemma fold_fill_in (l : list string) (vs : list (string * string)) (k : string) :
  In k l -> inherited k = false ->
  getProp (fold_left fill l vs) k = Some (orElse (getProp vs k) v).
Proof.
  revert vs. induction l as [|a l IH]; intros vs Hin Hk; [ destruct Hin | ].
  simpl. destruct (string_dec a k) as [->|Hne].
  - apply fold_fill_keeps; [ apply fill_same; exact Hk | apply orElse_truthy, v_truthy ].
  - destruct Hin as [->|Hin]; [ congruence | ].
    rewrite (IH (fill vs a) Hin Hk). rewrite fill_other by congruence. reflexivity.
Qed.

Lemma fold_fill_out (l : list string) (vs : list (string * string)) (k : string) :
  ~ In k l -> getProp (fold_left fill l vs) k = getProp vs k.
Proof.
  revert vs. induction l as [|a l IH]; intros vs Hout; simpl; [ reflexivity | ].
  rewrite IH by (intros H; apply Hout; right; exact H).
  apply fill_other. intros ->. apply Hout. left. reflexivity.
Qed.

End Default.

(** X23. With [--version v] (not empty) and a configuration, every service
    of the configuration whose name is not a property of [Object.prototype]
    ends with a version: the one [--versions] or [--auto] gave it, if that
    is not empty, and [v] otherwise.  Names outside the configuration keep
    what they had. *)
Theorem version_flag_fills_only_missing_versions :
  forall (opts : Cli.Options) (config : Config.ProjectConfig)
         (auto : list (string * string)) (v : string),
    Cli.version opts = Some v ->
    truthyString v = true ->
    Forall (fun service =>
              inherited service = true
              \/ getProp (collectVersions opts (Some config) auto) service
                 = Some (orElse (getProp (addPairs opts auto) service) v))
           (objectKeys (Config.services config))
    /\ (forall k, In k (objectKeys (Config.services config))
                  \/ getProp (collectVersions opts (Some config) auto) k
                     = getProp (addPairs opts auto) k).
Proof.
  intros opts config auto v Hv Hv'.
  assert (E : collectVersions opts (Some config) auto
              = fold_left (fun vs service =>
                             if negb (truthyAt vs service) then assign vs service v else vs)
                          (objectKeys (Config.services config)) (addPairs opts auto)).
  { unfold collectVersions, addDefault. rewrite Hv. simpl. rewrite Hv'. reflexivity. }
  rewrite E. split.
  - apply Forall_forall. intros service Hin.
    destruct (inherited service) eqn:Hi; [ left; reflexivity | right ].
    apply fold_fill_in; assumption.
  - intros k. destruct (in_dec string_dec k (objectKeys (Config.services config))) as [Hin|Hout].
    + left. exact Hin.
    + right. apply fold_fill_out. exact Hout.
Qed.

Lemma version_flag_fills_only_missing_versions_witness :
  let opts := {| Cli.services := None; Cli.version := Some "v2";
                 Cli.versions := Some "api:v1" |} in
  Forall (fun service =>
            inherited service = true
            \/ getProp (collectVersions opts (Some sampleConfig) []) service
               = Some (orElse (getProp (addPairs opts []) service) "v2"))
         (objectKeys (Config.services sampleConfig))
  /\ (forall k, In k (objectKeys (Config.services sampleConfig))
                \/ getProp (collectVersions opts (Some sampleConfig) []) k
                   = getProp (addPairs opts []) k).
Proof.
  intros opts.
  exact (version_flag_fills_only_missing_versions opts sampleConfig [] eq_refl eq_refl).
Defined.









(* ===================================================================== *)
(** * Properties of the interactive menu *)
(* ===================================================================== *)


Section MenuFacts.

Variable configPath : option string.
Variable c : Config.ProjectConfig.

Let selectionOk : Menu.State -> Prop := Menu.selectionOk (objectKeys (Config.services c)).



End MenuFacts.



(* ===================================================================== *)
(** * Properties of the log panel *)
(* ===================================================================== *)



(* ===================================================================== *)
(** * Properties of the [build] and [push] commands *)
(* ===================================================================== *)

Section Always.

Variable p : Event -> bool.

Lemma always_ret {A : Type} (a : A) : always p (ret a).
Proof. intro w. reflexivity. Qed.

Lemma always_throw {A : Type} (msg : string) : always p (@throw A msg).
Proof. intro w. reflexivity. Qed.

Lemma always_emit (evs : list Event) : forallb p evs = true -> always p (emit evs).
Proof. intros H w. exact H. Qed.

Lemma always_bind {A B : Type} (c : M A) (k : A -> M B) :
  always p c -> (forall a, always p (k a)) -> always p (bind c k).
Proof.
  intros Hc Hk w. specialize (Hc w). rewrite bind_run.
  destruct (c w) as [[e1 w1] [a | e |]]; cbn [fst snd] in Hc |- *; try exact Hc.
  specialize (Hk a w1). destruct (k a w1) as [[e2 w2] r2]. cbn [fst snd after] in Hk |- *.
  now rewrite forallb_app, Hc, Hk.
Qed.

Lemma always_now (env : Env) : always p (now env).
Proof. intro w. reflexivity. Qed.

Lemma always_awaitExit (o : ProcOutcome) : always p (awaitExit o).
Proof. unfold awaitExit. destruct (failure o); intro w; reflexivity. Qed.

Hypothesis p_log : forall l, p (AddLog l) = true.

Lemma always_forwardOutput (o : ProcOutcome) : always p (forwardOutput (Some addLog) o).
Proof.
  intro w. rewrite forwardOutput_run. cbn [fst snd]. unfold outputLogs.
  induction (flat_map chunkLines (chunks o)) as [| l ls IH]; [ reflexivity | ].
  cbn [map forallb]. rewrite p_log. exact IH.
Qed.

End Always.

Section DryRun.

Variable env : Env.
Variable fuel : nat.
Variable options : DeployOptions.
Variable subcommands : list string.

Hypothesis dry : dryRun options = true.
Hypothesis version_allowed : existsb (String.eqb "version") subcommands = true.
Hypothesis build_allowed :
  skipBuild options = false -> existsb (String.eqb "build") subcommands = true.
Hypothesis push_allowed :
  skipPush options = false -> existsb (String.eqb "push") subcommands = true.

Let p : Event -> bool := localOnly subcommands.

Lemma local_log (l : string) : p (AddLog l) = true.
Proof. reflexivity. Qed.

Lemma local_deployService (config : Config.ProjectConfig) (projectRoot serviceName : string) :
  always p (deployService env fuel options config projectRoot None serviceName).
Proof.
  unfold deployService.
  apply always_bind; [ apply always_emit; reflexivity | intros _ ].
  destruct (getProp (Config.services config) serviceName) as [service |] eqn:Hfound;
    [ | apply always_emit; reflexivity ].
  apply always_bind; [ | intros _; apply always_bind; [ | intros _ ] ].
  - unfold buildPhase, buildServiceImage, buildDockerImage, updateStep, setPhase.
    destruct (skipBuild options) eqn:Hb; cbn [negb]; [ apply always_ret | ].
    rewrite Hfound.
    assert (Hspawn : forall args cwd,
               always p (execa env "docker" ("build" :: args) cwd)).
    { intros args cwd w. unfold execa. cbn [fst forallb p localOnly].
      rewrite (build_allowed eq_refl). reflexivity. }
    repeat first
      [ apply Hspawn
      | apply always_ret
      | apply always_now
      | apply always_awaitExit
      | apply always_forwardOutput; exact local_log
      | apply always_emit; reflexivity
      | apply always_bind; [ | intro ] ].
  - unfold pushPhase, pushDockerImage, updateStep, setPhase.
    destruct (skipPush options) eqn:Hp; cbn [negb]; [ apply always_ret | ].
    assert (Hspawn : forall args cwd,
               always p (execa env "docker" ("push" :: args) cwd)).
    { intros args cwd w. unfold execa. cbn [fst forallb p localOnly].
      rewrite (push_allowed eq_refl). reflexivity. }
    repeat first
      [ apply Hspawn
      | apply always_ret
      | apply always_now
      | apply always_awaitExit
      | apply always_forwardOutput; exact local_log
      | apply always_emit; reflexivity
      | apply always_bind; [ | intro ] ].
  - intro w. reflexivity.
Qed.

Lemma local_deployServices (config : Config.ProjectConfig) (projectRoot : string)
    (names : list string) :
  always p (deployServices env fuel options config projectRoot None names).
Proof.
  induction names as [| n names IH]; cbn [deployServices]; [ apply always_ret | ].
  apply always_bind; [ apply local_deployService | intros _; exact IH ].
Qed.

Lemma local_deploy (config : Config.ProjectConfig) :
  always p (deploy env fuel options config).
Proof.
  assert (Hnone : makeFaasClient env options = None).
  { unfold makeFaasClient. now rewrite dry. }
  assert (Hbody : always p (deployBody env fuel options config)).
  { unfold deployBody. rewrite Hnone.
    apply always_bind.
    { intro w. rewrite checkDocker_run. cbn [fst forallb p localOnly].
      rewrite version_allowed. reflexivity. }
    intro dockerAvailable.
    apply always_bind;
      [ destruct (negb dockerAvailable); [ apply always_throw | apply always_ret ]
      | intros _ ].
    apply always_bind; [ apply local_deployServices | intros _ ].
    apply always_bind; apply always_emit || intros _; try reflexivity.
    apply always_emit. reflexivity. }
  intro w. rewrite deploy_run. specialize (Hbody w).
  destruct (deployBody env fuel options config w) as [[evs w1] [[] | e |]];
    cbn [fst] in Hbody |- *; try exact Hbody.
  rewrite forallb_app, Hbody. reflexivity.
Qed.

Lemma local_appEvents (loaded : option Config.ProjectConfig) :
  forallb p (appEvents env fuel options loaded) = true.
Proof.
  unfold appEvents. rewrite forallb_app.
  destruct loaded as [config |]; cbn [planEffect].
  - cbn [forallb p localOnly andb]. unfold deployEffect.
    destruct (projectConfig _) as [c |]; [ | reflexivity ].
    destruct (steps _); [ reflexivity | ]. apply local_deploy.
  - reflexivity.
Qed.

End DryRun.

(** X27. A run started by the [build] command sends no request, never
    sleeps and starts no subprocess other than [docker version] and
    [docker build]; a run started by the [push] command, none other than
    [docker version] and [docker push].  This holds whatever the
    environment answers and whatever the configuration. *)
Theorem build_and_push_commands_stay_local :
  forall (env : Env) (fuel : nat) (opts : Cli.Options)
         (config loaded : option Config.ProjectConfig) (o : DeployOptions),
    buildCommandOptions opts config = Some o ->
    forallb (localOnly [ "version"; "build" ]) (appEvents env fuel o loaded) = true
    /\ forallb (localOnly [ "version"; "push" ])
               (appEvents env fuel (pushCommandOptions opts config) loaded) = true.
Proof.
  intros env fuel opts config loaded o Ho. split.
  - unfold buildCommandOptions in Ho.
    destruct (Nat.eqb _ 0); [ discriminate | ]. injection Ho as <-.
    apply local_appEvents; try reflexivity; discriminate.
  - apply local_appEvents; try reflexivity; discriminate.
Qed.

Lemma build_and_push_commands_stay_local_witness :
  let opts := {| Cli.services := Some "api"; Cli.version := Some "v1.0.0";
                 Cli.versions := None |} in
  buildCommandOptions opts (Some sampleConfig)
  = Some {| services := Some [ "api" ];
            versions := [ ("api", "v1.0.0"); ("worker", "v1.0.0") ];
            skipBuild := false; skipPush := true; dryRun := true |}
  /\ forallb (localOnly [ "version"; "build" ])
       (appEvents happyEnv 3
          {| services := Some [ "api" ];
             versions := [ ("api", "v1.0.0"); ("worker", "v1.0.0") ];
             skipBuild := false; skipPush := true; dryRun := true |}
          (Some sampleConfig)) = true
  /\ forallb (localOnly [ "version"; "push" ])
       (appEvents happyEnv 3 (pushCommandOptions opts (Some sampleConfig))
          (Some sampleConfig)) = true.
Proof.
  intros opts. split; [ reflexivity | ].
  exact (build_and_push_commands_stay_local happyEnv 3 opts (Some sampleConfig)
           (Some sampleConfig) eq_refl).
Defined.

(* ===================================================================== *)
(** * Properties of the search for the project configuration *)
(* ===================================================================== *)

Section Search.

Variable dirname : string -> string.
Variable pathJoin : string -> string -> string.
Variable existsSync : string -> bool.

Let up (n : nat) (dir : string) : string := ancestor dirname n dir.

Lemma ancestor_succ (n : nat) (dir : string) : up (S n) dir = up n (dirname dir).
Proof.
  unfold up, ancestor. induction n as [|n IH]; [ reflexivity | ].
  simpl in *. rewrite IH. reflexivity.
Qed.

Lemma find_skips (i : nat) :
  forall (fuel : nat) (start : string),
    (forall j, (j < i)%nat ->
               String.eqb (up j start) (dirname (up j start)) = false
               /\ existsSync (pathJoin (up j start) PROJECT_CONFIG_FILE) = false) ->
    findProjectConfigPath dirname pathJoin existsSync (i + fuel) start
    = findProjectConfigPath dirname pathJoin existsSync fuel (up i start).
Proof.
  induction i as [|i IH]; intros fuel start H; [ reflexivity | ].
  destruct (H 0%nat (Nat.lt_0_succ i)) as [Hroot Hnone].
  change (up 0 start) with start in Hroot, Hnone.
  change (S i + fuel)%nat with (S (i + fuel)). cbn [findProjectConfigPath].
  rewrite Hroot, Hnone. cbn [negb].
  rewrite IH.
  - rewrite <- ancestor_succ. reflexivity.
  - intros j Hj. rewrite <- !ancestor_succ. apply H. apply -> Nat.succ_lt_mono. exact Hj.
Qed.

End Search.

(** X28. The search for [deploy.config.json] goes up from the start
    directory to the first directory that is its own parent and does not
    look into that one.  The file of the nearest directory below it that has
    one is returned; if none has one the result is [null], even when the
    topmost directory holds the file. *)
Theorem nearest_configuration_wins_and_the_top_is_not_searched :
  forall (dirname : string -> string) (pathJoin : string -> string -> string)
         (existsSync : string -> bool) (start : string) (top fuel : nat),
    String.eqb (ancestor dirname top start) (dirname (ancestor dirname top start)) = true ->
    (forall j, (j < top)%nat ->
               String.eqb (ancestor dirname j start) (dirname (ancestor dirname j start))
               = false) ->
    (top < fuel)%nat ->
    (forall i,
        (i < top)%nat ->
        existsSync (pathJoin (ancestor dirname i start) PROJECT_CONFIG_FILE) = true ->
        (forall j, (j < i)%nat ->
                   existsSync (pathJoin (ancestor dirname j start) PROJECT_CONFIG_FILE)
                   = false) ->
        findProjectConfigPath dirname pathJoin existsSync fuel start
        = Some (Some (pathJoin (ancestor dirname i start) PROJECT_CONFIG_FILE)))
    /\ ((forall j, (j < top)%nat ->
                   existsSync (pathJoin (ancestor dirname j start) PROJECT_CONFIG_FILE)
                   = false) ->
        findProjectConfigPath dirname pathJoin existsSync fuel start = Some None).
Proof.
  intros dirname pathJoin existsSync start top fuel Htop Hbelow Hfuel. split.
  - intros i Hi Hthere Hnone.
    replace fuel with (i + (fuel - i))%nat by lia.
    rewrite find_skips.
    + destruct (fuel - i)%nat as [|rest] eqn:E; [ lia | ].
      cbn [findProjectConfigPath]. rewrite (Hbelow i Hi), Hthere. reflexivity.
    + intros j Hj. split; [ apply Hbelow; lia | apply Hnone; exact Hj ].
  - intros Hnone.
    replace fuel with (top + (fuel - top))%nat by lia.
    rewrite find_skips.
    + destruct (fuel - top)%nat as [|rest] eqn:E; [ lia | ].
      cbn [findProjectConfigPath]. rewrite Htop. reflexivity.
    + intros j Hj. split; [ apply Hbelow; exact Hj | apply Hnone; exact Hj ].
Qed.

Lemma nearest_configuration_wins_and_the_top_is_not_searched_witness :
  let dirname := fun d => if String.eqb d "/srv/app" then "/srv" else "/" in
  let pathJoin := fun d f =>
                    if String.eqb d "/" then "/" ++ f else d ++ "/" ++ f in
  findProjectConfigPath dirname pathJoin
    (fun p => String.eqb p "/srv/deploy.config.json" || String.eqb p "/deploy.config.json")
    5 "/srv/app"
  = Some (Some "/srv/deploy.config.json")
  /\ findProjectConfigPath dirname pathJoin
       (fun p => String.eqb p "/deploy.config.json") 5 "/srv/app"
     = Some None.
Proof.
  intros dirname pathJoin.
  assert (Hbelow : forall j, (j < 2)%nat ->
                     String.eqb (ancestor dirname j "/srv/app")
                                (dirname (ancestor dirname j "/srv/app")) = false).
  { intros [|[|j]] Hj; [ reflexivity | reflexivity | lia ]. }
  split.
  - refine (proj1 (nearest_configuration_wins_and_the_top_is_not_searched
                     dirname pathJoin _ "/srv/app" (top := 2) (fuel := 5)
                     eq_refl Hbelow _) 1%nat _ eq_refl _).
    + lia.
    + lia.
    + intros [|j] Hj; [ reflexivity | lia ].
  - refine (proj2 (nearest_configuration_wins_and_the_top_is_not_searched
                     dirname pathJoin _ "/srv/app" (top := 2) (fuel := 5)
                     eq_refl Hbelow _) _).
    + lia.
    + intros [|[|j]] Hj; [ reflexivity | reflexivity | lia ].
Defined.

(* ===================================================================== *)
(** * Properties of the report on the running images *)
(* ===================================================================== *)

Lemma length_setProp {A : Type} (o : list (string * A)) (k : string) (v : A) :
  getProp o k = None -> length (setProp o k v) = S (length o).
Proof.
  induction o as [|[k' v'] rest IH]; simpl; intros H; [ reflexivity | ].
  destruct (String.eqb k' k) eqn:E; [ discriminate | ].
  destruct (isArrayIndex k && _)%bool; simpl; [ reflexivity | ].
  rewrite IH by exact H. reflexivity.
Qed.

Lemma length_assign {A : Type} (o : list (string * A)) (k : string) (v : A) :
  k <> "__proto__" -> getProp o k = None -> length (assign o k v) = S (length o).
Proof.
  intros Hk Hnew. unfold assign.
  destruct (String.eqb k "__proto__") eqn:E; [ apply String.eqb_eq in E; congruence | ].
  apply length_setProp. exact Hnew.
Qed.

Section ImagesFacts.

Variable env : Env.
Variable client : FaaSClient.

(** Reading the image of a function makes one request and then returns or
    throws; what it returns carries the function id, and a version only
    with an image. *)
Lemma readFunctionImage_run (functionId : string) (w : World) :
  exists evs r,
    readFunctionImage env client functionId w = (evs, afterRequest w, r)
    /\ r <> @Unsettled Images.Info
    /\ (forall info, r = Returned info ->
                     Images.functionId info = functionId
                     /\ (Images.imageUri info = None -> Images.version info = None)).
Proof.
  unfold readFunctionImage, getFunction. rewrite bind_run, request_run.
  assert (Hthrown : forall (evs : list Event) (e : JsError),
             exists evs' r,
               (evs, afterRequest w, @Thrown Images.Info e) = (evs', afterRequest w, r)
               /\ r <> @Unsettled Images.Info
               /\ (forall info, r = Returned info ->
                                Images.functionId info = functionId
                                /\ (Images.imageUri info = None
                                    -> Images.version info = None))).
  { intros evs e. exists evs, (Thrown e). repeat split; discriminate. }
  destruct (fetchReply env (fetches w)) as [e | r]; [ apply Hthrown | ].
  destruct (jsonBody r) as [e | data]; [ apply Hthrown | ].
  destruct (ok r); [ | apply Hthrown ].
  destruct (readProp data "Result") as [| [v |]]; try apply Hthrown.
  destruct (truthy v); [ | apply Hthrown ].
  unfold after.
  destruct (readProp v "Source") as [| [source |]].
  - eexists. eexists. split; [ reflexivity | ]. split; [ discriminate | ]. discriminate.
  - destruct (truthy source).
    + destruct source; try
        (eexists; eexists; split; [ reflexivity | ]; split; [ discriminate | ]; discriminate).
      eexists. eexists. split; [ reflexivity | ]. split; [ discriminate | ].
      intros info [= <-]. split; [ reflexivity | discriminate ].
    + eexists. eexists. split; [ reflexivity | ]. split; [ discriminate | ].
      intros info [= <-]. split; reflexivity.
  - eexists. eexists. split; [ reflexivity | ]. split; [ discriminate | ].
    intros info [= <-]. split; reflexivity.
Qed.

(** One iteration returns, with one more entry, after one request for a
    bound service and none for an unbound one. *)
Lemma fetchFunctionImage_run (results : list (string * Images.Info))
    (entry : string * Config.Service) (w : World) :
  fst entry <> "__proto__" ->
  exists evs info,
    fetchFunctionImage env client results entry w
    = (evs, (if bound entry then afterRequest w else w),
       Returned (assign results (fst entry) info))
    /\ reported (assign results (fst entry) info) entry.
Proof.
  intros Hproto. unfold fetchFunctionImage, reported, bound.
  destruct (truthyOpt (Config.functionId (snd entry))) eqn:Hb; cbn [negb].
  - unfold tryCatch. rewrite bind_run.
    destruct (readFunctionImage_run (showOpt (Config.functionId (snd entry))) w)
      as (evs & r & -> & Hsettled & Hinfo).
    destruct r as [info | e |]; [ | | congruence ].
    + destruct (Hinfo info eq_refl) as [Hid Hv].
      eexists. exists info. split; [ unfold after, ret; reflexivity | ].
      exists info. split; [ apply getProp_assign_same; exact Hproto | ].
      split; assumption.
    + eexists. eexists. split; [ unfold ret; reflexivity | ].
      eexists. split; [ apply getProp_assign_same; exact Hproto | ].
      split; reflexivity.
  - eexists. eexists. split; [ reflexivity | ].
    eexists. split; [ apply getProp_assign_same; exact Hproto | ].
    split; reflexivity.
Qed.

Lemma fetchFunctionImagesLoop_run (entries : list (string * Config.Service)) :
  forall (results : list (string * Images.Info)) (w : World),
    NoDup (objectKeys entries) ->
    ~ In "__proto__" (objectKeys entries) ->
    (forall k, In k (objectKeys entries) -> getProp results k = None) ->
    exists evs w' results',
      fetchFunctionImagesLoop env client entries results w = (evs, w', Returned results')
      /\ length results' = (length results + length entries)%nat
      /\ Forall (reported results') entries
      /\ (forall k, ~ In k (objectKeys entries) -> getProp results' k = getProp results k)
      /\ fetches w' = (fetches w + length (filter bound entries))%nat.
Proof.
  induction entries as [|entry rest IH]; intros results w Hnd Hproto Hnew.
  - exists [], w, results. cbn. repeat split; auto.
  - cbn [objectKeys map] in Hnd, Hproto, Hnew. inversion Hnd as [|? ? Hnotin Hnd']; subst.
    assert (Hp : fst entry <> "__proto__").
    { intros E. apply Hproto. left. exact E. }
    destruct (fetchFunctionImage_run results entry w Hp) as (evs1 & info & Hrun & Hrep).
    destruct (IH (assign results (fst entry) info)
                 (if bound entry then afterRequest w else w) Hnd') as
      (evs2 & w' & results' & Hloop & Hlen & Hall & Hother & Hfetch).
    { intros H. apply Hproto. right. exact H. }
    { intros k Hk. rewrite getProp_assign_other.
      - apply Hnew. right. exact Hk.
      - intros ->. apply Hnotin. exact Hk. }
    exists (evs1 ++ evs2)%list, w', results'.
    split; [ cbn [fetchFunctionImagesLoop]; rewrite bind_run, Hrun, Hloop; reflexivity | ].
    split.
    { rewrite Hlen, length_assign; [ cbn [length]; lia | exact Hp | ].
      apply Hnew. left. reflexivity. }
    split.
    { constructor; [ | exact Hall ].
      destruct Hrep as (i & Hget & Hrest). exists i. split; [ | exact Hrest ].
      rewrite Hother by exact Hnotin. exact Hget. }
    split.
    { intros k Hk. rewrite Hother by (intros H; apply Hk; right; exact H).
      apply getProp_assign_other. intros ->. apply Hk. left. reflexivity. }
    rewrite Hfetch. cbn [filter]. destruct (bound entry); cbn [length afterRequest fetches]; lia.
Qed.

End ImagesFacts.

(** X29. With a configuration and both halves of the credentials,
    [fetchFunctionImages] never throws, whatever the control plane answers:
    it returns one entry per service (names being distinct and none
    [__proto__]), with the function id of a bound service and the marker of
    an unbound one, and a version only together with an image.  It makes
    one request per bound service, none for an unbound one and no second
    one after a failure. *)
Theorem fetchFunctionImages_reports_every_service :
  forall (env : Env) (c : Config.ProjectConfig) (w : World),
    truthyString (accessKeyId (getVolcengineCredentials env)) = true ->
    truthyString (secretAccessKey (getVolcengineCredentials env)) = true ->
    NoDup (objectKeys (Config.services c)) ->
    ~ In "__proto__" (objectKeys (Config.services c)) ->
    exists evs w' results,
      fetchFunctionImages env (Some c) w = (evs, w', Returned results)
      /\ length results = length (Config.services c)
      /\ Forall (reported results) (Config.services c)
      /\ fetches w' = (fetches w + length (filter bound (Config.services c)))%nat.
Proof.
  intros env c w Hak Hsk Hnd Hproto. unfold fetchFunctionImages.
  rewrite Hak, Hsk. cbn [negb orb].
  destruct (fetchFunctionImagesLoop_run env
              (newFaaSClient (getVolcengineCredentials env)) (Config.services c) [] w
              Hnd Hproto (fun _ _ => eq_refl))
    as (evs & w' & results & Hrun & Hlen & Hall & _ & Hfetch).
  exists evs, w', results. repeat split; assumption.
Qed.

Lemma fetchFunctionImages_reports_every_service_witness :
  exists evs w' results,
    fetchFunctionImages happyEnv (Some unboundConfig) world0 = (evs, w', Returned results)
    /\ length results = 2%nat
    /\ Forall (reported results) (Config.services unboundConfig)
    /\ fetches w' = 1%nat.
Proof.
  refine (fetchFunctionImages_reports_every_service happyEnv unboundConfig world0
            eq_refl eq_refl _ _).
  - repeat constructor; simpl; intuition discriminate.
  - simpl. intuition discriminate.
Defined.

(* ===================================================================== *)
(** * Properties of the project wizard *)
(* ===================================================================== *)

Lemma manual_offered (st : Wizard.State) :
  existsb (String.eqb "manual") (Wizard.functionValues st) = true.
Proof.
  unfold Wizard.functionValues.
  destruct (truthyOpt (Wizard.loadingError st)); [ reflexivity | ].
  destruct (Wizard.functions st); reflexivity.
Qed.

Lemma add_offered (st : Wizard.State) :
  existsb (String.eqb "add") (Wizard.serviceMenuValues st) = true.
Proof. reflexivity. Qed.

(** X30. Adding a service through the wizard stores the answers as typed:
    from the list of services, whatever was done before, the choice [add]
    followed by a name, a Dockerfile, a context, an image name and a
    function id puts under that name a service with exactly these values,
    with and without credentials.  Its platform is the one of the draft
    left behind, which is [linux/amd64] unless an edit of another service
    was abandoned.  The other services, the name and the registry are left
    as they were, nothing is written to the file, and the wizard is back at
    the list with an empty draft. *)
Theorem wizard_add_service_stores_the_answers :
  forall (hasCredentials : bool) (st : Wizard.State) (loaded : list string + string)
         (serviceName dockerfile context imageName functionId : string),
    Wizard.step st = Wizard.service_menu ->
    Wizard.closed st = false ->
    let st' := Wizard.run hasCredentials st
                 (Wizard.addService hasCredentials loaded serviceName dockerfile context
                    imageName functionId) in
    getProp (Config.services (Wizard.config st')) serviceName
    = Some {| Config.functionId := Some functionId;
              Config.dockerfile := dockerfile;
              Config.context := context;
              Config.imageName := imageName;
              Config.platform := Some (Wizard.platform (Wizard.currentService st)) |}
    /\ (forall k, k = serviceName
                  \/ getProp (Config.services (Wizard.config st')) k
                     = getProp (Config.services (Wizard.config st)) k)
    /\ Config.name (Wizard.config st') = Config.name (Wizard.config st)
    /\ Config.registry (Wizard.config st') = Config.registry (Wizard.config st)
    /\ Wizard.saved st' = Wizard.saved st
    /\ Wizard.step st' = Wizard.service_menu
    /\ Wizard.currentService st' = Wizard.emptyDraft
    /\ Wizard.closed st' = false.
Proof.
  intros hasCredentials st loaded serviceName dockerfile context imageName functionId
    Hstep Hopen st'.
  assert (Hrun : st' = Wizard.saveService functionId
                         {| Wizard.step := Wizard.manual_function_id;
                            Wizard.inputValue := functionId;
                            Wizard.config := Wizard.config st;
                            Wizard.currentServiceName := serviceName;
                            Wizard.currentService :=
                              {| Wizard.functionId :=
                                   Wizard.functionId (Wizard.currentService st);
                                 Wizard.dockerfile := dockerfile;
                                 Wizard.context := context;
                                 Wizard.imageName := imageName;
                                 Wizard.platform :=
                                   Wizard.platform (Wizard.currentService st) |};
                            Wizard.functions :=
                              (if hasCredentials
                               then match loaded with
                                    | inl items => items
                                    | inr _ => Wizard.functions st
                                    end
                               else Wizard.functions st);
                            Wizard.loadingError :=
                              (if hasCredentials
                               then match loaded with
                                    | inl _ => Wizard.loadingError st
                                    | inr message => Some message
                                    end
                               else Wizard.loadingError st);
                            Wizard.saved := Wizard.saved st;
                            Wizard.closed := false |}).
  { unfold st', Wizard.run, Wizard.addService.
    destruct st as [s iv c csn cs fs le sv cl]. cbn in Hstep, Hopen. subst s cl.
    destruct hasCredentials; [ | reflexivity ].
    cbn -[Wizard.functionValues existsb String.eqb]. rewrite add_offered.
    destruct loaded as [items | message];
      cbn -[Wizard.functionValues existsb]; rewrite manual_offered; reflexivity. }
  rewrite Hrun. cbn.
  split; [ apply getProp_setProp_same | ].
  split.
  { intros k. destruct (string_dec k serviceName) as [->|Hne]; [ left; reflexivity | right ].
    apply getProp_setProp_other. exact Hne. }
  repeat split.
Qed.

Lemma wizard_add_service_stores_the_answers_witness :
  let st := Wizard.run false (Wizard.initial (Some sampleConfig))
              [ Wizard.Submit; Wizard.Submit; Wizard.Submit ] in
  let st' := Wizard.run false st
               (Wizard.addService false (inl []) "cron" "cron/Dockerfile" "cron"
                  "demo-cron" "fn-cron") in
  getProp (Config.services (Wizard.config st')) "cron"
  = Some {| Config.functionId := Some "fn-cron";
            Config.dockerfile := "cron/Dockerfile";
            Config.context := "cron";
            Config.imageName := "demo-cron";
            Config.platform := Some "linux/amd64" |}
  /\ objectKeys (Config.services (Wizard.config st')) = [ "api"; "worker"; "cron" ]
  /\ Wizard.saved st' = [].
Proof.
  intros st st'.
  destruct (wizard_add_service_stores_the_answers false st (inl []) "cron"
              "cron/Dockerfile" "cron" "demo-cron" "fn-cron" eq_refl eq_refl)
    as (Hget & _ & _ & _ & Hsaved & _).
  split; [ exact Hget | ]. split; [ reflexivity | exact Hsaved ].
Defined.
